(** * Memory Grid: a shallow embedding of the walking memory-path game

    The development follows the scripts of the repository:

    - [MathHelpers]      grid arithmetic, neighbours, [randomInt], [shuffleArray]
    - [PathGenerator]    the self-avoiding random walk with backtracking
    - [TileTrigger]      the per-tile detection volume and its single-fire latch
    - [GridManager]      tile data, tile objects, triggers, coordinate mapping
    - [PlayerTracker]    the step validator
    - [SaveSystem]       the progress store: levels, retries, achievements
    - [GameStateManager] level set-up against the persisted progress store

    Conventions.  A JavaScript number that holds a coordinate, a size or a
    level is a [Z]; an array length or an array index that the code only ever
    counts upwards from zero is a [nat]; lengths in centimetres are exact
    rationals ([Q]).  A function that can raise a [TypeError] (a property read
    on [undefined]) returns an [option], [None] standing for the exception.
    [Math.random] is an oracle: a stream of draws that is threaded through
    every function that consumes randomness. *)

From Stdlib Require Import ZArith QArith Qround Qminmax Lia Lqa Ascii.
From stdpp Require Import gmap strings list pretty.

Local Open Scope Z_scope.

(* ===================================================================== *)
(** * Part I: the program                                                 *)
(* ===================================================================== *)

(** ** The JavaScript runtime *)

Module Js.

(** The source of randomness.  Each call of [Math.random] consumes one draw;
    an exhausted stream keeps answering with the draw [0]. *)
Definition Rand := list nat.

Definition Math_random (r : Rand) : nat * Rand :=
  match r with
  | [] => (0%nat, [])
  | d :: r' => (d, r')
  end.

(** [Math.floor(Math.random() * n)]: some integer of [0 .. n-1] for a positive
    [n], and [0] when [n] is [0]. *)
Definition floorRandomTimes (n : Z) (r : Rand) : Z * Rand :=
  let '(d, r') := Math_random r in
  (if n =? 0 then 0 else Z.of_nat d mod n, r').

(** [Math.random() - 0.5]: only its sign is observed (by a sort comparator). *)
Definition randomMinusHalf (r : Rand) : Z * Rand :=
  let '(d, r') := Math_random r in
  (Z.of_nat (d mod 3) - 1, r').

(** [Array.prototype.sort] with a comparator that may itself consume
    randomness.  The order it produces for an inconsistent comparator is left
    to the engine; all that is used of it is that the result is a
    rearrangement of the array. *)
Class ArraySort := {
  array_sort : ∀ {A : Type},
    (A → A → Rand → Z * Rand) → list A → Rand → list A * Rand;
  array_sort_perm : ∀ (A : Type) (cmp : A → A → Rand → Z * Rand) l r,
    (array_sort cmp l r).1 ≡ₚ l
}.

(** [for (var i = ...; ...; i++) body] over the index list [indices], in a
    state [S]; the body may raise. *)
Fixpoint forLoop {S : Type} (body : Z → S → option S) (indices : list Z) (s : S)
    : option S :=
  match indices with
  | [] => Some s
  | i :: rest => s' ← body i s; forLoop body rest s'
  end.

(** [array[i]] for a number [i]: [undefined] outside the array. *)
Definition at_index {A : Type} (l : list A) (i : Z) : option A :=
  if i <? 0 then None else l !! Z.to_nat i.

(** [m[z][x].field = v] for an array of arrays of objects: the object is
    changed in place; reading a field of [undefined] raises. *)
Definition update2 {A : Type} (z x : Z) (f : A → A) (m : list (list A))
    : option (list (list A)) :=
  row ← at_index m z;
  a ← at_index row x;
  Some (<[Z.to_nat z := <[Z.to_nat x := f a]> row]> m).

(** The engine's [vec3] and [quat], in exact arithmetic. *)
Record vec3 := mkVec3 { vec_x : Q; vec_y : Q; vec_z : Q }.

Record quat := mkQuat { quat_x : Q; quat_y : Q; quat_z : Q; quat_w : Q }.

Definition quat_identity : quat := mkQuat 0 0 0 1.



End Js.

Import Js.

(** ** MathHelpers.js *)

Record GridPos := mkPos { pos_x : Z; pos_z : Z }.

#[global] Instance GridPos_eq_dec : EqDecision GridPos.
Proof. solve_decision. Defined.

Module MathHelpers.

Definition gridToWorld (gridX gridZ : Z) (gridOrigin : vec3) (tileSize tileGap : Q)
    : vec3 :=
  let totalTileSize := (tileSize + tileGap)%Q in
  let halfTile := (tileSize / 2)%Q in
  let worldX := (vec_x gridOrigin + inject_Z gridX * totalTileSize + halfTile)%Q in
  let worldZ := (vec_z gridOrigin + inject_Z gridZ * totalTileSize + halfTile)%Q in
  let worldY := vec_y gridOrigin in
  mkVec3 worldX worldY worldZ.

Definition isValidGridPosition (gridX gridZ rows columns : Z) : bool :=
  (0 <=? gridX) && (gridX <? columns) && (0 <=? gridZ) && (gridZ <? rows).

(** Either argument may be [null]. *)
Definition isSameGridPosition (posA posB : option GridPos) : bool :=
  match posA, posB with
  | Some a, Some b => (pos_x a =? pos_x b) && (pos_z a =? pos_z b)
  | _, _ => false
  end.

Definition directions : list GridPos :=
  [mkPos 0 1; mkPos 0 (-1); mkPos (-1) 0; mkPos 1 0].

Definition getNeighbors (gridX gridZ rows columns : Z) : list GridPos :=
  foldl (λ neighbors d,
           let newX := gridX + pos_x d in
           let newZ := gridZ + pos_z d in
           if isValidGridPosition newX newZ rows columns
           then neighbors ++ [mkPos newX newZ]
           else neighbors)
        [] directions.

Definition randomInt (min max : Z) (r : Rand) : Z * Rand :=
  let '(k, r') := floorRandomTimes (max - min + 1) r in (k + min, r').

(** [temp = array[i]; array[i] = array[j]; array[j] = temp], both indices
    inside the array (the only way [shuffleArray] uses it). *)
Definition swap {A : Type} (i j : nat) (array : list A) : list A :=
  match array !! i, array !! j with
  | Some temp, Some aj => <[j := temp]> (<[i := aj]> array)
  | _, _ => array
  end.

Fixpoint shuffleFrom {A : Type} (i : nat) (array : list A) (r : Rand)
    : list A * Rand :=
  match i with
  | O => (array, r)
  | S i' =>
      let '(j, r') := randomInt 0 (Z.of_nat i) r in
      shuffleFrom i' (swap i (Z.to_nat j) array) r'
  end.

(** Fisher-Yates, [i] running from [length - 1] down to [1]. *)
Definition shuffleArray {A : Type} (array : list A) (r : Rand)
    : list A * Rand :=
  shuffleFrom (length array - 1) array r.

Definition isWithinTile (worldPos tileCenter : vec3) (radius : Q) : bool :=
  let dx := (vec_x worldPos - vec_x tileCenter)%Q in
  let dz := (vec_z worldPos - vec_z tileCenter)%Q in
  let distanceSquared := (dx * dx + dz * dz)%Q in
  Qle_bool distanceSquared (radius * radius).

Definition projectToFloor (cameraPos : vec3) (floorY : Q) : vec3 :=
  mkVec3 (vec_x cameraPos) floorY (vec_z cameraPos).

Definition clamp (value min max : Q) : Q := Qmin (Qmax value min) max.



End MathHelpers.

(** ** PathGenerator.js *)

Module PathGenerator.
Import MathHelpers.

Definition positionKey (x z : Z) : string := pretty x +:+ ","%string +:+ pretty z.

Definition keyOf (p : GridPos) : string := positionKey (pos_x p) (pos_z p).

(** Truthiness of [visited[key]]. *)
Definition isVisited (visited : gmap string bool) (key : string) : bool :=
  default false (visited !! key).

Definition countUnvisitedNeighbors (x z rows columns : Z)
    (visited : gmap string bool) : Z :=
  foldl (λ count n, if negb (isVisited visited (keyOf n)) then count + 1 else count)
        0 (getNeighbors x z rows columns).

Definition edgePositions (rows columns : Z) : list GridPos :=
  ((λ x, mkPos x 0) <$> seqZ 0 columns)
  ++ ((λ x, mkPos x (rows - 1)) <$> seqZ 0 columns)
  ++ ((λ z, mkPos 0 z) <$> seqZ 1 (rows - 2))
  ++ ((λ z, mkPos (columns - 1) z) <$> seqZ 1 (rows - 2)).

(** Returns [edges[index]], [undefined] when there is no such entry. *)
Definition getRandomEdgePosition (rows columns : Z) (r : Rand)
    : option GridPos * Rand :=
  let edges := edgePositions rows columns in
  let '(index, r') := randomInt 0 (Z.of_nat (length edges) - 1) r in
  (at_index edges index, r').

Section Generator.
Context `{ArraySort}.

(** The comparator of the Warnsdorff branch. *)
Definition warnsdorffCompare (rows columns : Z) (visited : gmap string bool)
    (a b : GridPos) (r : Rand) : Z * Rand :=
  let aExits := countUnvisitedNeighbors (pos_x a) (pos_z a) rows columns visited in
  let bExits := countUnvisitedNeighbors (pos_x b) (pos_z b) rows columns visited in
  if negb (aExits =? bExits) then (aExits - bExits, r)
  else randomMinusHalf r.

(** The [while] loop of [generatePathAttempt].  Every iteration increments
    [attempts], so the loop is run on [budget = maxAttempts - attempts]. *)
Fixpoint walk (budget : nat) (rows columns pathLength : Z)
    (path : list GridPos) (visited : gmap string bool) (r : Rand)
    : option (list GridPos * Rand) :=
  match budget with
  | O => Some (path, r)
  | S budget' =>
      if Z.of_nat (length path) <? pathLength then
        currentPos ← last path;
        let neighbors := getNeighbors (pos_x currentPos) (pos_z currentPos) rows columns in
        let validNeighbors :=
          filter (λ neighbor, negb (isVisited visited (keyOf neighbor)) = true) neighbors in
        if (length validNeighbors =? 0)%nat then
          if (1 <? length path)%nat then
            removed ← last path;
            walk budget' rows columns pathLength
                 (removelast path) (delete (keyOf removed) visited) r
          else
            let '(startPos, r') := getRandomEdgePosition rows columns r in
            startPos ← startPos;
            walk budget' rows columns pathLength
                 [mkPos (pos_x startPos) (pos_z startPos)]
                 (<[keyOf startPos := true]> ∅) r'
        else
          let useWarnsdorff := 23 <=? pathLength in
          let '(sorted, r') :=
            if useWarnsdorff
            then array_sort (warnsdorffCompare rows columns visited) validNeighbors r
            else shuffleArray validNeighbors r in
          nextPos ← head sorted;
          walk budget' rows columns pathLength
               (path ++ [mkPos (pos_x nextPos) (pos_z nextPos)])
               (<[keyOf nextPos := true]> visited) r'
      else Some (path, r)
  end.

Definition generatePathAttempt (rows columns pathLength : Z)
    (startPos : option GridPos) (r : Rand) : option (list GridPos * Rand) :=
  let '(startPos, r) :=
    match startPos with
    | Some s => (Some s, r)
    | None => getRandomEdgePosition rows columns r
    end in
  startPos ← startPos;
  walk (Z.to_nat (pathLength * 100)) rows columns pathLength
       [mkPos (pos_x startPos) (pos_z startPos)]
       (<[keyOf startPos := true]> ∅) r.

Definition MAX_RETRIES : nat := 10.

(** The retry loop of [generatePath], [retries] iterations still to go. *)
Fixpoint retryLoop (retries : nat) (rows columns pathLength : Z)
    (startPos : option GridPos) (bestPath : option (list GridPos)) (r : Rand)
    : option (list GridPos * Rand) :=
  match retries with
  | O => best ← bestPath; Some (best, r)
  | S retries' =>
      '(result, r') ← generatePathAttempt rows columns pathLength startPos r;
      if pathLength <=? Z.of_nat (length result) then Some (result, r')
      else
        let bestPath' :=
          match bestPath with
          | None => Some result
          | Some best =>
              if (length best <? length result)%nat then Some result else Some best
          end in
        retryLoop retries' rows columns pathLength startPos bestPath' r'
  end.

Definition generatePath (rows columns pathLength : Z)
    (startPos : option GridPos) (r : Rand) : option (list GridPos * Rand) :=
  let maxPossibleLength := rows * columns in
  let pathLength := Z.min pathLength maxPossibleLength in
  retryLoop MAX_RETRIES rows columns pathLength startPos None r.

Definition generatePathFromBottom (rows columns pathLength : Z) (r : Rand)
    : option (list GridPos * Rand) :=
  let startX := columns `div` 2 in
  let startZ := rows - 1 in
  let startPos := mkPos startX startZ in
  generatePath rows columns pathLength (Some startPos) r.

End Generator.

Fixpoint stepsValid (prev : GridPos) (rest : list GridPos) : bool :=
  match rest with
  | [] => true
  | curr :: rest' =>
      let dx := Z.abs (pos_x curr - pos_x prev) in
      let dz := Z.abs (pos_z curr - pos_z prev) in
      if negb (((dx =? 1) && (dz =? 0)) || ((dx =? 0) && (dz =? 1)))
      then false
      else stepsValid curr rest'
  end.

Definition isValidPath (path : list GridPos) : bool :=
  match path with
  | [] => true
  | prev :: rest => stepsValid prev rest
  end.

Definition getDirection (from to : GridPos) : string :=
  let dx := pos_x to - pos_x from in
  let dz := pos_z to - pos_z from in
  if 0 <? dz then "up"
  else if dz <? 0 then "down"
  else if 0 <? dx then "right"
  else if dx <? 0 then "left"
  else "none".

(** The loop of [pathToDirections], [prev] being [path[i - 1]]. *)
Fixpoint directionsFrom (prev : GridPos) (rest : list GridPos) : list string :=
  match rest with
  | [] => []
  | curr :: rest' => getDirection prev curr :: directionsFrom curr rest'
  end.

Definition pathToDirections (path : list GridPos) : list string :=
  match path with
  | [] => []
  | prev :: rest => directionsFrom prev rest
  end.

End PathGenerator.

(** ** Constants.js *)

Module Constants.

Record DebugConfigT := { ENABLED : bool; SKIP_PATH_CHECK : bool }.

Definition DebugConfig : DebugConfigT :=
  {| ENABLED := false; SKIP_PATH_CHECK := false |}.

Module GridConfig.
Definition DEFAULT_ROWS : Z := 5.
Definition DEFAULT_COLUMNS : Z := 5.
Definition TILE_SIZE : Q := 50.
Definition TILE_GAP : Q := 5.
End GridConfig.

Module LevelConfig.
Definition GRID_ROWS : Z := 5.
Definition GRID_COLUMNS : Z := 5.
Definition BASE_PATH_LENGTH : Z := 5.
Definition PATH_INCREMENT : Z := 2.
Definition MAX_PATH_LENGTH : Z := 25.
Definition MEMORIZE_TIME : Z := 5.
End LevelConfig.

Module PlayerConfig.
Definition START_ZONE_OFFSET : Q := 80.
End PlayerConfig.

Module Directions.
Definition UP : GridPos := mkPos 0 1.
Definition DOWN : GridPos := mkPos 0 (-1).
Definition LEFT : GridPos := mkPos (-1) 0.
Definition RIGHT : GridPos := mkPos 1 0.
End Directions.

End Constants.

(** ** TileTrigger.js *)

Module TileTrigger.




(** The script's variables: its inputs [gridX], [gridZ], [direction], the
    latch, and whether a callback has been installed. *)
Record Trigger := {
  gridX : Z;
  gridZ : Z;
  direction : string;
  hasTriggered : bool;
  onTriggerCallback : bool
}.

(** The argument of the callback. *)
Record TriggerData := { data_x : Z; data_z : Z; data_direction : string }.

Definition initial : Trigger :=
  {| gridX := 0; gridZ := 0; direction := "forward";
     hasTriggered := false; onTriggerCallback := false |}.

Definition setup (x z : Z) (dir : string) (callback : bool) (t : Trigger) : Trigger :=
  {| gridX := x; gridZ := z; direction := dir;
     hasTriggered := false; onTriggerCallback := callback |}.

Definition resetTrigger (t : Trigger) : Trigger :=
  {| gridX := gridX t; gridZ := gridZ t; direction := direction t;
     hasTriggered := false; onTriggerCallback := onTriggerCallback t |}.





End TileTrigger.

(** ** GridManager.js *)

Module GridManager.
Import MathHelpers.

Inductive TileState :=
  st_default | st_path | st_correct | st_wrong | st_start | st_end.

Record TileData := {
  gridX : Z;
  gridZ : Z;
  worldPosition : vec3;
  state : TileState;
  isPathTile : bool;
  pathIndex : Z
}.

(** The entries of [Constants.GridConfig.COLORS]. *)
Inductive TileColor :=
  TILE_DEFAULT | TILE_PATH | TILE_CORRECT | TILE_WRONG | TILE_START | TILE_END.

(** A tile's scene object: where it sits under the grid parent, the base
    colour of its mesh ([None]: no mesh visual) and its Arrow child ([None]:
    the prefab has none; otherwise whether it is enabled).  Opacity and scale
    are not modelled. *)
Record TileObject := {
  localPosition : vec3;
  baseColor : option TileColor;
  arrow : option bool
}.

Record TriggerObject := { triggerScript : option TileTrigger.Trigger }.

Record TilePrefab := { prefabMesh : bool; prefabArrow : bool }.

Record TriggerPrefab := { prefabScript : bool }.

Record Transform := { worldPositionOf : vec3; worldRotationOf : quat }.

Record Inputs := {
  gridParent : option Transform;
  tilePrefab : option TilePrefab;
  triggerPrefab : option TriggerPrefab
}.

Record GridConfig := {
  rows : Z;
  columns : Z;
  tileSize : Q;
  tileGap : Q;
  origin : option vec3;
  tiles : list (list TileData);
  tileObjects : list (list (option TileObject));
  triggerObjects : list (list (option TriggerObject))
}.

Record PathData := { path : list GridPos; isRevealed : bool }.

Record State := {
  script : Inputs;
  gridConfig : GridConfig;
  onTriggerEnteredCallback : bool;
  pathData : PathData;
  isInitialized : bool
}.

Definition initial (inputs : Inputs) : State :=
  {| script := inputs;
     gridConfig :=
       {| rows := Constants.GridConfig.DEFAULT_ROWS;
          columns := Constants.GridConfig.DEFAULT_COLUMNS;
          tileSize := Constants.GridConfig.TILE_SIZE;
          tileGap := Constants.GridConfig.TILE_GAP;
          origin := None;
          tiles := []; tileObjects := []; triggerObjects := [] |};
     onTriggerEnteredCallback := false;
     pathData := {| path := []; isRevealed := false |};
     isInitialized := false |}.

(** Assignments to the arrays of [gridConfig] and to [pathData]. *)
Definition setArrays (tiles' : list (list TileData))
    (tileObjects' : list (list (option TileObject)))
    (triggerObjects' : list (list (option TriggerObject))) (g : State) : State :=
  let c := gridConfig g in
  {| script := script g;
     gridConfig :=
       {| rows := rows c; columns := columns c;
          tileSize := tileSize c; tileGap := tileGap c; origin := origin c;
          tiles := tiles'; tileObjects := tileObjects';
          triggerObjects := triggerObjects' |};
     onTriggerEnteredCallback := onTriggerEnteredCallback g;
     pathData := pathData g;
     isInitialized := isInitialized g |}.

Definition setTiles (tiles' : list (list TileData)) (g : State) : State :=
  setArrays tiles' (tileObjects (gridConfig g)) (triggerObjects (gridConfig g)) g.

Definition setTileObjects (tileObjects' : list (list (option TileObject)))
    (g : State) : State :=
  setArrays (tiles (gridConfig g)) tileObjects' (triggerObjects (gridConfig g)) g.

Definition setTriggerObjects (triggerObjects' : list (list (option TriggerObject)))
    (g : State) : State :=
  setArrays (tiles (gridConfig g)) (tileObjects (gridConfig g)) triggerObjects' g.

Definition setPathData (pathData' : PathData) (g : State) : State :=
  {| script := script g; gridConfig := gridConfig g;
     onTriggerEnteredCallback := onTriggerEnteredCallback g;
     pathData := pathData';
     isInitialized := isInitialized g |}.

(** Field assignments on one tile. *)
Definition setState (st : TileState) (t : TileData) : TileData :=
  {| gridX := gridX t; gridZ := gridZ t; worldPosition := worldPosition t;
     state := st; isPathTile := isPathTile t; pathIndex := pathIndex t |}.

Definition markPathTile (i : Z) (st : TileState) (t : TileData) : TileData :=
  {| gridX := gridX t; gridZ := gridZ t; worldPosition := worldPosition t;
     state := st; isPathTile := true; pathIndex := i |}.

Definition resetTile (t : TileData) : TileData :=
  {| gridX := gridX t; gridZ := gridZ t; worldPosition := worldPosition t;
     state := st_default; isPathTile := false; pathIndex := -1 |}.

(** [setTileColor(tileObject, color)]: nothing happens for a missing tile
    object or a tile without a mesh. *)
Definition setTileColor (tileObject : option TileObject) (color : TileColor)
    : option TileObject :=
  match tileObject with
  | None => None
  | Some o =>
      Some {| localPosition := localPosition o;
              baseColor := match baseColor o with
                           | Some _ => Some color
                           | None => None
                           end;
              arrow := arrow o |}
  end.

Definition hideArrow (tileObject : option TileObject) : option TileObject :=
  match tileObject with
  | None => None
  | Some o =>
      Some {| localPosition := localPosition o;
              baseColor := baseColor o;
              arrow := match arrow o with
                       | Some _ => Some false
                       | None => None
                       end |}
  end.

(** The loops of [hideAllArrows] run over the arrays' own lengths. *)
Definition hideAllArrows (g : State) : State :=
  setTileObjects (map (map hideArrow) (tileObjects (gridConfig g))) g.

Definition createTileObject (g : State) (tileData : TileData) : option TileObject :=
  match tilePrefab (script g) with
  | None => None
  | Some prefab =>
      let c := gridConfig g in
      let totalTileSize := (tileSize c + tileGap c)%Q in
      let halfTile := (tileSize c / 2)%Q in
      let gridWidth := (inject_Z (columns c) * totalTileSize - tileGap c)%Q in
      let offsetX := (- gridWidth / 2)%Q in
      let startGridZ := rows c - 1 in
      let localX := (inject_Z (gridX tileData) * totalTileSize + halfTile + offsetX)%Q in
      let localY := 0%Q in
      let localZ := (halfTile + inject_Z (gridZ tileData - startGridZ) * totalTileSize)%Q in
      Some {| localPosition := mkVec3 localX localY localZ;
              baseColor := if prefabMesh prefab then Some TILE_DEFAULT else None;
              arrow := if prefabArrow prefab then Some false else None |}
  end.

Definition createTriggerPlane (g : State) (tileData : TileData) : option TriggerObject :=
  match triggerPrefab (script g) with
  | None => None
  | Some prefab =>
      Some {| triggerScript :=
                if prefabScript prefab
                then Some (TileTrigger.setup (gridX tileData) (gridZ tileData)
                             "center" true TileTrigger.initial)
                else None |}
  end.

(** The grid positions of a [rows × columns] array, row by row. *)
Definition cells {A : Type} (rows columns : Z) (cell : Z → Z → A) : list (list A) :=
  (λ z, (λ x, cell x z) <$> seqZ 0 columns) <$> seqZ 0 rows.

(** [createGrid] reads [gridConfig.origin] once per cell (in [gridToWorld]):
    with cells to create and no origin, the read raises. *)
Definition createGrid (g : State) : option State :=
  let c := gridConfig g in
  let tileData o x z :=
    {| gridX := x; gridZ := z;
       worldPosition := gridToWorld x z o (tileSize c) (tileGap c);
       state := st_default; isPathTile := false; pathIndex := -1 |} in
  o ← (if (0 <? rows c) && (0 <? columns c) then origin c else Some (mkVec3 0 0 0));
  Some (setArrays
          (cells (rows c) (columns c) (tileData o))
          (cells (rows c) (columns c) (λ x z, createTileObject g (tileData o x z)))
          (cells (rows c) (columns c) (λ x z, createTriggerPlane g (tileData o x z)))
          g).

Definition clearGrid (g : State) : State :=
  setPathData {| path := []; isRevealed := isRevealed (pathData g) |}
    (setArrays [] [] [] (hideAllArrows g)).

(** [rows || DEFAULT_ROWS]: a missing or zero argument selects the default. *)
Definition orDefault (n : option Z) (d : Z) : Z :=
  match n with
  | Some v => if v =? 0 then d else v
  | None => d
  end.

Definition initialize (originPosition : vec3) (rows' columns' : option Z) (g : State)
    : option State :=
  let c := gridConfig g in
  let g1 :=
    {| script := script g;
       gridConfig :=
         {| rows := orDefault rows' Constants.GridConfig.DEFAULT_ROWS;
            columns := orDefault columns' Constants.GridConfig.DEFAULT_COLUMNS;
            tileSize := tileSize c; tileGap := tileGap c;
            origin := Some originPosition;
            tiles := tiles c; tileObjects := tileObjects c;
            triggerObjects := triggerObjects c |};
       onTriggerEnteredCallback := onTriggerEnteredCallback g;
       pathData := pathData g;
       isInitialized := isInitialized g |} in
  g2 ← createGrid (clearGrid g1);
  Some {| script := script g2; gridConfig := gridConfig g2;
          onTriggerEnteredCallback := onTriggerEnteredCallback g2;
          pathData := pathData g2;
          isInitialized := true |}.

Definition isValidTilePosition (g : State) (gridX gridZ : Z) : bool :=
  isValidGridPosition gridX gridZ (rows (gridConfig g)) (columns (gridConfig g)).

Definition getTileAt (g : State) (gridX gridZ : Z) : option TileData :=
  if negb (isValidTilePosition g gridX gridZ) then None
  else row ← at_index (tiles (gridConfig g)) gridZ; at_index row gridX.

Definition getPath (g : State) : list GridPos := path (pathData g).

(** [var tileObject = tileObjects[gridZ][gridX]; tiles[gridZ][gridX].state = st;
     setTileColor(tileObject, color)] *)
Definition markTile (st : TileState) (color : TileColor) (g : State) (gridX gridZ : Z)
    : option State :=
  if negb (isValidTilePosition g gridX gridZ) then Some g
  else
    let c := gridConfig g in
    objectRow ← at_index (tileObjects c) gridZ;
    tiles' ← update2 gridZ gridX (setState st) (tiles c);
    let tileObjects' :=
      match at_index objectRow gridX with
      | Some tileObject =>
          <[Z.to_nat gridZ := <[Z.to_nat gridX := setTileColor tileObject color]> objectRow]>
            (tileObjects c)
      | None => tileObjects c
      end in
    Some (setArrays tiles' tileObjects' (triggerObjects c) g).

Definition markTileCorrect : State → Z → Z → option State :=
  markTile st_correct TILE_CORRECT.

Definition markTileWrong : State → Z → Z → option State :=
  markTile st_wrong TILE_WRONG.

(** One iteration of the inner loop of [resetTileStates]. *)
Definition resetCell (z x : Z) (g : State) : option State :=
  let c := gridConfig g in
  tiles' ← update2 z x resetTile (tiles c);
  objectRow ← at_index (tileObjects c) z;
  let tileObjects' :=
    match at_index objectRow x with
    | Some tileObject =>
        <[Z.to_nat z := <[Z.to_nat x := setTileColor tileObject TILE_DEFAULT]> objectRow]>
          (tileObjects c)
    | None => tileObjects c
    end in
  Some (setArrays tiles' tileObjects' (triggerObjects c) g).

Definition resetTileStates (g : State) : option State :=
  let g1 := hideAllArrows g in
  g2 ← forLoop (λ z, forLoop (resetCell z) (seqZ 0 (columns (gridConfig g1))))
               (seqZ 0 (rows (gridConfig g1))) g1;
  Some (setPathData {| path := []; isRevealed := false |} g2).

(** One iteration of the marking loop of [generateNewPath]. *)
Definition markPathCell (thePath : list GridPos) (i : Z) (g : State) : option State :=
  pos ← at_index thePath i;
  let st := if i =? 0 then st_start
            else if i =? Z.of_nat (length thePath) - 1 then st_end
            else st_path in
  tiles' ← update2 (pos_z pos) (pos_x pos) (markPathTile i st) (tiles (gridConfig g));
  Some (setTiles tiles' g).

Definition generateNewPath `{ArraySort} (pathLength : Z) (g : State) (r : Rand)
    : option (list GridPos * State * Rand) :=
  let c := gridConfig g in
  '(thePath, r') ← PathGenerator.generatePathFromBottom (rows c) (columns c) pathLength r;
  let g1 := setPathData {| path := thePath; isRevealed := isRevealed (pathData g) |} g in
  g2 ← forLoop (markPathCell thePath) (seqZ 0 (Z.of_nat (length thePath))) g1;
  Some (thePath, g2, r').


Definition onTriggerEntered (g : State) : State :=
  {| script := script g; gridConfig := gridConfig g;
     onTriggerEnteredCallback := true;
     pathData := pathData g;
     isInitialized := isInitialized g |}.

(** [handleTriggerEntered(data)]: the coordinates handed on to the registered
    listener, if there is one. *)
Definition handleTriggerEntered (g : State) (data : TileTrigger.TriggerData)
    : option (Z * Z) :=
  if onTriggerEnteredCallback g
  then Some (TileTrigger.data_x data, TileTrigger.data_z data)
  else None.

Definition resetTriggerObject (triggerObject : option TriggerObject)
    : option TriggerObject :=
  match triggerObject with
  | None => None
  | Some o => Some {| triggerScript := TileTrigger.resetTrigger <$> triggerScript o |}
  end.

Definition resetTriggers (g : State) : State :=
  setTriggerObjects (map (map resetTriggerObject) (triggerObjects (gridConfig g))) g.

End GridManager.

(** ** PlayerTracker.js *)

Module PlayerTracker.
Import MathHelpers.

Record TrackingState := {
  isTracking : bool;
  pathProgress : nat;
  stepsOnPath : list GridPos;
  currentTile : option GridPos
}.

(** Which callbacks have been registered. *)
Record Callbacks := {
  onTileEntered : bool;
  onTileExited : bool;
  onCorrectStep : bool;
  onWrongStep : bool;
  onPathCompleted : bool
}.

(** A call of a registered callback, with its arguments. *)
Inductive Event :=
  | TileExited (previousTile : GridPos)
  | TileEntered (gridPos : GridPos)
  | CorrectStep (gridPos : GridPos) (progress total : nat)
  | WrongStep (gridPos expectedPos : GridPos)
  | PathCompleted (steps : list GridPos).

(** The tracker, the grid manager it holds a reference to, the debug
    configuration it was built with, and the calls it has made to its
    listeners so far (oldest first).  What a listener does in reaction is
    not part of the tracker. *)
Record World := {
  trackingState : TrackingState;
  callbacks : Callbacks;
  gridManager : option GridManager.State;
  debugConfig : Constants.DebugConfigT;
  emitted : list Event
}.

Definition setTracking (t : TrackingState) (w : World) : World :=
  {| trackingState := t; callbacks := callbacks w; gridManager := gridManager w;
     debugConfig := debugConfig w; emitted := emitted w |}.

Definition setGrid (g : GridManager.State) (w : World) : World :=
  {| trackingState := trackingState w; callbacks := callbacks w;
     gridManager := Some g; debugConfig := debugConfig w; emitted := emitted w |}.

(** [if (callbacks.f) callbacks.f(args)] *)
Definition emit (registered : bool) (e : Event) (w : World) : World :=
  if registered
  then {| trackingState := trackingState w; callbacks := callbacks w;
          gridManager := gridManager w; debugConfig := debugConfig w;
          emitted := emitted w ++ [e] |}
  else w.

Definition validateStep (gridPos : GridPos) (w : World) : option World :=
  match gridManager w with
  | None => Some w
  | Some g =>
      let path := GridManager.getPath g in
      if (length path =? 0)%nat then Some w
      else
        let t := trackingState w in
        if Constants.SKIP_PATH_CHECK (debugConfig w) then
          let endPos := last path in
          g' ← GridManager.markTileCorrect g (pos_x gridPos) (pos_z gridPos);
          let steps := stepsOnPath t ++ [gridPos] in
          if isSameGridPosition (Some gridPos) endPos then
            let t' := {| isTracking := isTracking t; pathProgress := length path;
                         stepsOnPath := steps; currentTile := currentTile t |} in
            Some (emit (onPathCompleted (callbacks w)) (PathCompleted steps)
                   (emit (onCorrectStep (callbacks w))
                         (CorrectStep gridPos (length path) (length path))
                      (setTracking t' (setGrid g' w))))
          else
            let t' := {| isTracking := isTracking t; pathProgress := S (pathProgress t);
                         stepsOnPath := steps; currentTile := currentTile t |} in
            Some (emit (onCorrectStep (callbacks w))
                       (CorrectStep gridPos (S (pathProgress t)) (length path))
                    (setTracking t' (setGrid g' w)))
        else
          let expectedPos := path !! pathProgress t in
          if isSameGridPosition (Some gridPos) expectedPos then
            let steps := stepsOnPath t ++ [gridPos] in
            let progress := S (pathProgress t) in
            let t' := {| isTracking := isTracking t; pathProgress := progress;
                         stepsOnPath := steps; currentTile := currentTile t |} in
            g' ← GridManager.markTileCorrect g (pos_x gridPos) (pos_z gridPos);
            let w1 := emit (onCorrectStep (callbacks w))
                           (CorrectStep gridPos progress (length path))
                           (setTracking t' (setGrid g' w)) in
            if (length path <=? progress)%nat
            then Some (emit (onPathCompleted (callbacks w)) (PathCompleted steps) w1)
            else Some w1
          else
            g' ← GridManager.markTileWrong g (pos_x gridPos) (pos_z gridPos);
            (* the argument of debugLog reads expectedPos.x *)
            expected ← expectedPos;
            Some (emit (onWrongStep (callbacks w)) (WrongStep gridPos expected)
                    (setGrid g' w))
  end.

Definition handleTriggerEntered (gridX gridZ : Z) (w : World) : option World :=
  let t := trackingState w in
  if negb (isTracking t) then Some w
  else
    let newGridPos := mkPos gridX gridZ in
    if isSameGridPosition (Some newGridPos) (currentTile t) then Some w
    else
      let previousTile := currentTile t in
      let t' := {| isTracking := isTracking t; pathProgress := pathProgress t;
                   stepsOnPath := stepsOnPath t; currentTile := Some newGridPos |} in
      let w1 := setTracking t' w in
      let w2 := match previousTile with
                | Some p => emit (onTileExited (callbacks w)) (TileExited p) w1
                | None => w1
                end in
      let w3 := emit (onTileEntered (callbacks w)) (TileEntered newGridPos) w2 in
      validateStep newGridPos w3.

Definition startTracking (w : World) : World :=
  let t' := {| isTracking := true; pathProgress := 0; stepsOnPath := [];
               currentTile := None |} in
  let w1 := setTracking t' w in
  match gridManager w1 with
  | Some g => setGrid (GridManager.resetTriggers g) w1
  | None => w1
  end.

Definition stopTracking (w : World) : World :=
  let t := trackingState w in
  setTracking {| isTracking := false; pathProgress := pathProgress t;
                 stepsOnPath := stepsOnPath t; currentTile := currentTile t |} w.

Definition reset (w : World) : World :=
  let t := trackingState w in
  let w1 := setTracking {| isTracking := isTracking t; pathProgress := 0;
                           stepsOnPath := []; currentTile := None |} w in
  match gridManager w1 with
  | Some g => setGrid (GridManager.resetTriggers g) w1
  | None => w1
  end.

(** A sequence of tile entries delivered one after the other; an exception
    ends the sequence. *)
Fixpoint enterTiles (entries : list GridPos) (w : World) : option World :=
  match entries with
  | [] => Some w
  | p :: entries' =>
      w' ← handleTriggerEntered (pos_x p) (pos_z p) w; enterTiles entries' w'
  end.

(** The step events among the calls made. *)
Definition isCorrectStep (e : Event) : bool :=
  match e with CorrectStep _ _ _ => true | _ => false end.

Definition isWrongStep (e : Event) : bool :=
  match e with WrongStep _ _ => true | _ => false end.

Definition isPathCompleted (e : Event) : bool :=
  match e with PathCompleted _ => true | _ => false end.

Definition isStepEvent (e : Event) : bool :=
  isCorrectStep e || isWrongStep e || isPathCompleted e.

End PlayerTracker.

(** ** SaveManager.js *)

Module SaveManager.

Record SaveData := {
  currentLevel : Z;
  highestLevel : Z;
  totalRetries : Z
}.

(** The in-memory save data, [null] until loaded. *)
Record State := { saveData : option SaveData }.

Definition getCurrentLevel (s : State) : Z :=
  match saveData s with
  | Some d => currentLevel d
  | None => 1
  end.

End SaveManager.

(** ** SaveManager.js, the whole script

    [SaveManager] above is what [GameStateManager.setupLevel] reads of the
    save data; this module has the script with all its data and its
    persistent storage. *)

Module SaveSystem.

(** The object [retriesPerLevel].  Its keys are the strings
    [level.toString()]; a key is kept as the integer it spells, and the list
    holds the own properties in the order in which [for-in] and
    [JSON.stringify] visit them: the array-index keys ([0 .. 2^32 - 2]) in
    ascending order first, then the other keys in the order of their
    creation. *)
Definition Obj := list (Z * Z).

Definition isArrayIndex (k : Z) : bool := (0 <=? k) && (k <? 4294967295).

(** [o[k]], [undefined] for a missing key. *)
Fixpoint objGet (o : Obj) (k : Z) : option Z :=
  match o with
  | [] => None
  | (k', v) :: o' => if k' =? k then Some v else objGet o' k
  end.

(** [o[k] = v] for a key the object has: the property keeps its place. *)
Fixpoint objReplace (k v : Z) (o : Obj) : Obj :=
  match o with
  | [] => []
  | (k', v') :: o' => if k' =? k then (k, v) :: o' else (k', v') :: objReplace k v o'
  end.

(** [o[k] = v] for a new key: an array index goes to its place among the
    array indices, another key to the end. *)
Fixpoint objInsert (k v : Z) (o : Obj) : Obj :=
  match o with
  | [] => [(k, v)]
  | (k', v') :: o' =>
      if isArrayIndex k && (negb (isArrayIndex k') || (k <? k'))
      then (k, v) :: (k', v') :: o'
      else (k', v') :: objInsert k v o'
  end.

Definition objSet (k v : Z) (o : Obj) : Obj :=
  match objGet o k with
  | Some _ => objReplace k v o
  | None => objInsert k v o
  end.

Record SaveData := {
  version : Z;
  currentLevel : Z;
  highestLevel : Z;
  totalRetries : Z;
  retriesPerLevel : Obj;
  levelsCompletedFirstTry : list Z;
  achievements : list string
}.

Definition defaultSaveData : SaveData :=
  {| version := 1; currentLevel := 1; highestLevel := 1; totalRetries := 0;
     retriesPerLevel := []; levelsCompletedFirstTry := []; achievements := [] |}.

(** [global.persistentStorageSystem]: what its store holds under [SAVE_KEY]
    (nothing, a string that [JSON.parse] rejects, or the JSON text of save
    data, kept as the value it parses to) and whether writing to the store
    raises. *)
Inductive Stored := NoEntry | Unreadable | Saved (d : SaveData).

Record Storage := { stored : Stored; writeRaises : bool }.

(** A subscriber of [onAchievementsUnlocked]: the function it is, and whether
    calling it raises. *)
Record Listener := { listenerId : nat; listenerRaises : bool }.

#[global] Instance Listener_eq_dec : EqDecision Listener.
Proof. solve_decision. Defined.

(** A call made by [emitAchievementsUnlocked]: of a subscriber, or of
    [global.PathFinder.AchievementNotification.enqueue]. *)
Inductive Event :=
  | Delivered (listener : nat) (achievementIds : list string)
  | Enqueued (achievementIds : list string).

(** The script's variables, whether the notification script is loaded, and
    the calls made so far (oldest first). *)
Record World := {
  storage : option Storage;
  saveData : option SaveData;
  achievementUnlockedListeners : list Listener;
  achievementNotification : bool;
  emitted : list Event
}.

Definition setStorage (st : option Storage) (w : World) : World :=
  {| storage := st; saveData := saveData w;
     achievementUnlockedListeners := achievementUnlockedListeners w;
     achievementNotification := achievementNotification w; emitted := emitted w |}.

Definition setSaveData (d : option SaveData) (w : World) : World :=
  {| storage := storage w; saveData := d;
     achievementUnlockedListeners := achievementUnlockedListeners w;
     achievementNotification := achievementNotification w; emitted := emitted w |}.

Definition setListeners (ls : list Listener) (w : World) : World :=
  {| storage := storage w; saveData := saveData w;
     achievementUnlockedListeners := ls;
     achievementNotification := achievementNotification w; emitted := emitted w |}.

Definition emit (e : Event) (w : World) : World :=
  {| storage := storage w; saveData := saveData w;
     achievementUnlockedListeners := achievementUnlockedListeners w;
     achievementNotification := achievementNotification w;
     emitted := emitted w ++ [e] |}.

(** Field assignments on the save data. *)
Definition setCurrentLevel (v : Z) (d : SaveData) : SaveData :=
  {| version := version d; currentLevel := v; highestLevel := highestLevel d;
     totalRetries := totalRetries d; retriesPerLevel := retriesPerLevel d;
     levelsCompletedFirstTry := levelsCompletedFirstTry d;
     achievements := achievements d |}.

Definition setHighestLevel (v : Z) (d : SaveData) : SaveData :=
  {| version := version d; currentLevel := currentLevel d; highestLevel := v;
     totalRetries := totalRetries d; retriesPerLevel := retriesPerLevel d;
     levelsCompletedFirstTry := levelsCompletedFirstTry d;
     achievements := achievements d |}.

Definition setTotalRetries (v : Z) (d : SaveData) : SaveData :=
  {| version := version d; currentLevel := currentLevel d;
     highestLevel := highestLevel d;
     totalRetries := v; retriesPerLevel := retriesPerLevel d;
     levelsCompletedFirstTry := levelsCompletedFirstTry d;
     achievements := achievements d |}.

Definition setRetriesPerLevel (o : Obj) (d : SaveData) : SaveData :=
  {| version := version d; currentLevel := currentLevel d;
     highestLevel := highestLevel d;
     totalRetries := totalRetries d; retriesPerLevel := o;
     levelsCompletedFirstTry := levelsCompletedFirstTry d;
     achievements := achievements d |}.

Definition setLevelsCompletedFirstTry (l : list Z) (d : SaveData) : SaveData :=
  {| version := version d; currentLevel := currentLevel d;
     highestLevel := highestLevel d;
     totalRetries := totalRetries d; retriesPerLevel := retriesPerLevel d;
     levelsCompletedFirstTry := l;
     achievements := achievements d |}.

Definition setAchievements (l : list string) (d : SaveData) : SaveData :=
  {| version := version d; currentLevel := currentLevel d;
     highestLevel := highestLevel d;
     totalRetries := totalRetries d; retriesPerLevel := retriesPerLevel d;
     levelsCompletedFirstTry := levelsCompletedFirstTry d;
     achievements := l |}.

(** [onAchievementsUnlocked(callback)]; [None] is an argument that is not a
    function. *)
Definition onAchievementsUnlocked (callback : option Listener) (w : World) : World :=
  match callback with
  | None => w
  | Some l =>
      if bool_decide (l ∈ achievementUnlockedListeners w) then w
      else setListeners (achievementUnlockedListeners w ++ [l]) w
  end.

(** The loop of [emitAchievementsUnlocked], [i] indices still to visit (the
    next one is [i - 1]); a subscriber that raises is spliced out. *)
Fixpoint callListeners (i : nat) (achievementIds : list string) (w : World) : World :=
  match i with
  | O => w
  | S j =>
      match achievementUnlockedListeners w !! j with
      | Some l =>
          if listenerRaises l
          then callListeners j achievementIds
                 (setListeners (delete j (achievementUnlockedListeners w)) w)
          else callListeners j achievementIds
                 (emit (Delivered (listenerId l) achievementIds) w)
      | None => callListeners j achievementIds w
      end
  end.

Definition emitAchievementsUnlocked (achievementIds : list string) (w : World) : World :=
  if (length achievementIds =? 0)%nat then w
  else
    let w1 := callListeners (length (achievementUnlockedListeners w)) achievementIds w in
    if achievementNotification w1 then emit (Enqueued achievementIds) w1 else w1.

Definition loadFromStorage (w : World) : World :=
  match storage w with
  | None => setSaveData (Some defaultSaveData) w
  | Some st =>
      match stored st with
      | Saved d => setSaveData (Some d) w
      | NoEntry => setSaveData (Some defaultSaveData) w
      | Unreadable => setSaveData (Some defaultSaveData) w
      end
  end.

(** [init()], run on the start event, given the value of
    [global.persistentStorageSystem]. *)
Definition init (persistentStorageSystem : option Storage) (w : World) : World :=
  let w1 := setStorage persistentStorageSystem w in
  match storage w1 with
  | Some _ => loadFromStorage w1
  | None => w1
  end.

Definition saveToStorage (w : World) : bool * World :=
  match storage w, saveData w with
  | Some st, Some d =>
      if writeRaises st then (false, w)
      else (true, setStorage (Some {| stored := Saved d; writeRaises := writeRaises st |}) w)
  | _, _ => (false, w)
  end.

(** Truthiness of [saveData && saveData.currentLevel > 1]. *)
Definition hasSavedGame (w : World) : bool :=
  match saveData w with
  | Some d => 1 <? currentLevel d
  | None => false
  end.

Definition getCurrentLevel (w : World) : Z :=
  match saveData w with
  | Some d => currentLevel d
  | None => 1
  end.

Definition getHighestLevel (w : World) : Z :=
  match saveData w with
  | Some d => highestLevel d
  | None => 1
  end.

Definition getRetriesForLevel (level : Z) (w : World) : Z :=
  match saveData w with
  | None => 0
  | Some d => default 0 (objGet (retriesPerLevel d) level)
  end.

Definition getTotalRetries (w : World) : Z :=
  match saveData w with
  | Some d => totalRetries d
  | None => 0
  end.

Definition levelCompletedFirstTry (d : SaveData) (level : Z) : bool :=
  bool_decide (level ∈ levelsCompletedFirstTry d).


Definition hasAchievement (achievementId : string) (w : World) : bool :=
  match saveData w with
  | None => false
  | Some d => bool_decide (achievementId ∈ achievements d)
  end.

Definition getUnlockedAchievements (w : World) : list string :=
  match saveData w with
  | Some d => achievements d
  | None => []
  end.

(** [unlockAchievement(achievementId, newList)] on save data that is there;
    the pair is the save data and [newList]. *)
Definition unlockAchievement (achievementId : string) (st : SaveData * list string)
    : SaveData * list string :=
  let '(d, newList) := st in
  if bool_decide (achievementId ∈ achievements d) then st
  else (setAchievements (achievements d ++ [achievementId]) d, newList ++ [achievementId]).

(** [if (condition) unlockAchievement(achievementId, newAchievements)] *)
Definition unlockIf (condition : bool) (achievementId : string)
    (st : SaveData * list string) : SaveData * list string :=
  if condition then unlockAchievement achievementId st else st.

(** The body of the [for-in] loop over [retriesPerLevel]. *)
Definition persistenceBadges (highest : Z) (st : SaveData * list string)
    (entry : Z * Z) : SaveData * list string :=
  let '(level, retries) := entry in
  let st := unlockIf ((retries =? 1) && (level <? highest)) "quick_learner" st in
  unlockIf ((3 <=? retries) && (level <? highest)) "comeback_kid" st.

Definition checkAchievements (w : World) : World :=
  match saveData w with
  | None => w
  | Some d =>
      let st := (d, []) in
      let st := unlockIf (1 <? highestLevel d) "first_steps" st in
      let st := unlockIf (3 <? highestLevel d) "getting_warmer" st in
      let st := unlockIf (5 <? highestLevel d) "memory_walker" st in
      let st := unlockIf (8 <? highestLevel d) "grid_expert" st in
      let st := unlockIf (11 <? highestLevel d) "grid_master" st in
      let st := unlockIf (levelCompletedFirstTry d 1) "clean_start" st in
      let flawlessFive := forallb (levelCompletedFirstTry d) (seqZ 1 5) in
      let st := unlockIf (flawlessFive && (5 <? highestLevel d)) "flawless_five" st in
      let noMistakes := forallb (levelCompletedFirstTry d) (seqZ 1 11) in
      let st := unlockIf (noMistakes && (11 <? highestLevel d)) "no_mistakes" st in
      let st := unlockIf (existsb (levelCompletedFirstTry d) (seqZ 6 6)) "deep_focus" st in
      let st := foldl (persistenceBadges (highestLevel d)) st (retriesPerLevel d) in
      let st := unlockIf ((11 <? highestLevel d) && (5 <=? totalRetries d))
                         "never_give_up" st in
      let '(d', newAchievements) := st in
      let w1 := setSaveData (Some d') w in
      if (0 <? length newAchievements)%nat
      then emitAchievementsUnlocked newAchievements w1
      else w1
  end.

Definition onLevelCompleted (level : Z) (firstTry : bool) (w : World) : World :=
  match saveData w with
  | None => w
  | Some d =>
      let d :=
        if firstTry && negb (levelCompletedFirstTry d level)
        then setLevelsCompletedFirstTry (levelsCompletedFirstTry d ++ [level]) d
        else d in
      let d := setCurrentLevel (level + 1) d in
      let d :=
        if highestLevel d <? currentLevel d
        then setHighestLevel (currentLevel d) d
        else d in
      let w1 := checkAchievements (setSaveData (Some d) w) in
      match saveData w1 with
      | None => w1
      | Some d =>
          let d := setRetriesPerLevel (objSet level 0 (retriesPerLevel d)) d in
          (saveToStorage (setSaveData (Some d) w1)).2
      end
  end.

Definition onLevelFailed (level : Z) (w : World) : World :=
  match saveData w with
  | None => w
  | Some d =>
      let d := setTotalRetries (totalRetries d + 1) d in
      let o := retriesPerLevel d in
      let o :=
        match objGet o level with
        | Some v => if v =? 0 then objSet level 0 o else o
        | None => objSet level 0 o
        end in
      let o := objSet level (default 0 (objGet o level) + 1) o in
      (saveToStorage (setSaveData (Some (setRetriesPerLevel o d)) w)).2
  end.

Definition resetProgress (w : World) : World :=
  let savedAchievements :=
    match saveData w with
    | Some d => achievements d
    | None => []
    end in
  let d := setAchievements savedAchievements defaultSaveData in
  (saveToStorage (setSaveData (Some d) w)).2.

Definition resetLevelProgress (w : World) : World :=
  match saveData w with
  | None => w
  | Some d =>
      let d := setCurrentLevel 1 d in
      let d := setTotalRetries 0 d in
      let d := setRetriesPerLevel [] d in
      let d := setLevelsCompletedFirstTry [] d in
      (saveToStorage (setSaveData (Some d) w)).2
  end.

Definition resetAllProgress (w : World) : World :=
  (saveToStorage (setSaveData (Some defaultSaveData) w)).2.

End SaveSystem.

(** ** GameStateManager.js *)

Module GameStateManager.

Inductive GameStateTag :=
  | IDLE | PLACING_GRID | GRID_INTRO | HOST_INTRO | WAITING_IN_START_ZONE
  | COUNTDOWN | MEMORIZE | PLAYING | COMPLETED | FAILED.

Record GameState := {
  current : GameStateTag;
  previous : option GameStateTag;
  currentLevel : Z;
  score : Z;
  wrongSteps : Z;
  memorizeTimeRemaining : Z;
  isFirstGame : bool;
  currentLevelRetried : bool
}.

Record LevelConfigT := {
  gridRows : Z;
  gridColumns : Z;
  pathLength : Z;
  memorizeTime : Z
}.

(** The controller, the persisted progress store [global.PathFinder.Save]
    (if that script is loaded) and the grid manager it refers to. *)
Record World := {
  gameState : GameState;
  save : option SaveManager.State;
  gridManager : option GridManager.State
}.

Definition getLevelConfig (level : Z) : LevelConfigT :=
  let pathLength :=
    Constants.LevelConfig.BASE_PATH_LENGTH
    + (level - 1) * Constants.LevelConfig.PATH_INCREMENT in
  let pathLength := Z.min pathLength Constants.LevelConfig.MAX_PATH_LENGTH in
  {| gridRows := Constants.LevelConfig.GRID_ROWS;
     gridColumns := Constants.LevelConfig.GRID_COLUMNS;
     pathLength := pathLength;
     memorizeTime := Constants.LevelConfig.MEMORIZE_TIME |}.

Definition setCurrentLevel (level : Z) (s : GameState) : GameState :=
  {| current := current s; previous := previous s; currentLevel := level;
     score := score s; wrongSteps := wrongSteps s;
     memorizeTimeRemaining := memorizeTimeRemaining s;
     isFirstGame := isFirstGame s; currentLevelRetried := currentLevelRetried s |}.

Definition setMemorizeTimeRemaining (time : Z) (s : GameState) : GameState :=
  {| current := current s; previous := previous s; currentLevel := currentLevel s;
     score := score s; wrongSteps := wrongSteps s;
     memorizeTimeRemaining := time;
     isFirstGame := isFirstGame s; currentLevelRetried := currentLevelRetried s |}.

(** The first block of [setupLevel]: the level is checked against the save
    system and corrected to it. *)
Definition syncLevel (w : World) : GameState :=
  match save w with
  | Some store =>
      let savedLevel := SaveManager.getCurrentLevel store in
      if negb (savedLevel =? currentLevel (gameState w))
      then setCurrentLevel savedLevel (gameState w)
      else gameState w
  | None => gameState w
  end.

Definition setupLevel `{ArraySort} (w : World) (r : Rand) : option (World * Rand) :=
  let s := syncLevel w in
  let levelConfig := getLevelConfig (currentLevel s) in
  '(grid', r') ←
    match gridManager w with
    | Some g =>
        '(_, g', r') ← GridManager.generateNewPath (pathLength levelConfig) g r;
        Some (Some g', r')
    | None => Some (None, r)
    end;
  Some ({| gameState := setMemorizeTimeRemaining (memorizeTime levelConfig) s;
           save := save w;
           gridManager := grid' |}, r').

Definition setLevel (level : Z) (s : GameState) : GameState :=
  let maxLevel :=
    (Constants.LevelConfig.MAX_PATH_LENGTH - Constants.LevelConfig.BASE_PATH_LENGTH)
      `div` Constants.LevelConfig.PATH_INCREMENT + 1 in
  setCurrentLevel (Z.max 1 (Z.min level maxLevel)) s.

End GameStateManager.

(* ===================================================================== *)
(** * Part II: the vocabulary of the specification                        *)
(* ===================================================================== *)

(** ** Paths and the generator's search *)

Module PathSpec.
Import MathHelpers PathGenerator.

(** Strings without a comma: the decimal numerals of [positionKey]. *)
Fixpoint commaFree (s : string) : Prop :=
  match s with
  | EmptyString => True
  | String c s' => c ≠ ","%char ∧ commaFree s'
  end.

Definition manhattan (a b : GridPos) : Z :=
  Z.abs (pos_x a - pos_x b) + Z.abs (pos_z a - pos_z b).

(** Every consecutive pair of the path is orthogonally adjacent. *)
Definition connected (path : list GridPos) : Prop :=
  ∀ (i : nat) a b, path !! i = Some a → path !! S i = Some b → manhattan a b = 1.

Definition inBounds (rows columns : Z) (p : GridPos) : Prop :=
  0 ≤ pos_x p < columns ∧ 0 ≤ pos_z p < rows.

(** What the walk keeps true of its path and of its visited map. *)
Record WalkInv (path : list GridPos) (visited : gmap string bool) : Prop := {
  inv_nonempty : path ≠ [];
  inv_nodup : NoDup path;
  inv_connected : connected path;
  inv_visited : ∀ p, isVisited visited (keyOf p) = true ↔ p ∈ path
}.

(** The candidates of one iteration of the walk. *)
Definition validNeighborsOf (rows columns : Z) (visited : gmap string bool)
    (cur : GridPos) : list GridPos :=
  filter (λ neighbor, negb (isVisited visited (keyOf neighbor)) = true)
         (getNeighbors (pos_x cur) (pos_z cur) rows columns).

(** What every attempt maintains, whatever the start ... *)
Definition BaseInv (pathLength : Z) (path : list GridPos)
    (visited : gmap string bool) : Prop :=
  WalkInv path visited ∧ Z.of_nat (length path) ≤ Z.max 1 pathLength.

(** ... when the walk starts inside the grid ... *)
Definition BoundsInv (rows columns : Z) (path : list GridPos)
    (visited : gmap string bool) : Prop :=
  WalkInv path visited ∧ Forall (inBounds rows columns) path.

(** ... and when it starts on the cell [s]. *)
Definition HeadInv (s : GridPos) (path : list GridPos)
    (visited : gmap string bool) : Prop :=
  WalkInv path visited ∧ head path = Some s.

(** The [k]-th attempt (counting from 0) of a run of attempts that starts
    with the oracle [r], each attempt continuing with the oracle the previous
    one left: the path it produces and the oracle it leaves. *)
Fixpoint attemptAt `{ArraySort} (k : nat) (rows columns pathLength : Z)
    (startPos : option GridPos) (r : Rand) : option (list GridPos * Rand) :=
  match k with
  | O => generatePathAttempt rows columns pathLength startPos r
  | S k' =>
      '(_, r') ← generatePathAttempt rows columns pathLength startPos r;
      attemptAt k' rows columns pathLength startPos r'
  end.

(** The two ways a run of at most [n] attempts for the length [L] ends:
    attempt [k] is the first to reach [L], its path is returned and the
    oracle is the one it left ... *)
Definition reachedAt `{ArraySort} (rows columns L : Z) (startPos : option GridPos)
    (n : nat) (r : Rand) (path : list GridPos) (r' : Rand) : Prop :=
  ∃ k, (k < n)%nat
       ∧ attemptAt k rows columns L startPos r = Some (path, r')
       ∧ L ≤ Z.of_nat (length path)
       ∧ ∀ j, (j < k)%nat →
           ∃ pj rj, attemptAt j rows columns L startPos r = Some (pj, rj)
                    ∧ Z.of_nat (length pj) < L.

(** ... or all [n] attempts stay short, none of them longer than [path]. *)
Definition allShort `{ArraySort} (rows columns L : Z) (startPos : option GridPos)
    (n : nat) (r : Rand) (path : list GridPos) : Prop :=
  ∀ j, (j < n)%nat →
    ∃ pj rj, attemptAt j rows columns L startPos r = Some (pj, rj)
             ∧ Z.of_nat (length pj) < L
             ∧ (length pj ≤ length path)%nat.

(** All one-cell extensions of a self-avoiding walk, and all self-avoiding
    walks of [k] steps from a start cell: the search space of the generator. *)
Definition extensions (rows columns : Z) (path : list GridPos) : list (list GridPos) :=
  match last path with
  | None => []
  | Some cur =>
      (λ n, path ++ [n])
        <$> filter (λ n, n ∉ path) (getNeighbors (pos_x cur) (pos_z cur) rows columns)
  end.

Fixpoint selfAvoidingWalks (rows columns : Z) (start : GridPos) (k : nat)
    : list (list GridPos) :=
  match k with
  | O => [[start]]
  | S k' => selfAvoidingWalks rows columns start k' ≫= extensions rows columns
  end.

Definition SearchInv (rows columns : Z) (start : GridPos) (path : list GridPos)
    (visited : gmap string bool) : Prop :=
  WalkInv path visited
  ∧ path ∈ selfAvoidingWalks rows columns start (length path - 1).

End PathSpec.

(** ** Arrays and repeated calls *)

Module ArraySpec.

(** A [R × C] array of arrays. *)
Definition shape2 {A : Type} (R C : nat) (m : list (list A)) : Prop :=
  length m = R ∧ Forall (λ row, length row = C) m.

(** The first [n] entries of an array already rewritten by [f]. *)
Definition rewritten {A : Type} (f : A → A) (n : nat) (l : list A) : list A :=
  map f (take n l) ++ drop n l.


End ArraySpec.

(** ** Triggers *)

Module TriggerSpec.
Import TileTrigger.



End TriggerSpec.

(** ** The grid *)

Module GridSpec.
Import GridManager ArraySpec.

(** The arrays of an initialized grid have one entry per cell. *)
Definition wf (g : State) : Prop :=
  let c := gridConfig g in
  shape2 (Z.to_nat (rows c)) (Z.to_nat (columns c)) (tiles c)
  ∧ shape2 (Z.to_nat (rows c)) (Z.to_nat (columns c)) (tileObjects c).




End GridSpec.

(** ** The validator's calls *)

Module TrackerSpec.
Import PlayerTracker.

(** The correct-step, wrong-step and path-completed calls of a log. *)
Definition stepEvents (log : list Event) : list Event :=
  filter (λ e, isStepEvent e = true) log.

(** The tile notifications that precede the validation of an entry. *)
Definition tileNotices (w : World) (p : GridPos) : list Event :=
  match currentTile (trackingState w) with
  | Some q => if onTileExited (callbacks w) then [TileExited q] else []
  | None => []
  end
  ++ (if onTileEntered (callbacks w) then [TileEntered p] else []).

(** The correct-step calls for the tiles [tiles], the first of which is step
    number [from + 1] of [total]. *)
Definition correctSteps (from total : nat) (tiles : list GridPos) : list Event :=
  imap (λ i p, CorrectStep p (S (from + i)) total) tiles.

End TrackerSpec.

(** ** A concrete scene *)

Module Demo.

(** One admissible engine: a stable insertion sort. *)
Fixpoint insertBy {A : Type} (cmp : A → A → Rand → Z * Rand)
    (a : A) (l : list A) (r : Rand) : list A * Rand :=
  match l with
  | [] => ([a], r)
  | b :: l' =>
      let '(c, r1) := cmp a b r in
      if c <=? 0 then (a :: b :: l', r1)
      else let '(l'', r2) := insertBy cmp a l' r1 in (b :: l'', r2)
  end.

Fixpoint insertionSort {A : Type} (cmp : A → A → Rand → Z * Rand)
    (l : list A) (r : Rand) : list A * Rand :=
  match l with
  | [] => ([], r)
  | a :: l' =>
      let '(s, r1) := insertionSort cmp l' r in insertBy cmp a s r1
  end.

Lemma insertBy_perm {A : Type} (cmp : A → A → Rand → Z * Rand) a l r :
  (insertBy cmp a l r).1 ≡ₚ a :: l.
Proof.
  revert r. induction l as [|b l IH]; intros r; simpl; [done|].
  destruct (cmp a b r) as [c r1]. case_match; simpl; [done|].
  specialize (IH r1). destruct (insertBy cmp a l r1) as [l'' r2]; simpl in *.
  rewrite IH. apply Permutation_swap.
Qed.

Lemma insertionSort_perm {A : Type} (cmp : A → A → Rand → Z * Rand) l r :
  (insertionSort cmp l r).1 ≡ₚ l.
Proof.
  revert r. induction l as [|a l IH]; intros r; simpl; [done|].
  specialize (IH r). destruct (insertionSort cmp l r) as [s r1]; simpl in *.
  rewrite insertBy_perm. by rewrite IH.
Qed.

Definition insertionSortEngine : ArraySort :=
  {| array_sort := @insertionSort; array_sort_perm := @insertionSort_perm |}.

(** A scene with a tile prefab and a trigger prefab, the grid parent
    untransformed; a 5 × 5 grid placed at the origin; the path of level 1
    generated from a fixed oracle. *)
Definition inputs : GridManager.Inputs :=
  {| GridManager.gridParent :=
       Some {| GridManager.worldPositionOf := mkVec3 0 0 0;
               GridManager.worldRotationOf := quat_identity |};
     GridManager.tilePrefab :=
       Some {| GridManager.prefabMesh := true; GridManager.prefabArrow := true |};
     GridManager.triggerPrefab := Some {| GridManager.prefabScript := true |} |}.

Definition placedGrid : GridManager.State :=
  default (GridManager.initial inputs)
    (GridManager.initialize (mkVec3 0 0 0) (Some 5) (Some 5)
       (GridManager.onTriggerEntered (GridManager.initial inputs))).

Definition oracle : Rand := [3; 1; 4; 1; 5; 9; 2; 6]%nat.

Definition round : option (list GridPos * GridManager.State * Rand) :=
  GridManager.generateNewPath (H := insertionSortEngine) 5 placedGrid oracle.

Definition thePath : list GridPos :=
  Eval vm_compute in
    match round with
    | Some (p, _, _) => p
    | None => []
    end.

Definition grid : GridManager.State :=
  match round with
  | Some (_, g, _) => g
  | None => placedGrid
  end.

(** The tracker as [GameStateManager.initialize] wires it: listeners for the
    three step events, none for tile entry and exit. *)
Definition world : PlayerTracker.World :=
  {| PlayerTracker.trackingState :=
       {| PlayerTracker.isTracking := false; PlayerTracker.pathProgress := 0;
          PlayerTracker.stepsOnPath := []; PlayerTracker.currentTile := None |};
     PlayerTracker.callbacks :=
       {| PlayerTracker.onTileEntered := false; PlayerTracker.onTileExited := false;
          PlayerTracker.onCorrectStep := true; PlayerTracker.onWrongStep := true;
          PlayerTracker.onPathCompleted := true |};
     PlayerTracker.gridManager := Some grid;
     PlayerTracker.debugConfig := Constants.DebugConfig;
     PlayerTracker.emitted := [] |}.

(** A controller on level 1 whose store says level 3. *)
Definition game : GameStateManager.World :=
  {| GameStateManager.gameState :=
       {| GameStateManager.current := GameStateManager.GRID_INTRO;
          GameStateManager.previous := Some GameStateManager.IDLE;
          GameStateManager.currentLevel := 1;
          GameStateManager.score := 0;
          GameStateManager.wrongSteps := 0;
          GameStateManager.memorizeTimeRemaining := 0;
          GameStateManager.isFirstGame := true;
          GameStateManager.currentLevelRetried := false |};
     GameStateManager.save :=
       Some {| SaveManager.saveData :=
                 Some {| SaveManager.currentLevel := 3;
                         SaveManager.highestLevel := 3;
                         SaveManager.totalRetries := 1 |} |};
     GameStateManager.gridManager := Some placedGrid |}.

End Demo.

(** ** Directions of travel *)

Module DirectionSpec.
Import PathGenerator.

(** One step in a named direction, by the vectors of [Constants.Directions]. *)
Definition vectorOf (d : string) : option GridPos :=
  if decide (d = "up") then Some Constants.Directions.UP
  else if decide (d = "down") then Some Constants.Directions.DOWN
  else if decide (d = "left") then Some Constants.Directions.LEFT
  else if decide (d = "right") then Some Constants.Directions.RIGHT
  else None.

Definition move (p : GridPos) (d : string) : option GridPos :=
  v ← vectorOf d; Some (mkPos (pos_x p + pos_x v) (pos_z p + pos_z v)).

(** The cells visited from [p] by a list of directions. *)
Fixpoint follow (p : GridPos) (ds : list string) : option (list GridPos) :=
  match ds with
  | [] => Some [p]
  | d :: ds' => q ← move p d; rest ← follow q ds'; Some (p :: rest)
  end.

End DirectionSpec.

(** ** The perimeter of the grid *)

Module PerimeterSpec.
Import PathSpec.

(** The cells on the border of the grid. *)
Definition onPerimeter (rows columns : Z) (p : GridPos) : Prop :=
  inBounds rows columns p
  ∧ (pos_x p = 0 ∨ pos_x p = columns - 1 ∨ pos_z p = 0 ∨ pos_z p = rows - 1).

End PerimeterSpec.

(** ** The marks of a generated path *)

Module MarkSpec.
Import GridManager.

(** The state that [generateNewPath] gives the tile number [i] of a path of
    [n] tiles. *)
Definition stateAt (n : nat) (i : nat) : TileState :=
  if (i =? 0)%nat then st_start
  else if (i =? n - 1)%nat then st_end
  else st_path.

End MarkSpec.

(** ** Sessions of the validator *)

Module TraceSpec.
Import PlayerTracker.

(** What a tracking session keeps true in normal mode, for the path [P] the
    grid manager holds: the steps taken are the first [pathProgress] tiles of
    [P], and tracking stays armed. *)
Record SessionInv (P : list GridPos) (cbs : Callbacks) (w : World) : Prop := {
  session_grid : ∃ g, gridManager w = Some g ∧ GridManager.getPath g = P;
  session_mode : Constants.SKIP_PATH_CHECK (debugConfig w) = false;
  session_callbacks : callbacks w = cbs;
  session_armed : isTracking (trackingState w) = true;
  session_progress : (pathProgress (trackingState w) ≤ length P)%nat;
  session_steps : stepsOnPath (trackingState w) = take (pathProgress (trackingState w)) P
}.

End TraceSpec.

(** ** The progress store *)

Module SaveSpec.
Import SaveSystem.

(** The badges [checkAchievements] looks at, in the order of the script, each
    with the condition under which it is unlocked. *)
Definition badgeConditions (d : SaveData) : list (bool * string) :=
  [ (1 <? highestLevel d, "first_steps");
    (3 <? highestLevel d, "getting_warmer");
    (5 <? highestLevel d, "memory_walker");
    (8 <? highestLevel d, "grid_expert");
    (11 <? highestLevel d, "grid_master");
    (levelCompletedFirstTry d 1, "clean_start");
    (forallb (levelCompletedFirstTry d) (seqZ 1 5) && (5 <? highestLevel d),
     "flawless_five");
    (forallb (levelCompletedFirstTry d) (seqZ 1 11) && (11 <? highestLevel d),
     "no_mistakes");
    (existsb (levelCompletedFirstTry d) (seqZ 6 6), "deep_focus") ]
  ++ (retriesPerLevel d ≫= λ '(level, retries),
        [ ((retries =? 1) && (level <? highestLevel d), "quick_learner");
          ((3 <=? retries) && (level <? highestLevel d), "comeback_kid") ])
  ++ [ ((11 <? highestLevel d) && (5 <=? totalRetries d), "never_give_up") ].

(** One step of a pass over the badges. *)
Definition unlockStep (st : SaveData * list string) (b : bool * string)
    : SaveData * list string :=
  unlockIf b.1 b.2 st.

(** The pass of [checkAchievements] over the save data [d]. *)
Definition pass (d : SaveData) : SaveData * list string :=
  foldl unlockStep (d, []) (badgeConditions d).

(** The retry counts after [onLevelFailed(level)]. *)
Definition failedRetries (level : Z) (o : Obj) : Obj :=
  let o1 :=
    match objGet o level with
    | Some v => if v =? 0 then objSet level 0 o else o
    | None => objSet level 0 o
    end in
  objSet level (default 0 (objGet o1 level) + 1) o1.

(** The calls of the script that change the recorded progress. *)
Inductive Op :=
  | Completed (level : Z) (firstTry : bool)
  | Failed (level : Z)
  | ResetProgress
  | ResetLevelProgress
  | ResetAll.

Definition perform (w : World) (op : Op) : World :=
  match op with
  | Completed level firstTry => onLevelCompleted level firstTry w
  | Failed level => onLevelFailed level w
  | ResetProgress => resetProgress w
  | ResetLevelProgress => resetLevelProgress w
  | ResetAll => resetAllProgress w
  end.

Definition run (ops : list Op) (w : World) : World := foldl perform w ops.


Definition keepsAchievements (op : Op) : Prop :=
  match op with ResetAll => False | _ => True end.

(** The save data between the bookkeeping of [onLevelCompleted] and its call
    of [checkAchievements]. *)
Definition advanced (level : Z) (firstTry : bool) (d : SaveData) : SaveData :=
  {| version := version d;
     currentLevel := level + 1;
     highestLevel := Z.max (highestLevel d) (level + 1);
     totalRetries := totalRetries d;
     retriesPerLevel := retriesPerLevel d;
     levelsCompletedFirstTry :=
       if firstTry && negb (levelCompletedFirstTry d level)
       then levelsCompletedFirstTry d ++ [level]
       else levelsCompletedFirstTry d;
     achievements := achievements d |}.

(** What a restart finds in the storage after [saveToStorage] ran with the
    save data [d]. *)
Definition persisted (st : option Storage) (d : SaveData) : option Storage :=
  match st with
  | Some s =>
      if writeRaises s then Some s
      else Some {| stored := Saved d; writeRaises := false |}
  | None => None
  end.

(** The achievement ids passed to [AchievementNotification.enqueue] so far. *)
Definition enqueued (w : World) : list string :=
  emitted w ≫= λ e, match e with Enqueued ids => ids | Delivered _ _ => [] end.

(** The progression badges with the level that the highest level has to
    exceed. *)
Definition progressionBadges : list (Z * string) :=
  [ (1, "first_steps"); (3, "getting_warmer"); (5, "memory_walker");
    (8, "grid_expert"); (11, "grid_master") ].

(** The calls that do nothing without save data. *)
Definition needsSaveData (op : Op) : Prop :=
  match op with ResetProgress | ResetAll => False | _ => True end.

(** The subscribers that do not raise. *)
Definition working (ls : list Listener) : list Listener :=
  filter (λ l, listenerRaises l = false) ls.

(** What the script keeps true of its save data. *)
Record SaveInv (d : SaveData) : Prop := {
  inv_achievements : NoDup (achievements d);
  inv_first_try : NoDup (levelsCompletedFirstTry d);
  inv_levels : currentLevel d ≤ highestLevel d;
  inv_highest : 1 ≤ highestLevel d;
  inv_retries : 0 ≤ totalRetries d
}.

End SaveSpec.

(* ===================================================================== *)
(** * Part III: proofs                                                    *)
(* ===================================================================== *)

(** ** Loops, arrays and floors *)

Module ArrayFacts.
Import ArraySpec.

(** ** Loops and arrays *)

Lemma forLoop_app {S} (body : Z → S → option S) l1 l2 s :
  forLoop body (l1 ++ l2) s = forLoop body l1 s ≫= forLoop body l2.
Proof.
  revert s. induction l1 as [|i l1 IH]; intros s; simpl; [done|].
  destruct (body i s) as [s'|]; simpl; [apply IH|done].
Qed.

Lemma forLoop_invariant {S} (Inv : S → Prop) (body : Z → S → option S) indices s :
  (∀ i s, i ∈ indices → Inv s → ∃ s', body i s = Some s' ∧ Inv s') →
  Inv s → ∃ s', forLoop body indices s = Some s' ∧ Inv s'.
Proof.
  revert s. induction indices as [|i indices IH]; intros s Hbody Hs; simpl; [eauto|].
  destruct (Hbody i s) as (s' & -> & Hs'); [left|done|]. simpl.
  apply IH; [|done]. intros j s0 Hj. apply Hbody. by right.
Qed.


Lemma at_index_of_nat {A} (l : list A) (n : nat) : at_index l (Z.of_nat n) = l !! n.
Proof. unfold at_index. destruct (Z.ltb_spec (Z.of_nat n) 0); [lia|]. by rewrite Nat2Z.id. Qed.

Lemma at_index_Some {A} (l : list A) i a :
  at_index l i = Some a ↔ 0 ≤ i ∧ l !! Z.to_nat i = Some a.
Proof.
  unfold at_index. destruct (Z.ltb_spec i 0); [|intuition lia].
  split; [done|]. intros [? _]. lia.
Qed.

Lemma shape2_lookup {A} R C (m : list (list A)) i row :
  shape2 R C m → m !! i = Some row → length row = C.
Proof. intros [_ Hall] Hi. by eapply (Forall_lookup_1 _ _ _ _ Hall). Qed.

Lemma shape2_insert {A} R C (m : list (list A)) i row :
  shape2 R C m → length row = C → shape2 R C (<[i := row]> m).
Proof.
  intros [Hlen Hall] Hrow. split; [by rewrite length_insert|].
  by apply Forall_insert.
Qed.


Lemma update2_Some {A} (f : A → A) R C (m : list (list A)) z x :
  shape2 R C m → 0 ≤ z → (Z.to_nat z < R)%nat → 0 ≤ x → (Z.to_nat x < C)%nat →
  ∃ row a, m !! Z.to_nat z = Some row ∧ row !! Z.to_nat x = Some a
           ∧ update2 z x f m = Some (<[Z.to_nat z := <[Z.to_nat x := f a]> row]> m).
Proof.
  intros Hs Hz Hz' Hx Hx'. pose proof Hs as [Hlen Hall].
  destruct (lookup_lt_is_Some_2 m (Z.to_nat z)) as [row Hrow]; [lia|].
  pose proof (shape2_lookup _ _ _ _ _ Hs Hrow) as Hrl.
  destruct (lookup_lt_is_Some_2 row (Z.to_nat x)) as [a Ha]; [lia|].
  exists row, a. split_and!; [done..|]. unfold update2.
  assert (at_index m z = Some row) as -> by (by apply at_index_Some).
  simpl. assert (at_index row x = Some a) as -> by (by apply at_index_Some).
  done.
Qed.



Lemma rewritten_length {A} (f : A → A) n l : length (rewritten f n l) = length l.
Proof.
  unfold rewritten. rewrite length_app, length_map, length_take, length_drop. lia.
Qed.






End ArrayFacts.

(** ** The path generator *)

Module PathFacts.
Import MathHelpers PathGenerator PathSpec.

Lemma pretty_N_go_commaFree x s : commaFree s → commaFree (pretty_N_go x s).
Proof.
  revert s. induction (N.lt_wf_0 x) as [x _ IH]; intros s Hs.
  assert (x = 0 ∨ 0 < x)%N as [->|?] by lia.
  - by rewrite pretty_N_go_0.
  - rewrite pretty_N_go_step by done. apply IH.
    { by apply N.div_lt. }
    split; [|done]. unfold pretty_N_char. by repeat case_match.
Qed.

Lemma pretty_N_commaFree (x : N) : commaFree (pretty x).
Proof.
  unfold pretty, pretty_N. case_decide; [by split|].
  by apply pretty_N_go_commaFree.
Qed.

Lemma pretty_Z_commaFree (x : Z) : commaFree (pretty x).
Proof.
  destruct x as [|p|p]; unfold pretty, pretty_Z; simpl.
  - by split.
  - apply pretty_N_commaFree.
  - split; [done|]. apply pretty_N_commaFree.
Qed.

Lemma comma_split_inj s1 s2 t1 t2 :
  commaFree s1 → commaFree t1 →
  s1 +:+ ","%string +:+ s2 = t1 +:+ ","%string +:+ t2 → s1 = t1 ∧ s2 = t2.
Proof.
  revert t1. induction s1 as [|c s1 IH]; intros [|d t1]; simpl.
  - intros _ _ Heq. by simplify_eq.
  - intros _ [Hd _] Heq. by simplify_eq.
  - intros [Hc _] _ Heq. by simplify_eq.
  - intros [_ Hs] [_ Ht] Heq. simplify_eq.
    match goal with Heq : _ = _ |- _ => destruct (IH t1 Hs Ht Heq) as [-> ->] end.
    done.
Qed.

Lemma positionKey_inj x z x' z' :
  positionKey x z = positionKey x' z' → x = x' ∧ z = z'.
Proof.
  unfold positionKey. intros Heq.
  apply comma_split_inj in Heq as [Hx Hz]; auto using pretty_Z_commaFree.
  split; by apply (inj pretty).
Qed.

Lemma keyOf_inj p q : keyOf p = keyOf q → p = q.
Proof.
  destruct p, q. unfold keyOf; simpl. intros Heq.
  apply positionKey_inj in Heq as [-> ->]. done.
Qed.

Lemma mkPos_eta p : mkPos (pos_x p) (pos_z p) = p.
Proof. by destruct p. Qed.

Lemma isValidGridPosition_spec x z rows columns :
  isValidGridPosition x z rows columns = true ↔ inBounds rows columns (mkPos x z).
Proof. unfold isValidGridPosition, inBounds; simpl. lia. Qed.

Lemma getNeighbors_filter x z rows columns :
  getNeighbors x z rows columns =
  filter (λ n, isValidGridPosition (pos_x n) (pos_z n) rows columns = true)
         [mkPos x (z + 1); mkPos x (z + -1); mkPos (x + -1) z; mkPos (x + 1) z].
Proof.
  unfold getNeighbors, directions; simpl.
  replace (x + 0) with x by lia. replace (z + 0) with z by lia.
  rewrite !filter_cons, filter_nil; simpl.
  destruct (isValidGridPosition x (z + 1) rows columns),
           (isValidGridPosition x (z + -1) rows columns),
           (isValidGridPosition (x + -1) z rows columns),
           (isValidGridPosition (x + 1) z rows columns); reflexivity.
Qed.

Lemma elem_of_getNeighbors n x z rows columns :
  n ∈ getNeighbors x z rows columns ↔
  inBounds rows columns n ∧
  (n = mkPos x (z + 1) ∨ n = mkPos x (z - 1) ∨ n = mkPos (x - 1) z ∨ n = mkPos (x + 1) z).
Proof.
  rewrite getNeighbors_filter, list_elem_of_filter.
  rewrite <-(mkPos_eta n) at 1. rewrite isValidGridPosition_spec, mkPos_eta.
  rewrite !elem_of_cons, elem_of_nil.
  replace (z + -1) with (z - 1) by lia. replace (x + -1) with (x - 1) by lia.
  tauto.
Qed.

Lemma getNeighbors_adjacent n p rows columns :
  n ∈ getNeighbors (pos_x p) (pos_z p) rows columns →
  inBounds rows columns n ∧ manhattan p n = 1.
Proof.
  rewrite elem_of_getNeighbors. unfold manhattan.
  intros [? [-> | [-> | [-> | ->]]]]; simpl; split; auto; lia.
Qed.

(** ** shuffleArray only rearranges *)

Lemma swap_length {A} i j (l : list A) : length (swap i j l) = length l.
Proof. unfold swap. repeat case_match; by rewrite ?length_insert. Qed.

Lemma swap_elem_of {A} i j (l : list A) x : x ∈ swap i j l → x ∈ l.
Proof.
  unfold swap. destruct (l !! i) as [a|] eqn:Hi; [|done].
  destruct (l !! j) as [b|] eqn:Hj; [|done].
  intros Hx. apply list_elem_of_lookup in Hx as [k Hk].
  destruct (decide (k = j)) as [->|Hkj].
  - rewrite list_lookup_insert_eq in Hk.
    + simplify_eq. by eapply list_elem_of_lookup_2.
    + rewrite length_insert. by eapply lookup_lt_Some.
  - rewrite list_lookup_insert_ne in Hk by done.
    destruct (decide (k = i)) as [->|Hki].
    + rewrite list_lookup_insert_eq in Hk by (by eapply lookup_lt_Some).
      simplify_eq. by eapply list_elem_of_lookup_2.
    + rewrite list_lookup_insert_ne in Hk by done.
      by eapply list_elem_of_lookup_2.
Qed.

Lemma shuffleFrom_length {A} i (l : list A) r :
  length (shuffleFrom i l r).1 = length l.
Proof.
  revert l r. induction i as [|i IH]; intros l r; simpl; [done|].
  destruct (randomInt 0 _ r) as [j r']. by rewrite IH, swap_length.
Qed.

Lemma shuffleFrom_elem_of {A} i (l : list A) r x :
  x ∈ (shuffleFrom i l r).1 → x ∈ l.
Proof.
  revert l r. induction i as [|i IH]; intros l r; simpl; [done|].
  destruct (randomInt 0 _ r) as [j r']. intros Hx%IH. by eapply swap_elem_of.
Qed.

Lemma shuffleArray_head {A} (l : list A) r :
  l ≠ [] → ∃ a, head (shuffleArray l r).1 = Some a ∧ a ∈ l.
Proof.
  intros Hl. unfold shuffleArray.
  destruct (shuffleFrom (length l - 1) l r).1 as [|a s] eqn:Heq.
  - apply (f_equal length) in Heq. rewrite shuffleFrom_length in Heq.
    by destruct l.
  - exists a. split; [done|]. eapply (shuffleFrom_elem_of _ _ r).
    rewrite Heq. left.
Qed.

Lemma array_sort_head `{ArraySort} {A} (cmp : A → A → Rand → Z * Rand) l r :
  l ≠ [] → ∃ a, head (array_sort cmp l r).1 = Some a ∧ a ∈ l.
Proof.
  intros Hl. pose proof (array_sort_perm A cmp l r) as Hp.
  destruct (array_sort cmp l r).1 as [|a s].
  - apply Permutation_nil_l in Hp. by subst.
  - exists a. split; [done|]. rewrite <-Hp. left.
Qed.

(** ** Random perimeter cells *)

Lemma floorRandomTimes_range n r :
  0 < n → 0 ≤ (floorRandomTimes n r).1 < n.
Proof.
  intros Hn. unfold floorRandomTimes. destruct (Math_random r) as [d r']; simpl.
  case_match; [lia|]. apply Z.mod_pos_bound. lia.
Qed.

Lemma edgePositions_inBounds rows columns p :
  1 ≤ rows → 1 ≤ columns → p ∈ edgePositions rows columns → inBounds rows columns p.
Proof.
  intros Hr Hc. unfold edgePositions, inBounds.
  rewrite !elem_of_app, !list_elem_of_fmap.
  intros [(x&->&Hx)|[(x&->&Hx)|[(x&->&Hx)|(x&->&Hx)]]];
    apply elem_of_seqZ in Hx; simpl; lia.
Qed.

Lemma edgePositions_length rows columns :
  1 ≤ columns → (0 < length (edgePositions rows columns))%nat.
Proof.
  intros Hc. unfold edgePositions. rewrite !length_app, !length_fmap, !length_seqZ. lia.
Qed.

Lemma getRandomEdgePosition_Some rows columns r :
  1 ≤ rows → 1 ≤ columns →
  ∃ s, (getRandomEdgePosition rows columns r).1 = Some s ∧ inBounds rows columns s.
Proof.
  intros Hr Hc. unfold getRandomEdgePosition, randomInt.
  pose proof (edgePositions_length rows columns Hc) as Hlen.
  pose proof (floorRandomTimes_range
                (Z.of_nat (length (edgePositions rows columns)) - 1 - 0 + 1) r) as Hrange.
  destruct (floorRandomTimes _ r) as [k r']; simpl in *.
  unfold at_index. case_match; [lia|].
  destruct (edgePositions rows columns !! Z.to_nat (k + 0)) as [s|] eqn:Hs.
  - exists s. split; [done|]. eapply edgePositions_inBounds; eauto.
    by eapply list_elem_of_lookup_2.
  - apply lookup_ge_None in Hs. lia.
Qed.

Lemma isVisited_empty k : isVisited ∅ k = false.
Proof. unfold isVisited. by rewrite lookup_empty. Qed.

Lemma isVisited_insert (visited : gmap string bool) n p :
  isVisited (<[keyOf n := true]> visited) (keyOf p) = true
  ↔ p = n ∨ isVisited visited (keyOf p) = true.
Proof.
  unfold isVisited. destruct (decide (p = n)) as [->|Hne].
  - rewrite lookup_insert_eq. simpl. tauto.
  - rewrite lookup_insert_ne; [tauto|]. intros Hk. by apply keyOf_inj in Hk.
Qed.

Lemma isVisited_delete (visited : gmap string bool) n p :
  isVisited (delete (keyOf n) visited) (keyOf p) = true
  ↔ p ≠ n ∧ isVisited visited (keyOf p) = true.
Proof.
  unfold isVisited. destruct (decide (p = n)) as [->|Hne].
  - rewrite lookup_delete_eq. simpl. split; [done|]. by intros [].
  - rewrite lookup_delete_ne; [tauto|]. intros Hk. by apply keyOf_inj in Hk.
Qed.

Lemma connected_singleton p : connected [p].
Proof. intros i a b _ Hb. by destruct i. Qed.

Lemma connected_snoc path cur n :
  connected path → last path = Some cur → manhattan cur n = 1 →
  connected (path ++ [n]).
Proof.
  intros Hc Hlast Hadj i a b Ha Hb.
  apply last_Some in Hlast as [l' ->].
  destruct (decide (S i < length (l' ++ [cur]))%nat) as [Hlt|Hge].
  - rewrite lookup_app_l in Ha by lia. rewrite lookup_app_l in Hb by lia. eauto.
  - assert (i = length l') as ->.
    { apply lookup_lt_Some in Hb. rewrite !length_app in *; simpl in *. lia. }
    rewrite lookup_app_l in Ha by (rewrite length_app; simpl; lia).
    rewrite lookup_app_r in Ha by lia. rewrite Nat.sub_diag in Ha.
    rewrite lookup_app_r in Hb by (rewrite length_app; simpl; lia).
    replace (S (length l') - length (l' ++ [cur]))%nat with 0%nat in Hb
      by (rewrite length_app; simpl; lia).
    by simplify_eq/=.
Qed.

Lemma connected_prefix l l' : connected (l ++ l') → connected l.
Proof.
  intros Hc i a b Ha Hb. apply (Hc i); by apply lookup_app_l_Some.
Qed.

Lemma WalkInv_start s : WalkInv [s] (<[keyOf s := true]> ∅).
Proof.
  split.
  - done.
  - apply NoDup_singleton.
  - apply connected_singleton.
  - intros p. rewrite isVisited_insert, isVisited_empty, list_elem_of_singleton.
    intuition congruence.
Qed.

Lemma WalkInv_extend path visited cur n :
  WalkInv path visited → last path = Some cur → manhattan cur n = 1 →
  isVisited visited (keyOf n) = false →
  WalkInv (path ++ [n]) (<[keyOf n := true]> visited).
Proof.
  intros [Hne Hnd Hc Hv] Hlast Hadj Hfresh. split.
  - by destruct path.
  - apply NoDup_app. split_and!; [done| |apply NoDup_singleton].
    intros p Hp ->%list_elem_of_singleton. apply Hv in Hp. congruence.
  - by eapply connected_snoc.
  - intros p. rewrite isVisited_insert, elem_of_app, list_elem_of_singleton, Hv. tauto.
Qed.

Lemma WalkInv_backtrack path visited removed :
  WalkInv path visited → last path = Some removed → (1 < length path)%nat →
  WalkInv (removelast path) (delete (keyOf removed) visited).
Proof.
  intros [Hne Hnd Hc Hv] Hlast Hlen.
  apply last_Some in Hlast as [l' ->]. rewrite removelast_last.
  apply NoDup_app in Hnd as (Hnd & Hdisj & _). split.
  - rewrite length_app in Hlen; simpl in Hlen. destruct l'; [simpl in *; lia|done].
  - done.
  - by eapply connected_prefix.
  - intros p. rewrite isVisited_delete, Hv, elem_of_app, list_elem_of_singleton.
    split; [intuition|]. intros Hp. split; [|by left].
    intros ->. eapply Hdisj; [done|]. by apply list_elem_of_singleton.
Qed.

Lemma elem_of_validNeighborsOf rows columns visited cur n :
  n ∈ validNeighborsOf rows columns visited cur ↔
  n ∈ getNeighbors (pos_x cur) (pos_z cur) rows columns
  ∧ isVisited visited (keyOf n) = false.
Proof.
  unfold validNeighborsOf. rewrite list_elem_of_filter.
  destruct (isVisited visited (keyOf n)); simpl; intuition congruence.
Qed.

Section WalkRule.
Context `{ArraySort} (rows columns pathLength : Z).
Context (Hrows : 1 ≤ rows) (Hcols : 1 ≤ columns).
Variable I : list GridPos → gmap string bool → Prop.

Hypothesis I_nonempty : ∀ path v, I path v → path ≠ [].
Hypothesis I_backtrack : ∀ path v removed,
  I path v → last path = Some removed → (1 < length path)%nat →
  I (removelast path) (delete (keyOf removed) v).
Hypothesis I_restart : ∀ path v cur s,
  I path v → Z.of_nat (length path) < pathLength → last path = Some cur →
  (length path ≤ 1)%nat → validNeighborsOf rows columns v cur = [] →
  inBounds rows columns s →
  I [s] (<[keyOf s := true]> ∅).
Hypothesis I_extend : ∀ path v cur n,
  I path v → Z.of_nat (length path) < pathLength → last path = Some cur →
  n ∈ validNeighborsOf rows columns v cur →
  I (path ++ [n]) (<[keyOf n := true]> v).

Lemma pick_first visited (vn : list GridPos) r :
  vn ≠ [] →
  ∃ nextPos,
    head (if 23 <=? pathLength
          then array_sort (warnsdorffCompare rows columns visited) vn r
          else shuffleArray vn r).1 = Some nextPos
    ∧ nextPos ∈ vn.
Proof.
  intros Hvn. destruct (23 <=? pathLength).
  - by apply array_sort_head.
  - by apply shuffleArray_head.
Qed.

Lemma walk_rule budget path v r :
  I path v →
  ∃ res r' v', walk budget rows columns pathLength path v r = Some (res, r') ∧ I res v'.
Proof.
  revert path v r. induction budget as [|budget IH]; intros path v r HI; simpl.
  { eauto. }
  destruct (Z.of_nat (length path) <? pathLength) eqn:Hlt; [|eauto].
  apply Z.ltb_lt in Hlt.
  destruct (last path) as [cur|] eqn:Hlast; simpl.
  2: { apply last_None in Hlast. by apply I_nonempty in HI. }
  fold (validNeighborsOf rows columns v cur).
  destruct (length (validNeighborsOf rows columns v cur) =? 0)%nat eqn:Hvn.
  - apply Nat.eqb_eq, nil_length_inv in Hvn.
    destruct (1 <? length path)%nat eqn:H1.
    + apply Nat.ltb_lt in H1. apply IH. by apply I_backtrack.
    + apply Nat.ltb_ge in H1.
      destruct (getRandomEdgePosition_Some rows columns r Hrows Hcols) as (s & Hs & Hb).
      destruct (getRandomEdgePosition rows columns r) as [so r']; simpl in *.
      subst so; simpl. rewrite mkPos_eta. apply IH. by eapply I_restart.
  - apply Nat.eqb_neq in Hvn.
    assert (validNeighborsOf rows columns v cur ≠ []) as Hne.
    { intros Heq. by rewrite Heq in Hvn. }
    destruct (pick_first v _ r Hne) as (nextPos & Hhd & Hin).
    destruct (if 23 <=? pathLength then _ else _) as [sorted r']; simpl in *.
    rewrite Hhd; simpl. rewrite mkPos_eta. apply IH. by eapply I_extend.
Qed.
End WalkRule.

Section Attempt.
Context `{ArraySort} (rows columns pathLength : Z).
Context (Hrows : 1 ≤ rows) (Hcols : 1 ≤ columns).

Lemma validNeighborsOf_adjacent visited cur n :
  n ∈ validNeighborsOf rows columns visited cur →
  inBounds rows columns n ∧ manhattan cur n = 1
  ∧ isVisited visited (keyOf n) = false.
Proof.
  rewrite elem_of_validNeighborsOf. intros [Hn Hv].
  apply getNeighbors_adjacent in Hn as [??]. done.
Qed.

Lemma walk_base budget path v r :
  BaseInv pathLength path v →
  ∃ res r' v', walk budget rows columns pathLength path v r = Some (res, r')
               ∧ BaseInv pathLength res v'.
Proof.
  apply walk_rule; try done.
  - by intros ?? [[] _].
  - intros path0 v0 removed [HW Hlen] Hlast H1. split; [by apply WalkInv_backtrack|].
    apply last_Some in Hlast as [l' ->]. rewrite removelast_last.
    rewrite length_app in Hlen; simpl in Hlen. lia.
  - intros path0 v0 cur s _ _ _ _ _ _. split; [apply WalkInv_start|simpl; lia].
  - intros path0 v0 cur n [HW Hlen] Hlt Hlast (Hb & Hadj & Hv)%validNeighborsOf_adjacent.
    split; [by eapply WalkInv_extend|]. rewrite length_app; simpl. lia.
Qed.

Lemma walk_bounds budget path v r :
  BoundsInv rows columns path v →
  ∃ res r' v', walk budget rows columns pathLength path v r = Some (res, r')
               ∧ BoundsInv rows columns res v'.
Proof.
  apply walk_rule; try done.
  - by intros ?? [[] _].
  - intros path0 v0 removed [HW Hb] Hlast H1. split; [by apply WalkInv_backtrack|].
    apply last_Some in Hlast as [l' ->]. rewrite removelast_last.
    by apply Forall_app in Hb as [? _].
  - intros path0 v0 cur s _ _ _ _ _ Hs. split; [apply WalkInv_start|].
    by apply Forall_singleton.
  - intros path0 v0 cur n [HW Hb] Hlt Hlast (Hn & Hadj & Hv)%validNeighborsOf_adjacent.
    split; [by eapply WalkInv_extend|]. apply Forall_app. split; [done|].
    by apply Forall_singleton.
Qed.

(** A cell of a grid with at least two cells has a neighbour. *)
Lemma getNeighbors_nonempty s :
  inBounds rows columns s → 2 ≤ rows * columns →
  ∃ n, n ∈ getNeighbors (pos_x s) (pos_z s) rows columns.
Proof.
  intros [Hx Hz] Hcells.
  destruct (decide (2 ≤ columns)) as [Hc|Hc].
  - destruct (decide (pos_x s + 1 < columns)).
    + exists (mkPos (pos_x s + 1) (pos_z s)).
      apply elem_of_getNeighbors. unfold inBounds; simpl. split; [lia|auto].
    + exists (mkPos (pos_x s - 1) (pos_z s)).
      apply elem_of_getNeighbors. unfold inBounds; simpl. split; [lia|auto].
  - assert (columns = 1) as -> by lia.
    destruct (decide (pos_z s + 1 < rows)).
    + exists (mkPos (pos_x s) (pos_z s + 1)).
      apply elem_of_getNeighbors. unfold inBounds; simpl. split; [lia|auto].
    + exists (mkPos (pos_x s) (pos_z s - 1)).
      apply elem_of_getNeighbors. unfold inBounds; simpl. split; [lia|auto].
Qed.

(** The restart branch is dead code for a walk that starts inside a grid
    with room for the requested length. *)
Lemma start_not_stuck s path v cur :
  inBounds rows columns s → pathLength ≤ rows * columns →
  HeadInv s path v → Z.of_nat (length path) < pathLength →
  last path = Some cur → (length path ≤ 1)%nat →
  validNeighborsOf rows columns v cur ≠ [].
Proof.
  intros Hs HL [HW Hhd] Hlt Hlast Hlen Hnil.
  destruct path as [|p [|q path]]; simpl in *; [done| |lia].
  simplify_eq/=.
  destruct (getNeighbors_nonempty s Hs) as [n Hn]; [lia|].
  assert (n ∈ validNeighborsOf rows columns v s) as Hin.
  { apply elem_of_validNeighborsOf. split; [done|].
    apply getNeighbors_adjacent in Hn as [_ Hadj].
    apply not_true_is_false. intros Hv%(inv_visited _ _ HW).
    apply list_elem_of_singleton in Hv as ->.
    unfold manhattan in Hadj. lia. }
  rewrite Hnil in Hin. by apply elem_of_nil in Hin.
Qed.

Lemma walk_head s budget path v r :
  inBounds rows columns s → pathLength ≤ rows * columns →
  HeadInv s path v →
  ∃ res r' v', walk budget rows columns pathLength path v r = Some (res, r')
               ∧ HeadInv s res v'.
Proof.
  intros Hs HL. apply walk_rule; try done.
  - by intros ?? [[] _].
  - intros path0 v0 removed [HW Hhd] Hlast H1. split; [by apply WalkInv_backtrack|].
    apply last_Some in Hlast as [l' ->]. rewrite removelast_last.
    destruct l'; [rewrite length_app in H1; simpl in H1; lia|done].
  - intros path0 v0 cur s' HI Hlt Hlast Hlen Hnil _.
    by destruct (start_not_stuck s path0 v0 cur).
  - intros path0 v0 cur n [HW Hhd] Hlt Hlast (Hn & Hadj & Hv)%validNeighborsOf_adjacent.
    split; [by eapply WalkInv_extend|]. by destruct path0.
Qed.

Lemma attempt_start startPos r :
  ∃ s r0,
    (match startPos with
     | Some s => (Some s, r)
     | None => getRandomEdgePosition rows columns r
     end) = (Some s, r0)
    ∧ (startPos = None ∨ startPos = Some s)
    ∧ (startPos = None → inBounds rows columns s).
Proof.
  destruct startPos as [s|].
  - exists s, r. split_and!; [done|by right|done].
  - destruct (getRandomEdgePosition_Some rows columns r Hrows Hcols) as (s & Hs & Hb).
    destruct (getRandomEdgePosition rows columns r) as [so r0]; simpl in *; subst.
    exists s, r0. split_and!; [done|by left|done].
Qed.

Lemma attempt_base startPos r :
  ∃ res r', generatePathAttempt rows columns pathLength startPos r = Some (res, r')
    ∧ res ≠ [] ∧ NoDup res ∧ connected res
    ∧ Z.of_nat (length res) ≤ Z.max 1 pathLength.
Proof.
  unfold generatePathAttempt.
  destruct (attempt_start startPos r) as (s & r0 & -> & _ & _); simpl.
  rewrite mkPos_eta.
  destruct (walk_base (Z.to_nat (pathLength * 100)) [s] (<[keyOf s := true]> ∅) r0)
    as (res & r' & v' & Hw & [HW Hlen]).
  { split; [apply WalkInv_start|simpl; lia]. }
  exists res, r'. destruct HW. done.
Qed.

Lemma attempt_bounds startPos r res r' :
  (∀ s, startPos = Some s → inBounds rows columns s) →
  generatePathAttempt rows columns pathLength startPos r = Some (res, r') →
  Forall (inBounds rows columns) res.
Proof.
  intros Hstart. unfold generatePathAttempt.
  destruct (attempt_start startPos r) as (s & r0 & -> & Hs & Hnone); simpl.
  rewrite mkPos_eta.
  destruct (walk_bounds (Z.to_nat (pathLength * 100)) [s] (<[keyOf s := true]> ∅) r0)
    as (res0 & r0' & v' & Hw & [HW Hb]).
  { split; [apply WalkInv_start|]. apply Forall_singleton.
    destruct Hs as [Hs|Hs]; auto. }
  rewrite Hw. by intros [= <- <-].
Qed.

Lemma attempt_head s r res r' :
  inBounds rows columns s → pathLength ≤ rows * columns →
  generatePathAttempt rows columns pathLength (Some s) r = Some (res, r') →
  head res = Some s.
Proof.
  intros Hs HL. unfold generatePathAttempt; simpl. rewrite mkPos_eta.
  destruct (walk_head s (Z.to_nat (pathLength * 100)) [s] (<[keyOf s := true]> ∅) r Hs HL)
    as (res0 & r0' & v' & Hw & [HW Hhd]).
  { split; [apply WalkInv_start|done]. }
  rewrite Hw. by intros [= <- <-].
Qed.

(** The result of the retry loop is one of the attempts (or the best path
    it was entered with). *)
Lemma retryLoop_result (Q : list GridPos → Prop) startPos retries bestPath r :
  (∀ r res r',
     generatePathAttempt rows columns pathLength startPos r = Some (res, r') → Q res) →
  (∀ best, bestPath = Some best → Q best) →
  (0 < retries)%nat ∨ is_Some bestPath →
  ∃ res r',
    retryLoop retries rows columns pathLength startPos bestPath r = Some (res, r')
    ∧ Q res.
Proof.
  intros HQ. revert bestPath r.
  induction retries as [|n IH]; intros bestPath r Hbest Hsome; simpl.
  - destruct Hsome as [?|[best ->]]; [lia|]. simpl. eauto.
  - destruct (attempt_base startPos r) as (res & r' & Hatt & _).
    rewrite Hatt; simpl. case_match; [eauto|].
    apply IH; [|right; by repeat case_match].
    intros best Hb. repeat case_match; simplify_eq; eauto.
Qed.
End Attempt.

Section Retry.
Context `{ArraySort} (rows columns L : Z) (startPos : option GridPos).
Context (Hrows : 1 ≤ rows) (Hcols : 1 ≤ columns).

Lemma retryLoop_spec n bestPath r :
  (∀ b, bestPath = Some b → Z.of_nat (length b) < L) →
  (0 < n)%nat ∨ is_Some bestPath →
  ∃ path r',
    retryLoop n rows columns L startPos bestPath r = Some (path, r')
    ∧ (reachedAt rows columns L startPos n r path r'
       ∨ (Z.of_nat (length path) < L
          ∧ allShort rows columns L startPos n r path
          ∧ (bestPath = Some path ∨ ∃ k rk, (k < n)%nat ∧ attemptAt k rows columns L startPos r = Some (path, rk))
          ∧ (∀ b, bestPath = Some b → (length b ≤ length path)%nat)
          ∧ match n with
            | O => r' = r
            | S m => ∃ p, attemptAt m rows columns L startPos r = Some (p, r')
            end)).
Proof.
  revert bestPath r. induction n as [|n IH]; intros bestPath r Hbest Hsome; simpl.
  { destruct Hsome as [?|[b ->]]; [lia|]. simpl. exists b, r. split; [done|].
    right. split_and!; eauto.
    - intros j ?. lia.
    - by intros ? [= ->]. }
  destruct (attempt_base rows columns L Hrows Hcols startPos r)
    as (res & r1 & Hatt & _).
  rewrite Hatt; simpl.
  destruct (L <=? Z.of_nat (length res)) eqn:Hreach.
  { apply Z.leb_le in Hreach. exists res, r1. split; [done|]. left.
    exists 0%nat. split_and!; [lia|done|done|]. intros j ?. lia. }
  apply Z.leb_gt in Hreach.
  set (best' := match bestPath with
                | Some best => if (length best <? length res)%nat
                               then Some res else Some best
                | None => Some res
                end).
  assert (∀ b, best' = Some b →
               Z.of_nat (length b) < L ∧ (length res ≤ length b)%nat
               ∧ (b = res ∨ bestPath = Some b)
               ∧ ∀ b0, bestPath = Some b0 → (length b0 ≤ length b)%nat) as Hb'.
  { intros b. unfold best'. destruct bestPath as [best|].
    - destruct (length best <? length res)%nat eqn:Hcmp.
      + apply Nat.ltb_lt in Hcmp. intros [= <-].
        split_and!; [done|done|by left|]. intros ? [= <-]. lia.
      + apply Nat.ltb_ge in Hcmp. intros [= <-].
        split_and!; [by apply Hbest|done|by right|]. by intros ? [= <-].
    - intros [= <-]. split_and!; [done|done|by left|done]. }
  destruct (IH best' r1) as (path & r' & Hloop & Hcases).
  { intros b Hb. by apply Hb' in Hb as [? _]. }
  { right. unfold best'. by repeat case_match. }
  exists path, r'. split; [done|].
  destruct Hcases as [(k & Hk & Hak & HL & Hprev)|(Hshort & Hall & Hfrom & Hmax & Hr')].
  - left. exists (S k). split_and!; [lia|by simpl; rewrite Hatt|done|].
    intros [|j] Hj; [by eauto|]. simpl. rewrite Hatt; simpl. apply Hprev. lia.
  - assert (∀ b, best' = Some b → (length b ≤ length path)%nat) as Hmax' by done.
    assert (is_Some best') as [b0 Hb0] by (unfold best'; by repeat case_match).
    destruct (Hb' _ Hb0) as (_ & Hres & _ & Hold). specialize (Hmax' _ Hb0).
    right. split_and!; [done| | | |].
    + intros [|j] Hj.
      * exists res, r1. split_and!; [done|done|lia].
      * simpl. rewrite Hatt; simpl. apply Hall. lia.
    + destruct Hfrom as [Hfrom|(k & rk & Hk & Hak)].
      * destruct (Hb' _ Hfrom) as (_ & _ & [->|?] & _); [|by left].
        right. exists 0%nat, r1. split; [lia|done].
      * right. exists (S k), rk. split; [lia|]. simpl. by rewrite Hatt.
    + intros b Hb. specialize (Hold _ Hb). lia.
    + destruct n as [|m]; [by subst; eauto|].
      destruct Hr' as [p Hp]. exists p. simpl. by rewrite Hatt.
Qed.
End Retry.

Section NoDeadEnd.
Context `{ArraySort} (rows columns pathLength : Z).
Variable I : list GridPos → gmap string bool → Prop.

Hypothesis I_nonempty : ∀ path v, I path v → path ≠ [].
Hypothesis I_live : ∀ path v cur,
  I path v → Z.of_nat (length path) < pathLength → last path = Some cur →
  validNeighborsOf rows columns v cur ≠ [].
Hypothesis I_extend : ∀ path v cur n,
  I path v → Z.of_nat (length path) < pathLength → last path = Some cur →
  n ∈ validNeighborsOf rows columns v cur →
  I (path ++ [n]) (<[keyOf n := true]> v).

Lemma walk_no_dead_end budget path v r :
  I path v →
  ∃ res r' v',
    walk budget rows columns pathLength path v r = Some (res, r') ∧ I res v'
    ∧ (pathLength ≤ Z.of_nat (length path) + Z.of_nat budget →
       pathLength ≤ Z.of_nat (length res)).
Proof.
  revert path v r. induction budget as [|budget IH]; intros path v r HI; simpl.
  { exists path, r, v. split_and!; [done|done|lia]. }
  destruct (Z.of_nat (length path) <? pathLength) eqn:Hlt.
  2: { apply Z.ltb_ge in Hlt. exists path, r, v. done. }
  apply Z.ltb_lt in Hlt.
  destruct (last path) as [cur|] eqn:Hlast; simpl.
  2: { apply last_None in Hlast. by apply I_nonempty in HI. }
  fold (validNeighborsOf rows columns v cur).
  pose proof (I_live path v cur HI Hlt Hlast) as Hne.
  destruct (length (validNeighborsOf rows columns v cur) =? 0)%nat eqn:Hvn.
  { by apply Nat.eqb_eq, nil_length_inv in Hvn. }
  destruct (pick_first rows columns pathLength v _ r Hne) as (nextPos & Hhd & Hin).
  destruct (if 23 <=? pathLength then _ else _) as [sorted r']; simpl in *.
  rewrite Hhd; simpl. rewrite mkPos_eta.
  destruct (IH (path ++ [nextPos]) (<[keyOf nextPos := true]> v) r')
    as (res & r'' & v' & Hw & HI' & Hlen); [by eapply I_extend|].
  exists res, r'', v'. split_and!; [done|done|].
  intros Hb. apply Hlen. rewrite length_app; simpl. lia.
Qed.
End NoDeadEnd.

Section SearchSpace.
Context (rows columns : Z) (start : GridPos) (pathLength : Z).

(** No walk of fewer than [pathLength] cells is stuck. *)
Hypothesis Hlive : ∀ k, Z.of_nat k + 1 < pathLength →
  Forall (λ p, extensions rows columns p ≠ []) (selfAvoidingWalks rows columns start k).

Lemma fresh_neighbor path v cur n :
  WalkInv path v →
  n ∈ validNeighborsOf rows columns v cur ↔
  n ∈ filter (λ n, n ∉ path) (getNeighbors (pos_x cur) (pos_z cur) rows columns).
Proof.
  intros HW. rewrite elem_of_validNeighborsOf, list_elem_of_filter.
  rewrite <-(inv_visited _ _ HW). destruct (isVisited v (keyOf n)); intuition congruence.
Qed.

Lemma SearchInv_live path v cur :
  SearchInv rows columns start path v → Z.of_nat (length path) < pathLength → last path = Some cur →
  validNeighborsOf rows columns v cur ≠ [].
Proof.
  intros [HW Hin] Hlt Hlast Hnil.
  assert (Z.of_nat (length path - 1) + 1 < pathLength) as Hk.
  { destruct path; [done|simpl in *; lia]. }
  pose proof (Hlive _ Hk) as Hall. rewrite Forall_forall in Hall.
  apply Hall in Hin. apply Hin. unfold extensions. rewrite Hlast.
  destruct (filter _ _) as [|n l] eqn:Hf; [done|].
  assert (n ∈ validNeighborsOf rows columns v cur) as Hn.
  { apply (fresh_neighbor path); [done|]. rewrite Hf. left. }
  rewrite Hnil in Hn. by apply elem_of_nil in Hn.
Qed.

Lemma SearchInv_extend path v cur n :
  SearchInv rows columns start path v → last path = Some cur →
  n ∈ validNeighborsOf rows columns v cur →
  SearchInv rows columns start (path ++ [n]) (<[keyOf n := true]> v).
Proof.
  intros [HW Hin] Hlast Hn. split.
  - apply elem_of_validNeighborsOf in Hn as Hn'. destruct Hn' as [Hnb Hv].
    apply getNeighbors_adjacent in Hnb as [_ Hadj]. by eapply WalkInv_extend.
  - replace (length (path ++ [n]) - 1)%nat with (S (length path - 1)).
    2: { rewrite length_app; simpl. destruct path; [by destruct HW|simpl; lia]. }
    simpl. apply list_elem_of_bind. exists path. split; [|done].
    unfold extensions. rewrite Hlast. apply list_elem_of_fmap.
    exists n. split; [done|]. by apply (fresh_neighbor path v).
Qed.

Lemma walk_reaches_length `{ArraySort} budget r :
  pathLength ≤ 1 + Z.of_nat budget →
  ∃ res r',
    walk budget rows columns pathLength [start] (<[keyOf start := true]> ∅) r
      = Some (res, r')
    ∧ pathLength ≤ Z.of_nat (length res).
Proof.
  intros Hb.
  destruct (walk_no_dead_end rows columns pathLength (SearchInv rows columns start)) with
    (budget := budget) (path := [start]) (v := <[keyOf start := true]> (∅ : gmap string bool)) (r := r)
    as (res & r' & v' & Hw & _ & Hlen).
  - by intros ?? [[] _].
  - intros. by eapply SearchInv_live.
  - intros. by eapply SearchInv_extend.
  - split; [apply WalkInv_start|]. simpl. left.
  - exists res, r'. split; [done|]. apply Hlen. simpl. lia.
Qed.
End SearchSpace.

Lemma five_by_five_live k :
  Z.of_nat k + 1 < 5 →
  Forall (λ p, extensions 5 5 p ≠ []) (selfAvoidingWalks 5 5 (mkPos 2 4) k).
Proof.
  intros Hk.
  assert (k = 0 ∨ k = 1 ∨ k = 2 ∨ k = 3)%nat as [->|[->|[->| ->]]] by lia;
    vm_compute; repeat constructor; discriminate.
Qed.

Lemma first_attempt_5x5 `{ArraySort} r :
  ∃ res r', generatePathAttempt 5 5 5 (Some (mkPos 2 4)) r = Some (res, r')
            ∧ length res = 5%nat.
Proof.
  destruct (attempt_base 5 5 5 ltac:(lia) ltac:(lia) (Some (mkPos 2 4)) r)
    as (res & r' & Hatt & _ & _ & _ & Hle).
  exists res, r'. split; [done|].
  destruct (walk_reaches_length 5 5 (mkPos 2 4) 5 five_by_five_live
              (Z.to_nat (5 * 100)) r) as (res0 & r0 & Hw & Hge); [lia|].
  change (generatePathAttempt 5 5 5 (Some (mkPos 2 4)) r)
    with (walk (Z.to_nat (5 * 100)) 5 5 5 [mkPos 2 4]
            (<[keyOf (mkPos 2 4) := true]> ∅) r) in Hatt.
  rewrite Hatt in Hw. injection Hw as <- <-. lia.
Qed.

(** The properties of every returned path. *)
Lemma generatePath_props `{ArraySort} rows columns pathLength startPos r :
  1 ≤ rows → 1 ≤ columns →
  ∃ path r',
    generatePath rows columns pathLength startPos r = Some (path, r')
    ∧ connected path
    ∧ NoDup path
    ∧ Z.of_nat (length path) ≤ rows * columns
    ∧ ((∀ s, startPos = Some s → inBounds rows columns s) →
       Forall (inBounds rows columns) path).
Proof.
  intros Hrows Hcols. unfold generatePath.
  set (L := Z.min pathLength (rows * columns)).
  apply (retryLoop_result rows columns L Hrows Hcols
           (λ path, connected path ∧ NoDup path
                    ∧ Z.of_nat (length path) ≤ rows * columns
                    ∧ ((∀ s, startPos = Some s → inBounds rows columns s) →
                       Forall (inBounds rows columns) path))).
  - intros r0 res r' Hatt.
    destruct (attempt_base rows columns L Hrows Hcols startPos r0)
      as (res0 & r0' & Hatt0 & _ & Hnd & Hc & Hlen).
    rewrite Hatt in Hatt0. simplify_eq. split_and!; [done|done|nia|].
    intros Hs. by eapply attempt_bounds.
  - done.
  - left. unfold MAX_RETRIES. lia.
Qed.

Lemma bottom_start_inBounds rows columns :
  1 ≤ rows → 1 ≤ columns → inBounds rows columns (mkPos (columns `div` 2) (rows - 1)).
Proof.
  intros Hrows Hcols. unfold inBounds; simpl.
  pose proof (Z.div_pos columns 2). pose proof (Z.div_lt columns 2). lia.
Qed.

End PathFacts.

(** ** The grid *)

Module GridFacts.
Import MathHelpers PathGenerator GridManager.
Import ArraySpec PathSpec GridSpec ArrayFacts PathFacts.



Lemma isValidTilePosition_spec g x z :
  isValidTilePosition g x z = true ↔
  0 ≤ x < columns (gridConfig g) ∧ 0 ≤ z < rows (gridConfig g).
Proof. unfold isValidTilePosition, isValidGridPosition. lia. Qed.


Lemma markTile_valid st color g x z :
  wf g → isValidTilePosition g x z = true →
  ∃ trow a orow o,
    tiles (gridConfig g) !! Z.to_nat z = Some trow ∧ trow !! Z.to_nat x = Some a
    ∧ tileObjects (gridConfig g) !! Z.to_nat z = Some orow ∧ orow !! Z.to_nat x = Some o
    ∧ markTile st color g x z
      = Some (setArrays
                (<[Z.to_nat z := <[Z.to_nat x := setState st a]> trow]> (tiles (gridConfig g)))
                (<[Z.to_nat z := <[Z.to_nat x := setTileColor o color]> orow]>
                   (tileObjects (gridConfig g)))
                (triggerObjects (gridConfig g)) g).
Proof.
  intros [HT HO] Hv. pose proof Hv as Hv'. apply isValidTilePosition_spec in Hv' as [Hx Hz].
  destruct (update2_Some (setState st) _ _ _ z x HT) as (trow & a & Htr & Ha & Hup);
    [lia..|].
  destruct (update2_Some id _ _ _ z x HO) as (orow & o & Hor & Ho & _); [lia..|].
  exists trow, a, orow, o. split_and!; [done..|].
  unfold markTile. rewrite Hv; simpl.
  assert (at_index (tileObjects (gridConfig g)) z = Some orow) as ->
    by (apply at_index_Some; split; [lia|done]).
  simpl. rewrite Hup; simpl.
  assert (at_index orow x = Some o) as -> by (apply at_index_Some; split; [lia|done]).
  done.
Qed.



Lemma markTile_wf st color g x z g' :
  wf g → markTile st color g x z = Some g' →
  wf g' ∧ pathData g' = pathData g ∧ script g' = script g
  ∧ rows (gridConfig g') = rows (gridConfig g)
  ∧ columns (gridConfig g') = columns (gridConfig g).
Proof.
  intros Hwf. destruct (isValidTilePosition g x z) eqn:Hv.
  - destruct (markTile_valid st color g x z Hwf Hv)
      as (trow & a & orow & o & Htr & Ha & Hor & Ho & ->).
    intros [= <-]. split_and!; try done. destruct Hwf as [HT HO]. split; simpl.
    + apply shape2_insert; [done|]. rewrite length_insert. by eapply shape2_lookup.
    + apply shape2_insert; [done|]. rewrite length_insert. by eapply shape2_lookup.
  - unfold markTile. rewrite Hv; simpl. by intros [= <-].
Qed.

Lemma markTile_total st color g x z : wf g → is_Some (markTile st color g x z).
Proof.
  intros Hwf. destruct (isValidTilePosition g x z) eqn:Hv.
  - destruct (markTile_valid st color g x z Hwf Hv) as (?&?&?&?&_&_&_&_&->). eauto.
  - unfold markTile. rewrite Hv; simpl. eauto.
Qed.









Lemma markPathCell_loop thePath g :
  wf g →
  Forall (inBounds (rows (gridConfig g)) (columns (gridConfig g))) thePath →
  ∃ g', forLoop (markPathCell thePath) (seqZ 0 (Z.of_nat (length thePath))) g = Some g'
        ∧ wf g' ∧ pathData g' = pathData g.
Proof.
  intros Hwf Hb.
  destruct (forLoop_invariant
              (λ s, wf s ∧ pathData s = pathData g
                    ∧ rows (gridConfig s) = rows (gridConfig g)
                    ∧ columns (gridConfig s) = columns (gridConfig g))
              (markPathCell thePath) (seqZ 0 (Z.of_nat (length thePath))) g)
    as (g' & Hloop & Hwf' & Hpd & _); [|done|by eauto].
  intros i s Hi ([HT HO] & Hpd & Hr & Hc). apply elem_of_seqZ in Hi.
  destruct (lookup_lt_is_Some_2 thePath (Z.to_nat i)) as [pos Hpos]; [lia|].
  pose proof (Forall_lookup_1 _ _ _ _ Hb Hpos) as [Hx Hz].
  destruct (update2_Some
              (markPathTile i (if i =? 0 then st_start
                               else if i =? Z.of_nat (length thePath) - 1 then st_end
                               else st_path))
              _ _ _ (pos_z pos) (pos_x pos) HT)
    as (row & a & Hrow & Ha & Hup); [lia..|].
  unfold markPathCell.
  assert (at_index thePath i = Some pos) as -> by (apply at_index_Some; split; [lia|done]).
  simpl. rewrite Hup. simpl. eexists. split; [done|].
  split_and!; try done. split; simpl; [|done].
  apply shape2_insert; [done|]. rewrite length_insert. by eapply shape2_lookup.
Qed.

Lemma generateNewPath_total `{ArraySort} pathLength g r :
  wf g → 1 ≤ rows (gridConfig g) → 1 ≤ columns (gridConfig g) →
  ∃ thePath g' r', generateNewPath pathLength g r = Some (thePath, g', r') ∧ wf g'.
Proof.
  intros Hwf Hrows Hcols. unfold generateNewPath, generatePathFromBottom.
  destruct (generatePath_props (rows (gridConfig g)) (columns (gridConfig g)) pathLength
              (Some (mkPos (columns (gridConfig g) `div` 2) (rows (gridConfig g) - 1))) r
              Hrows Hcols) as (thePath & r' & -> & _ & _ & _ & Hb).
  simpl.
  destruct (markPathCell_loop thePath
              (setPathData {| path := thePath; isRevealed := isRevealed (pathData g) |} g))
    as (g' & -> & Hwf' & _); [done| |simpl; eauto].
  apply Hb. intros s [= <-]. by apply bottom_start_inBounds.
Qed.


End GridFacts.

(** ** The triggers *)

Module TriggerFacts.
Import TileTrigger TriggerSpec.



End TriggerFacts.

(** ** The validator *)

Module TrackerFacts.
Import MathHelpers PlayerTracker.
Import ArraySpec GridSpec TrackerSpec ArrayFacts PathFacts GridFacts.

Lemma stepEvents_app l1 l2 : stepEvents (l1 ++ l2) = stepEvents l1 ++ stepEvents l2.
Proof. apply filter_app. Qed.

Lemma isSameGridPosition_true p q :
  isSameGridPosition (Some p) (Some q) = true ↔ p = q.
Proof.
  destruct p, q; simpl. rewrite andb_true_iff, !Z.eqb_eq.
  split; [by intros [-> ->]|by intros [= -> ->]].
Qed.

Lemma isSameGridPosition_Some p o :
  isSameGridPosition (Some p) o = true ↔ o = Some p.
Proof.
  destruct o as [q|]; [|done]. rewrite isSameGridPosition_true. naive_solver.
Qed.

Lemma emitted_emit b e w : emitted (emit b e w) = emitted w ++ (if b then [e] else []).
Proof. destruct b; simpl; [done|by rewrite app_nil_r]. Qed.

Lemma emit_fields b e w :
  trackingState (emit b e w) = trackingState w
  ∧ callbacks (emit b e w) = callbacks w
  ∧ gridManager (emit b e w) = gridManager w
  ∧ debugConfig (emit b e w) = debugConfig w.
Proof. by destruct b. Qed.

Lemma stepEvents_tileNotices w p : stepEvents (tileNotices w p) = [].
Proof. unfold tileNotices. by repeat case_match. Qed.

(** One correct entry in normal mode. *)
Lemma handleTriggerEntered_correct w g p :
  isTracking (trackingState w) = true →
  currentTile (trackingState w) ≠ Some p →
  gridManager w = Some g → wf g →
  Constants.SKIP_PATH_CHECK (debugConfig w) = false →
  GridManager.getPath g !! pathProgress (trackingState w) = Some p →
  ∃ g',
    GridManager.markTileCorrect g (pos_x p) (pos_z p) = Some g'
    ∧ handleTriggerEntered (pos_x p) (pos_z p) w =
      Some {| trackingState :=
                {| isTracking := true;
                   pathProgress := S (pathProgress (trackingState w));
                   stepsOnPath := stepsOnPath (trackingState w) ++ [p];
                   currentTile := Some p |};
              callbacks := callbacks w;
              gridManager := Some g';
              debugConfig := debugConfig w;
              emitted :=
                emitted w ++ tileNotices w p
                ++ (if onCorrectStep (callbacks w)
                    then [CorrectStep p (S (pathProgress (trackingState w)))
                            (length (GridManager.getPath g))]
                    else [])
                ++ (if (length (GridManager.getPath g) <=? S (pathProgress (trackingState w)))%nat
                       && onPathCompleted (callbacks w)
                    then [PathCompleted (stepsOnPath (trackingState w) ++ [p])]
                    else []) |}.
Proof.
  intros Htr Hcur Hg Hwf Hskip Hexp.
  destruct (markTile_total GridManager.st_correct GridManager.TILE_CORRECT g
              (pos_x p) (pos_z p) Hwf) as [g' Hg'].
  exists g'. split; [done|].
  destruct w as [[tr pp steps cur] cbs gm dbg log]; simpl in *. subst.
  unfold handleTriggerEntered; simpl. rewrite mkPos_eta.
  destruct (isSameGridPosition (Some p) cur) eqn:Hsame.
  { apply isSameGridPosition_Some in Hsame. by subst. }
  assert (∀ w0, gridManager w0 = Some g → debugConfig w0 = dbg →
                trackingState w0 = {| isTracking := true; pathProgress := pp;
                                      stepsOnPath := steps; currentTile := Some p |} →
                callbacks w0 = cbs →
                validateStep p w0 =
                Some {| trackingState :=
                          {| isTracking := true; pathProgress := S pp;
                             stepsOnPath := steps ++ [p]; currentTile := Some p |};
                        callbacks := cbs; gridManager := Some g'; debugConfig := dbg;
                        emitted :=
                          emitted w0
                          ++ (if onCorrectStep cbs
                              then [CorrectStep p (S pp) (length (GridManager.getPath g))]
                              else [])
                          ++ (if (length (GridManager.getPath g) <=? S pp)%nat
                                 && onPathCompleted cbs
                              then [PathCompleted (steps ++ [p])] else []) |}) as Hval.
  { intros [tr0 cbs0 gm0 dbg0 log0]; simpl. intros -> -> -> ->.
    unfold validateStep; simpl.
    destruct (length (GridManager.getPath g) =? 0)%nat eqn:Hlen.
    { apply Nat.eqb_eq, nil_length_inv in Hlen. by rewrite Hlen in Hexp. }
    rewrite Hskip, Hexp; simpl.
    rewrite !Z.eqb_refl; simpl.
    unfold GridManager.markTileCorrect in Hg'. unfold GridManager.markTileCorrect.
    rewrite Hg'; simpl.
    destruct (onCorrectStep cbs), (length (GridManager.getPath g) <=? S pp)%nat,
      (onPathCompleted cbs); simpl; rewrite <-?app_assoc, ?app_nil_r; done. }
  unfold tileNotices; simpl.
  destruct cur as [q|], (onTileExited cbs) eqn:Hex, (onTileEntered cbs) eqn:Hen; simpl;
    rewrite Hval by done; simpl; simpl in Hsame; rewrite ?Hsame;
    rewrite <-?app_assoc, ?app_nil_r; done.
Qed.

Lemma correctSteps_cons from total p tiles :
  correctSteps from total (p :: tiles)
  = CorrectStep p (S from) total :: correctSteps (S from) total tiles.
Proof.
  unfold correctSteps. rewrite imap_cons. f_equal; [by rewrite Nat.add_0_r|].
  apply imap_ext. intros i q _. simpl. f_equal. lia.
Qed.

Lemma enterTiles_path todo : ∀ done w g,
  NoDup (done ++ todo) →
  isTracking (trackingState w) = true →
  pathProgress (trackingState w) = length done →
  stepsOnPath (trackingState w) = done →
  currentTile (trackingState w) = last done →
  gridManager w = Some g → wf g → GridManager.getPath g = done ++ todo →
  Constants.SKIP_PATH_CHECK (debugConfig w) = false →
  onCorrectStep (callbacks w) = true → onPathCompleted (callbacks w) = true →
  ∃ w',
    enterTiles todo w = Some w'
    ∧ isTracking (trackingState w') = true
    ∧ pathProgress (trackingState w') = length (done ++ todo)
    ∧ stepsOnPath (trackingState w') = done ++ todo
    ∧ stepEvents (emitted w') =
      stepEvents (emitted w)
      ++ correctSteps (length done) (length (done ++ todo)) todo
      ++ match todo with
         | [] => []
         | _ => [PathCompleted (done ++ todo)]
         end.
Proof.
  induction todo as [|p rest IH];
    intros done w g Hnd Htr Hpp Hsteps Hcur Hg Hwf Hpath Hskip Hcs Hpc.
  { exists w. rewrite app_nil_r. simpl. by rewrite app_nil_r. }
  assert (currentTile (trackingState w) ≠ Some p) as Hne.
  { rewrite Hcur. intros Hlast. apply last_Some in Hlast as [l' ->].
    apply NoDup_app in Hnd as (_ & Hdisj & _).
    apply (Hdisj p); [apply elem_of_app; right; left|left]. }
  assert (GridManager.getPath g !! pathProgress (trackingState w) = Some p) as Hexp.
  { rewrite Hpath, Hpp. by apply list_lookup_middle. }
  destruct (handleTriggerEntered_correct w g p Htr Hne Hg Hwf Hskip Hexp)
    as (g' & Hmark & Hstep).
  destruct (markTile_wf _ _ _ _ _ _ Hwf Hmark) as (Hwf' & Hpd & _).
  assert (GridManager.getPath g' = (done ++ [p]) ++ rest) as Hpath'.
  { unfold GridManager.getPath in *. by rewrite Hpd, Hpath, <-app_assoc. }
  rewrite correctSteps_cons. simpl. rewrite Hstep. simpl.
  match goal with |- context [enterTiles rest ?w0] => set (w1 := w0) end.
  destruct (IH (done ++ [p]) w1 g') as (w' & Hrun & Htr' & Hpp' & Hsteps' & Hev);
    try done.
  - by rewrite <-app_assoc.
  - simpl. rewrite length_app; simpl. lia.
  - simpl. by rewrite Hsteps.
  - simpl. by rewrite last_snoc.
  - exists w'. rewrite <-app_assoc in Hpp', Hsteps', Hev. simpl in Hpp', Hsteps', Hev.
    split_and!; [done..|]. rewrite Hev. unfold w1; simpl.
    rewrite Hcs, Hpc, Hpath, Hpp, andb_true_r.
    rewrite !stepEvents_app, stepEvents_tileNotices. simpl.
    rewrite <-!app_assoc. f_equal. simpl. f_equal.
    replace (length (done ++ [p])) with (S (length done))
      by (rewrite length_app; simpl; lia).
    destruct rest as [|q rest].
    + replace (length (done ++ [p]) <=? S (length done))%nat with true
        by (symmetry; apply Nat.leb_le; rewrite length_app; simpl; lia).
      by rewrite Hsteps.
    + replace (length (done ++ p :: q :: rest) <=? S (length done))%nat with false
        by (symmetry; apply Nat.leb_gt; rewrite length_app; simpl; lia).
      done.
Qed.

End TrackerFacts.

(** ** Shuffles and directions *)

Module HelperFacts.
Import MathHelpers PathGenerator PathSpec PathFacts DirectionSpec.

Lemma insert_Permutation {A} (l : list A) j a b :
  l !! j = Some b → <[j := a]> l ≡ₚ a :: delete j l.
Proof.
  revert j. induction l as [|c l IH]; intros [|j] Hj; simplify_eq/=; [done|].
  rewrite (IH j Hj). apply Permutation_swap.
Qed.

Lemma swap_Permutation {A} i j (l : list A) : swap i j l ≡ₚ l.
Proof.
  unfold swap. destruct (l !! i) as [a|] eqn:Hi; [|done].
  destruct (l !! j) as [b|] eqn:Hj; [|done].
  revert i j Hi Hj. induction l as [|c l IH]; intros [|i] [|j] Hi Hj; simplify_eq/=.
  - done.
  - rewrite (insert_Permutation l j a b Hj).
    rewrite (delete_Permutation l j b Hj) at 2. apply Permutation_swap.
  - rewrite (insert_Permutation l i b a Hi).
    rewrite (delete_Permutation l i a Hi) at 2. apply Permutation_swap.
  - by rewrite (IH i j).
Qed.

Lemma shuffleFrom_Permutation {A} i (l : list A) r : (shuffleFrom i l r).1 ≡ₚ l.
Proof.
  revert l r. induction i as [|i IH]; intros l r; simpl; [done|].
  destruct (randomInt 0 _ r) as [j r']. by rewrite IH, swap_Permutation.
Qed.

Lemma stepsValid_spec prev rest :
  stepsValid prev rest = true ↔ connected (prev :: rest).
Proof.
  revert prev. induction rest as [|curr rest IH]; intros prev; simpl.
  - split; [intros _; apply connected_singleton|done].
  - destruct (negb _) eqn:Hstep.
    + split; [done|]. intros Hc. specialize (Hc 0%nat prev curr eq_refl eq_refl).
      apply negb_true_iff in Hstep. unfold manhattan in Hc.
      apply orb_false_iff in Hstep as [H1 H2].
      apply andb_false_iff in H1, H2. rewrite !Z.eqb_neq in H1, H2. lia.
    + apply negb_false_iff in Hstep. rewrite IH. split.
      * intros Hc [|i] a b Ha Hb; simplify_eq/=; [|by eapply Hc].
        unfold manhattan.
        apply orb_true_iff in Hstep as [H1|H1];
          apply andb_true_iff in H1; rewrite !Z.eqb_eq in H1; lia.
      * intros Hc i a b Ha Hb. by apply (Hc (S i)).
Qed.

Lemma directionsFrom_length prev rest : length (directionsFrom prev rest) = length rest.
Proof. revert prev. induction rest; intros; simpl; [done|]. by f_equal. Qed.

Lemma move_getDirection p q :
  manhattan p q = 1 → move p (getDirection p q) = Some q.
Proof.
  destruct p as [x z], q as [x' z']. unfold manhattan, getDirection, move; simpl.
  intros Hadj.
  destruct (Z.ltb_spec 0 (z' - z)); [simpl; f_equal; f_equal; lia|].
  destruct (Z.ltb_spec (z' - z) 0); [simpl; f_equal; f_equal; lia|].
  destruct (Z.ltb_spec 0 (x' - x)); [simpl; f_equal; f_equal; lia|].
  destruct (Z.ltb_spec (x' - x) 0); [simpl; f_equal; f_equal; lia|].
  lia.
Qed.

Lemma follow_directionsFrom prev rest :
  connected (prev :: rest) → follow prev (directionsFrom prev rest) = Some (prev :: rest).
Proof.
  revert prev. induction rest as [|curr rest IH]; intros prev Hc; simpl; [done|].
  rewrite move_getDirection by apply (Hc 0%nat prev curr eq_refl eq_refl). simpl.
  rewrite IH; [done|]. intros i a b Ha Hb. by apply (Hc (S i)).
Qed.

End HelperFacts.

(** ** Start cells and degenerate grids *)

Module GeneratorEdgeFacts.
Import MathHelpers PathGenerator PathSpec PathFacts PerimeterSpec.

Lemma edgePositions_onPerimeter rows columns p :
  1 ≤ rows → 1 ≤ columns → p ∈ edgePositions rows columns → onPerimeter rows columns p.
Proof.
  intros Hr Hc Hp. split; [by apply edgePositions_inBounds|].
  revert Hp. unfold edgePositions.
  rewrite !elem_of_app, !list_elem_of_fmap.
  intros [(x&->&Hx)|[(x&->&Hx)|[(x&->&Hx)|(x&->&Hx)]]]; simpl; auto.
Qed.

Lemma getRandomEdgePosition_elem rows columns r s :
  (getRandomEdgePosition rows columns r).1 = Some s → s ∈ edgePositions rows columns.
Proof.
  unfold getRandomEdgePosition.
  destruct (randomInt 0 _ r) as [index r']; simpl.
  unfold at_index. case_match; [done|]. apply list_elem_of_lookup_2.
Qed.



(** A walk that is asked for no more than it has stops at once. *)
Lemma walk_done `{ArraySort} budget rows columns pathLength path v r :
  pathLength ≤ Z.of_nat (length path) →
  walk budget rows columns pathLength path v r = Some (path, r).
Proof.
  intros Hle. destruct budget as [|budget]; simpl; [done|].
  destruct (Z.ltb_spec (Z.of_nat (length path)) pathLength); [lia|done].
Qed.

Lemma attempt_head_perimeter `{ArraySort} rows columns L r res r' :
  1 ≤ rows → 1 ≤ columns → L ≤ rows * columns →
  generatePathAttempt rows columns L None r = Some (res, r') →
  ∃ s, head res = Some s ∧ onPerimeter rows columns s.
Proof.
  intros Hrows Hcols HL. unfold generatePathAttempt.
  destruct (getRandomEdgePosition rows columns r) as [so r0] eqn:Hedge.
  destruct so as [s|]; simpl; [|done].
  assert (s ∈ edgePositions rows columns) as Hs.
  { apply (getRandomEdgePosition_elem rows columns r). by rewrite Hedge. }
  apply edgePositions_onPerimeter in Hs as Hper; [|done..].
  rewrite mkPos_eta.
  destruct (walk_head rows columns L Hrows Hcols s (Z.to_nat (L * 100)) [s]
              (<[keyOf s := true]> ∅) r0 (proj1 Hper) HL)
    as (res0 & r0' & v' & Hw & [HW Hhd]).
  { split; [apply WalkInv_start|done]. }
  rewrite Hw. intros [= <- <-]. eauto.
Qed.

Lemma retryLoop_first `{ArraySort} n rows columns L startPos best r res r' :
  generatePathAttempt rows columns L startPos r = Some (res, r') →
  L ≤ Z.of_nat (length res) →
  retryLoop (S n) rows columns L startPos best r = Some (res, r').
Proof.
  intros Hatt Hlen. cbn [retryLoop]. rewrite Hatt. cbn [mbind option_bind].
  destruct (Z.leb_spec L (Z.of_nat (length res))); [done|lia].
Qed.

Lemma attempt_single `{ArraySort} rows columns L s r :
  L ≤ 1 → generatePathAttempt rows columns L (Some s) r = Some ([s], r).
Proof.
  intros HL. unfold generatePathAttempt. cbn [mbind option_bind]. rewrite mkPos_eta.
  apply walk_done. simpl. lia.
Qed.

End GeneratorEdgeFacts.

(** ** Cells of the grid *)

Module GridCellFacts.
Import MathHelpers PathGenerator GridManager.
Import ArraySpec PathSpec GridSpec ArrayFacts PathFacts GridFacts.

Lemma cells_lookup {A} rows columns (cell : Z → Z → A) x z :
  0 ≤ x < columns → 0 ≤ z < rows →
  ∃ row, cells rows columns cell !! Z.to_nat z = Some row
         ∧ row !! Z.to_nat x = Some (cell x z).
Proof.
  intros Hx Hz. unfold cells. eexists. split.
  - rewrite list_lookup_fmap, (lookup_seqZ_lt 0 rows (Z.to_nat z)) by lia. simpl. done.
  - rewrite list_lookup_fmap, (lookup_seqZ_lt 0 columns (Z.to_nat x)) by lia. simpl.
    f_equal. f_equal; lia.
Qed.

Lemma cells_shape {A} rows columns (cell : Z → Z → A) :
  shape2 (Z.to_nat rows) (Z.to_nat columns) (cells rows columns cell).
Proof.
  unfold cells, shape2. rewrite length_fmap, length_seqZ. split; [done|].
  apply Forall_fmap, Forall_forall. intros z _. simpl.
  by rewrite length_fmap, length_seqZ.
Qed.

Lemma getTileAt_lookup g x z :
  isValidTilePosition g x z = true →
  getTileAt g x z = tiles (gridConfig g) !! Z.to_nat z ≫= (.!! Z.to_nat x).
Proof.
  intros Hv. unfold getTileAt. rewrite Hv. simpl.
  apply isValidTilePosition_spec in Hv as [Hx Hz].
  unfold at_index. destruct (Z.ltb_spec z 0); [lia|].
  destruct (tiles (gridConfig g) !! Z.to_nat z) as [row|]; simpl; [|done].
  destruct (Z.ltb_spec x 0); [lia|done].
Qed.

Lemma getTileAt_invalid g x z :
  isValidTilePosition g x z = false → getTileAt g x z = None.
Proof. intros Hv. unfold getTileAt. by rewrite Hv. Qed.




Lemma lookup2_insert {A} (m : list (list A)) z x row v z' x' :
  m !! z = Some row → (x < length row)%nat →
  <[z := <[x := v]> row]> m !! z' ≫= (.!! x')
  = if decide (z' = z ∧ x' = x) then Some v else m !! z' ≫= (.!! x').
Proof.
  intros Hrow Hx. apply lookup_lt_Some in Hrow as Hz.
  destruct (decide (z' = z)) as [->|Hne].
  - rewrite list_lookup_insert_eq by done. simpl.
    destruct (decide (x' = x)) as [->|Hnx].
    + rewrite list_lookup_insert_eq by done. by rewrite decide_True.
    + rewrite list_lookup_insert_ne by done. rewrite decide_False by tauto.
      by rewrite Hrow.
  - rewrite list_lookup_insert_ne by done. by rewrite decide_False by tauto.
Qed.

Lemma markTile_getTileAt st color g x z g' x' z' :
  wf g → isValidTilePosition g x z = true → markTile st color g x z = Some g' →
  getTileAt g' x' z'
  = if decide (x' = x ∧ z' = z) then setState st <$> getTileAt g x z
    else getTileAt g x' z'.
Proof.
  intros Hwf Hv Hmark.
  destruct (markTile_valid st color g x z Hwf Hv)
    as (trow & a & orow & o & Htr & Ha & Hor & Ho & Heq).
  rewrite Heq in Hmark. injection Hmark as <-.
  destruct (isValidTilePosition g x' z') eqn:Hv'.
  - rewrite (getTileAt_lookup _ x' z') by done. cbn [gridConfig setArrays tiles].
    rewrite (lookup2_insert _ _ _ trow) by (done || by eapply lookup_lt_Some).
    apply isValidTilePosition_spec in Hv as [Hx Hz].
    apply isValidTilePosition_spec in Hv' as Hb'. destruct Hb' as [Hx' Hz'].
    destruct (decide (x' = x ∧ z' = z)) as [[-> ->]|Hne].
    + rewrite decide_True by done.
      rewrite (getTileAt_lookup g x z) by (apply isValidTilePosition_spec; lia).
      by rewrite Htr; simpl; rewrite Ha.
    + rewrite decide_False by lia. by rewrite (getTileAt_lookup g x' z').
  - rewrite (getTileAt_invalid _ x' z') by done.
    rewrite decide_False; [by rewrite getTileAt_invalid|].
    intros [-> ->]. congruence.
Qed.

End GridCellFacts.

(** ** Marking a path *)

Module MarkFacts.
Import MathHelpers PathGenerator GridManager.
Import ArraySpec PathSpec GridSpec MarkSpec ArrayFacts PathFacts GridFacts GridCellFacts.

Lemma markPathCell_prefix thePath g k :
  wf g → NoDup thePath →
  Forall (inBounds (rows (gridConfig g)) (columns (gridConfig g))) thePath →
  (k ≤ length thePath)%nat →
  ∃ s, forLoop (markPathCell thePath) (seqZ 0 (Z.of_nat k)) g = Some s
    ∧ wf s ∧ pathData s = pathData g
    ∧ rows (gridConfig s) = rows (gridConfig g)
    ∧ columns (gridConfig s) = columns (gridConfig g)
    ∧ (∀ i pos, (i < k)%nat → thePath !! i = Some pos →
         tiles (gridConfig s) !! Z.to_nat (pos_z pos) ≫= (.!! Z.to_nat (pos_x pos))
         = markPathTile (Z.of_nat i) (stateAt (length thePath) i)
             <$> (tiles (gridConfig g) !! Z.to_nat (pos_z pos)
                    ≫= (.!! Z.to_nat (pos_x pos))))
    ∧ (∀ zn xn,
         (∀ i pos, (i < k)%nat → thePath !! i = Some pos →
                   ¬ (zn = Z.to_nat (pos_z pos) ∧ xn = Z.to_nat (pos_x pos))) →
         tiles (gridConfig s) !! zn ≫= (.!! xn)
         = tiles (gridConfig g) !! zn ≫= (.!! xn)).
Proof.
  intros Hwf Hnd Hb. induction k as [|k IH]; intros Hk.
  { exists g. simpl. split_and!; try done. intros; lia. }
  destruct IH as (s & Hloop & Hwfs & Hpd & Hr & Hc & Hon & Hoff); [lia|].
  rewrite seqZ_S, forLoop_app, Hloop. simpl. rewrite Z.add_0_l.
  destruct (lookup_lt_is_Some_2 thePath k) as [pos Hpos]; [lia|].
  pose proof (Forall_lookup_1 _ _ _ _ Hb Hpos) as [Hx Hz].
  destruct Hwfs as [HT HO].
  set (st := if Z.of_nat k =? 0 then st_start
             else if Z.of_nat k =? Z.of_nat (length thePath) - 1 then st_end
             else st_path).
  destruct (update2_Some (markPathTile (Z.of_nat k) st) _ _ _ (pos_z pos) (pos_x pos) HT)
    as (row & a & Hrow & Ha & Hup); [lia..|].
  unfold markPathCell. rewrite at_index_of_nat, Hpos. simpl. fold st.
  rewrite Hup. simpl. eexists. split; [done|].
  assert (st = stateAt (length thePath) k) as Hst.
  { unfold st, stateAt.
    destruct (Z.eqb_spec (Z.of_nat k) 0), (Nat.eqb_spec k 0); try lia; [done|].
    destruct (Z.eqb_spec (Z.of_nat k) (Z.of_nat (length thePath) - 1)),
             (Nat.eqb_spec k (length thePath - 1)); try lia; done. }
  assert (∀ i pos', (i < k)%nat → thePath !! i = Some pos' →
            ¬ (Z.to_nat (pos_z pos') = Z.to_nat (pos_z pos)
               ∧ Z.to_nat (pos_x pos') = Z.to_nat (pos_x pos))) as Hfresh.
  { intros i pos' Hi Hpos' [Hz' Hx'].
    pose proof (Forall_lookup_1 _ _ _ _ Hb Hpos') as [Hx2 Hz2].
    assert (pos' = pos) as ->.
    { destruct pos, pos'. simpl in *. f_equal; lia. }
    pose proof (NoDup_lookup _ _ _ _ Hnd Hpos Hpos'). lia. }
  assert (row !! Z.to_nat (pos_x pos) = Some a) as Ha' by done.
  apply lookup_lt_Some in Ha' as Hlen.
  split_and!; try done.
  - split; simpl; [|done].
    apply shape2_insert; [done|]. rewrite length_insert. by eapply shape2_lookup.
  - intros i pos' Hi Hpos'. cbn [gridConfig setTiles setArrays tiles].
    rewrite (lookup2_insert _ _ _ row) by done.
    destruct (decide (i = k)) as [->|Hne].
    + rewrite Hpos in Hpos'. injection Hpos' as <-. rewrite decide_True by done.
      rewrite <-(Hoff (Z.to_nat (pos_z pos)) (Z.to_nat (pos_x pos))).
      * rewrite Hrow; simpl. by rewrite Ha, Hst.
      * intros j q Hj Hq [??]. by eapply (Hfresh j q).
    + rewrite decide_False; [apply Hon; [lia|done]|].
      intros [??]. by eapply (Hfresh i pos'); [lia|..].
  - intros zn xn Hnot. cbn [gridConfig setTiles setArrays tiles].
    rewrite (lookup2_insert _ _ _ row) by done.
    rewrite decide_False; [apply Hoff|].
    + intros i q Hi Hq. apply (Hnot i q); [lia|done].
    + intros [-> ->]. by eapply (Hnot k pos); [lia|..].
Qed.

End MarkFacts.

(** ** Sessions of the validator *)

Module TraceFacts.
Import MathHelpers PlayerTracker.
Import ArraySpec GridSpec TrackerSpec TraceSpec ArrayFacts PathFacts GridFacts TrackerFacts
  GridCellFacts.

Lemma markTile_pathData st color g x z g' :
  GridManager.markTile st color g x z = Some g' →
  GridManager.pathData g' = GridManager.pathData g.
Proof.
  unfold GridManager.markTile. case_match; [by intros [= <-]|].
  intros Hm. simplify_option_eq. done.
Qed.

Lemma validateStep_SessionInv P cbs p w w' :
  SessionInv P cbs w → validateStep p w = Some w' → SessionInv P cbs w'.
Proof.
  intros [(g & Hg & Hpath) Hmode Hcbs Harmed Hprog Hsteps]. unfold validateStep.
  rewrite Hg, Hpath, Hmode.
  destruct (length P =? 0)%nat; [intros [= <-]; by split; eauto|].
  destruct (isSameGridPosition (Some p) (P !! pathProgress (trackingState w))) eqn:Hsame.
  - apply isSameGridPosition_Some in Hsame.
    destruct (GridManager.markTileCorrect g (pos_x p) (pos_z p)) as [g'|] eqn:Hmark;
      simpl; [|done].
    apply markTile_pathData in Hmark as Hpd.
    apply lookup_lt_Some in Hsame as Hlt.
    assert (SessionInv P cbs
              (setTracking
                 {| isTracking := isTracking (trackingState w);
                    pathProgress := S (pathProgress (trackingState w));
                    stepsOnPath := stepsOnPath (trackingState w) ++ [p];
                    currentTile := currentTile (trackingState w) |} (setGrid g' w))) as Hinv.
    { split; simpl; try done.
      - exists g'. split; [done|]. unfold GridManager.getPath in *. by rewrite Hpd.
      - by rewrite (take_S_r _ _ _ Hsame), Hsteps. }
    assert (∀ b e w0, SessionInv P cbs w0 → SessionInv P cbs (emit b e w0)) as Hemit.
    { intros [] e w0 [??????]; by split. }
    case_match; intros [= <-]; auto.
  - destruct (GridManager.markTileWrong g (pos_x p) (pos_z p)) as [g'|] eqn:Hmark;
      simpl; [|done].
    apply markTile_pathData in Hmark as Hpd.
    destruct (P !! pathProgress (trackingState w)) as [expected|]; simpl; [|done].
    intros [= <-]. destruct (onWrongStep (callbacks w)); simpl; split; simpl; try done.
    all: exists g'; split; [done|]; unfold GridManager.getPath in *; by rewrite Hpd.
Qed.

Lemma handleTriggerEntered_SessionInv P cbs x z w w' :
  SessionInv P cbs w → handleTriggerEntered x z w = Some w' →
  SessionInv P cbs w' ∧ currentTile (trackingState w') = Some (mkPos x z).
Proof.
  intros Hinv. unfold handleTriggerEntered.
  rewrite (session_armed _ _ _ Hinv). cbn [negb].
  destruct (isSameGridPosition _ (currentTile (trackingState w))) eqn:Hsame.
  { apply isSameGridPosition_Some in Hsame. by intros [= <-]. }
  intros Hval.
  match type of Hval with validateStep _ ?w3 = _ => set (w0 := w3) in * end.
  assert (SessionInv P cbs w0 ∧ currentTile (trackingState w0) = Some (mkPos x z))
    as [Hinv0 Hcur0].
  { destruct Hinv as [??????]. unfold w0.
    destruct (currentTile (trackingState w)), (onTileExited (callbacks w)),
      (onTileEntered (callbacks w)); simpl; split; try done; by split. }
  split; [by eapply validateStep_SessionInv|].
  revert Hval. unfold validateStep. clearbody w0.
  repeat case_match; intros; simplify_option_eq;
    rewrite ?(proj1 (emit_fields _ _ _)); simpl;
    rewrite ?(proj1 (emit_fields _ _ _)); done.
Qed.

Lemma enterTiles_SessionInv P cbs entries w w' :
  SessionInv P cbs w → enterTiles entries w = Some w' →
  SessionInv P cbs w'
  ∧ currentTile (trackingState w')
    = match last entries with
      | Some p => Some p
      | None => currentTile (trackingState w)
      end.
Proof.
  revert w. induction entries as [|p entries IH]; intros w Hinv; simpl.
  { intros [= <-]. by split. }
  destruct (handleTriggerEntered (pos_x p) (pos_z p) w) as [w1|] eqn:Hstep; simpl; [|done].
  apply (handleTriggerEntered_SessionInv P cbs) in Hstep as [Hinv1 Hcur1]; [|done].
  intros Hrun. destruct (IH w1 Hinv1 Hrun) as [Hinv' Hcur']. split; [done|].
  rewrite Hcur'. destruct entries as [|q entries].
  - simpl. by rewrite Hcur1, mkPos_eta.
  - rewrite last_cons_cons. destruct (last (q :: entries)) eqn:Hl; [done|].
    by apply last_None in Hl.
Qed.

Lemma startTracking_SessionInv w g :
  gridManager w = Some g → Constants.SKIP_PATH_CHECK (debugConfig w) = false →
  SessionInv (GridManager.getPath g) (callbacks w) (startTracking w).
Proof.
  intros Hg Hmode. unfold startTracking; simpl. rewrite Hg.
  split; simpl; try done; [eauto|lia].
Qed.


(** An entry that finds no expected tile. *)
Lemma validateStep_past_the_end p w g :
  gridManager w = Some g → GridManager.getPath g ≠ [] →
  Constants.SKIP_PATH_CHECK (debugConfig w) = false →
  (length (GridManager.getPath g) ≤ pathProgress (trackingState w))%nat →
  validateStep p w = None.
Proof.
  intros Hg Hne Hmode Hprog. unfold validateStep. rewrite Hg, Hmode.
  destruct (length (GridManager.getPath g) =? 0)%nat eqn:Hlen.
  { apply Nat.eqb_eq, nil_length_inv in Hlen. done. }
  rewrite (lookup_ge_None_2 _ _ Hprog). cbn [isSameGridPosition].
  by destruct (GridManager.markTileWrong g (pos_x p) (pos_z p)).
Qed.

Lemma handleTriggerEntered_past_the_end q w g :
  gridManager w = Some g → GridManager.getPath g ≠ [] →
  Constants.SKIP_PATH_CHECK (debugConfig w) = false →
  isTracking (trackingState w) = true →
  (length (GridManager.getPath g) ≤ pathProgress (trackingState w))%nat →
  currentTile (trackingState w) ≠ Some q →
  handleTriggerEntered (pos_x q) (pos_z q) w = None.
Proof.
  intros Hg Hne Hmode Harmed Hprog Hcur. unfold handleTriggerEntered.
  rewrite Harmed. cbn [negb]. rewrite mkPos_eta.
  destruct (isSameGridPosition (Some q) (currentTile (trackingState w))) eqn:Hsame.
  { apply isSameGridPosition_Some in Hsame. done. }
  apply (validateStep_past_the_end q _ g); [|done| |];
    destruct (currentTile (trackingState w)), (onTileExited (callbacks w)),
      (onTileEntered (callbacks w)); simpl; done.
Qed.


Lemma markTile_getTileAt_any st color g x z g' x' z' :
  wf g → GridManager.markTile st color g x z = Some g' →
  GridManager.getTileAt g' x' z'
  = if decide (x' = x ∧ z' = z)
    then GridManager.setState st <$> GridManager.getTileAt g x z
    else GridManager.getTileAt g x' z'.
Proof.
  intros Hwf Hmark. destruct (GridManager.isValidTilePosition g x z) eqn:Hv.
  - by apply (markTile_getTileAt st color).
  - assert (g' = g) as ->.
    { unfold GridManager.markTile in Hmark. rewrite Hv in Hmark. by simplify_eq/=. }
    case_decide as Hd; [|done]. destruct Hd as [-> ->].
    by rewrite getTileAt_invalid.
Qed.

(** The world handed to [validateStep] by an armed entry of a new tile. *)
Lemma handleTriggerEntered_validates p w :
  isTracking (trackingState w) = true →
  currentTile (trackingState w) ≠ Some p →
  ∃ w0,
    handleTriggerEntered (pos_x p) (pos_z p) w = validateStep p w0
    ∧ gridManager w0 = gridManager w ∧ debugConfig w0 = debugConfig w
    ∧ callbacks w0 = callbacks w
    ∧ pathProgress (trackingState w0) = pathProgress (trackingState w)
    ∧ stepsOnPath (trackingState w0) = stepsOnPath (trackingState w)
    ∧ stepEvents (emitted w0) = stepEvents (emitted w).
Proof.
  intros Harmed Hcur. unfold handleTriggerEntered. rewrite Harmed. cbn [negb].
  rewrite mkPos_eta.
  destruct (isSameGridPosition (Some p) (currentTile (trackingState w))) eqn:Hsame.
  { apply isSameGridPosition_Some in Hsame. done. }
  eexists. split; [reflexivity|].
  destruct (currentTile (trackingState w)), (onTileExited (callbacks w)),
    (onTileEntered (callbacks w)); simpl;
    rewrite ?stepEvents_app; simpl; rewrite ?app_nil_r; done.
Qed.

End TraceFacts.

(** ** The progress store *)

Module SaveFacts.
Import SaveSystem SaveSpec.

Lemma objGet_replace k v o k' :
  is_Some (objGet o k) →
  objGet (objReplace k v o) k' = if decide (k' = k) then Some v else objGet o k'.
Proof.
  induction o as [|[k0 v0] o IH]; simpl; [by intros [? ?]|].
  destruct (Z.eqb_spec k0 k) as [->|Hne]; simpl.
  - intros _. destruct (Z.eqb_spec k k') as [->|Hne']; [by rewrite decide_True|].
    by rewrite decide_False by done.
  - intros Hsome. rewrite (IH Hsome).
    destruct (Z.eqb_spec k0 k') as [->|Hne']; [by rewrite decide_False|done].
Qed.

Lemma objGet_insert k v o k' :
  objGet o k = None →
  objGet (objInsert k v o) k' = if decide (k' = k) then Some v else objGet o k'.
Proof.
  induction o as [|[k0 v0] o IH]; simpl.
  - intros _. destruct (Z.eqb_spec k k') as [->|Hne]; [by rewrite decide_True|].
    by rewrite decide_False by done.
  - destruct (Z.eqb_spec k0 k) as [->|Hne]; [done|]. intros Hnone.
    destruct (isArrayIndex k && _); simpl.
    + destruct (Z.eqb_spec k k') as [->|Hne']; [by rewrite decide_True|].
      by rewrite decide_False by done.
    + rewrite (IH Hnone).
      destruct (Z.eqb_spec k0 k') as [->|Hne']; [by rewrite decide_False|done].
Qed.

Lemma objGet_set k v o k' :
  objGet (objSet k v o) k' = if decide (k' = k) then Some v else objGet o k'.
Proof.
  unfold objSet. destruct (objGet o k) eqn:Hget.
  - by apply objGet_replace.
  - by apply objGet_insert.
Qed.

Lemma saveToStorage_saveData w : saveData (saveToStorage w).2 = saveData w.
Proof. unfold saveToStorage. by repeat case_match. Qed.

Lemma saveToStorage_emitted w : emitted (saveToStorage w).2 = emitted w.
Proof. unfold saveToStorage. by repeat case_match. Qed.

Lemma persistenceBadges_fold highest st o :
  foldl (persistenceBadges highest) st o
  = foldl unlockStep st
      (o ≫= λ '(level, retries),
         [ ((retries =? 1) && (level <? highest), "quick_learner");
           ((3 <=? retries) && (level <? highest), "comeback_kid") ]).
Proof.
  revert st. induction o as [|[level retries] o IH]; intros st; simpl; [done|].
  by rewrite IH.
Qed.

Lemma checkAchievements_pass w d :
  saveData w = Some d →
  checkAchievements w
  = let w1 := setSaveData (Some (pass d).1) w in
    if (0 <? length (pass d).2)%nat
    then emitAchievementsUnlocked (pass d).2 w1
    else w1.
Proof.
  intros Hd. unfold checkAchievements. rewrite Hd.
  unfold pass, badgeConditions. rewrite !foldl_app. cbn [foldl unlockStep fst snd].
  rewrite persistenceBadges_fold.
  repeat match goal with
         | |- context [unlockStep ?s (?c, ?i)] =>
             change (unlockStep s (c, i)) with (unlockIf c i s)
         end.
  by destruct (unlockIf _ "never_give_up" _).
Qed.

Lemma setSaveData_same w : setSaveData (saveData w) w = w.
Proof. by destruct w. Qed.

(** What a pass adds: the badges whose condition holds and that are not
    unlocked yet, each once, in the order of the pass. *)
Lemma unlock_fold d newList bs :
  ∃ added,
    foldl unlockStep (d, newList) bs
    = (setAchievements (achievements d ++ added) d, newList ++ added)
    ∧ NoDup added
    ∧ ∀ id, id ∈ added ↔ (id ∉ achievements d) ∧ (true, id) ∈ bs.
Proof.
  revert d newList. induction bs as [|[c id] bs IH]; intros d newList.
  { exists []. rewrite !app_nil_r. split; [by destruct d|].
    split; [constructor|]. intros id. rewrite !elem_of_nil. tauto. }
  cbn [foldl]. unfold unlockStep at 2. cbn [fst snd]. unfold unlockIf, unlockAchievement.
  destruct c.
  - case_bool_decide as Hin.
    + destruct (IH d newList) as (added & -> & Hnd & Hadded).
      exists added. split; [done|]. split; [done|]. intros id'.
      rewrite Hadded, elem_of_cons. split; [tauto|].
      intros [Hnot [Heq|Hbs]]; [|done]. by injection Heq as ->.
    + destruct (IH (setAchievements (achievements d ++ [id]) d) (newList ++ [id]))
        as (added & -> & Hnd & Hadded).
      exists (id :: added). cbn [achievements setAchievements].
      rewrite <- !app_assoc. split; [done|].
      assert (id ∉ added) as Hfresh.
      { rewrite Hadded. cbn [achievements setAchievements].
        rewrite elem_of_app, list_elem_of_singleton. tauto. }
      split; [by constructor|]. intros id'.
      rewrite !elem_of_cons, Hadded. cbn [achievements setAchievements].
      rewrite elem_of_app, list_elem_of_singleton.
      destruct (decide (id' = id)) as [->|Hne].
      * split; [|tauto]. intros _. split; [done|]. by left.
      * split.
        -- intros [?|[Hnot Hbs]]; [done|]. split; [tauto|]. by right.
        -- intros [Hnot [Heq|Hbs]]; [by injection Heq|]. right. tauto.
  - destruct (IH d newList) as (added & -> & Hnd & Hadded).
    exists added. split; [done|]. split; [done|]. intros id'.
    rewrite Hadded, elem_of_cons. split; [tauto|].
    intros [Hnot [Heq|Hbs]]; [|done]. by injection Heq.
Qed.

Lemma pass_spec d :
  ∃ added,
    pass d = (setAchievements (achievements d ++ added) d, added)
    ∧ NoDup added
    ∧ ∀ id, id ∈ added ↔ (id ∉ achievements d) ∧ (true, id) ∈ badgeConditions d.
Proof. apply (unlock_fold d []). Qed.

(** The loop of [emitAchievementsUnlocked] over the subscribers. *)
Lemma callListeners_spec i ids w :
  (i ≤ length (achievementUnlockedListeners w))%nat →
  let ls := achievementUnlockedListeners w in
  let w' := callListeners i ids w in
  achievementUnlockedListeners w' = working (take i ls) ++ drop i ls
  ∧ emitted w'
    = emitted w ++ ((λ l, Delivered (listenerId l) ids) <$> reverse (working (take i ls)))
  ∧ saveData w' = saveData w
  ∧ storage w' = storage w
  ∧ achievementNotification w' = achievementNotification w.
Proof.
  revert w. induction i as [|j IH]; intros w Hi; cbv zeta.
  { cbn [callListeners]. rewrite take_0, drop_0. unfold working.
    rewrite filter_nil, reverse_nil, fmap_nil, app_nil_r. done. }
  destruct (lookup_lt_is_Some_2 (achievementUnlockedListeners w) j ltac:(lia)) as [l Hl].
  cbn [callListeners]. rewrite Hl.
  rewrite (take_S_r _ _ _ Hl). unfold working. rewrite filter_app.
  destruct (listenerRaises l) eqn:Hraises.
  - rewrite filter_cons_False, filter_nil, app_nil_r by by rewrite Hraises.
    set (w2 := setListeners (delete j (achievementUnlockedListeners w)) w).
    assert (j ≤ length (achievementUnlockedListeners w2))%nat as Hj.
    { subst w2. cbn [achievementUnlockedListeners setListeners].
      rewrite length_delete by eauto. lia. }
    destruct (IH w2 Hj) as (Hls & Hem & Hsd & Hst & Hn).
    rewrite Hls, Hem, Hsd, Hst, Hn. subst w2.
    cbn [achievementUnlockedListeners setListeners emitted saveData storage
         achievementNotification].
    rewrite delete_take_drop.
    assert (length (take j (achievementUnlockedListeners w)) = j) as Hlen.
    { rewrite length_take. lia. }
    rewrite take_app_length' by done. rewrite drop_app_length' by done.
    done.
  - rewrite filter_cons_True, filter_nil by done.
    set (w2 := emit (Delivered (listenerId l) ids) w).
    destruct (IH w2 ltac:(subst w2; simpl; lia)) as (Hls & Hem & Hsd & Hst & Hn).
    rewrite Hls, Hem, Hsd, Hst, Hn. subst w2.
    cbn [achievementUnlockedListeners emit emitted saveData storage
         achievementNotification].
    rewrite reverse_app, (drop_S _ _ _ Hl), <- !app_assoc. done.
Qed.

Lemma emitAchievementsUnlocked_spec ids w :
  let ls := achievementUnlockedListeners w in
  let w' := emitAchievementsUnlocked ids w in
  saveData w' = saveData w
  ∧ storage w' = storage w
  ∧ achievementNotification w' = achievementNotification w
  ∧ (ids ≠ [] →
       achievementUnlockedListeners w' = working ls
       ∧ emitted w'
         = emitted w ++ ((λ l, Delivered (listenerId l) ids) <$> reverse (working ls))
           ++ (if achievementNotification w then [Enqueued ids] else [])).
Proof.
  cbv zeta. unfold emitAchievementsUnlocked.
  destruct ids as [|id ids]; [done|]. cbn [length Nat.eqb]. cbv zeta.
  destruct (callListeners_spec (length (achievementUnlockedListeners w)) (id :: ids) w
              ltac:(done)) as (Hls & Hem & Hsd & Hst & Hn).
  cbv zeta in *. rewrite firstn_all, drop_all, app_nil_r in Hls.
  rewrite firstn_all in Hem. rewrite Hn.
  destruct (achievementNotification w);
    cbn [emit saveData storage achievementNotification achievementUnlockedListeners
         emitted];
    rewrite ?Hls, ?Hem, ?Hsd, ?Hst, ?Hn, <- ?app_assoc, ?app_nil_r; done.
Qed.

Lemma enqueued_emit ids w :
  enqueued (emitAchievementsUnlocked ids w)
  = enqueued w ++ (if achievementNotification w then ids else []).
Proof.
  destruct ids as [|id ids].
  { unfold emitAchievementsUnlocked. simpl. destruct (achievementNotification w);
      by rewrite app_nil_r. }
  destruct (emitAchievementsUnlocked_spec (id :: ids) w) as (_ & _ & _ & Hem).
  unfold enqueued. destruct (Hem ltac:(done)) as [_ ->].
  rewrite !bind_app. f_equal.
  assert (∀ ls : list Listener,
            ((λ l, Delivered (listenerId l) (id :: ids)) <$> ls)
              ≫= (λ e, match e with Enqueued ids => ids | Delivered _ _ => [] end)
            = []) as ->.
  { induction ls as [|l ls IH]; [done|]. by rewrite fmap_cons, bind_cons, IH. }
  destruct (achievementNotification w); [|done].
  rewrite bind_cons. simpl. by rewrite app_nil_r.
Qed.

Lemma checkAchievements_spec w d :
  saveData w = Some d →
  ∃ added,
    saveData (checkAchievements w)
    = Some (setAchievements (achievements d ++ added) d)
    ∧ storage (checkAchievements w) = storage w
    ∧ enqueued (checkAchievements w)
      = enqueued w ++ (if achievementNotification w then added else [])
    ∧ NoDup added
    ∧ ∀ id, id ∈ added ↔ (id ∉ achievements d) ∧ (true, id) ∈ badgeConditions d.
Proof.
  intros Hd. rewrite (checkAchievements_pass w d Hd).
  destruct (pass_spec d) as (added & -> & Hnd & Hadded).
  exists added. cbn [fst snd]. cbv zeta.
  set (w1 := setSaveData (Some (setAchievements (achievements d ++ added) d)) w).
  destruct (emitAchievementsUnlocked_spec added w1) as (Hsd & Hst & _ & _).
  pose proof (enqueued_emit added w1) as Hen.
  destruct added as [|id added']; cbn [length Nat.ltb Nat.leb].
  - split_and!; try done.
  - rewrite Hsd, Hst, Hen. done.
Qed.

Lemma saveToStorage_storage w d :
  saveData w = Some d → storage (saveToStorage w).2 = persisted (storage w) d.
Proof.
  intros Hd. unfold saveToStorage, persisted. rewrite Hd.
  destruct (storage w) as [st|] eqn:Hst; [|done].
  destruct (writeRaises st) eqn:Hr; done.
Qed.

Lemma saveToStorage_enqueued w : enqueued (saveToStorage w).2 = enqueued w.
Proof. unfold enqueued. by rewrite saveToStorage_emitted. Qed.

Lemma advanced_spec level firstTry d :
  (let d1 :=
     if firstTry && negb (levelCompletedFirstTry d level)
     then setLevelsCompletedFirstTry (levelsCompletedFirstTry d ++ [level]) d
     else d in
   let d2 := setCurrentLevel (level + 1) d1 in
   if highestLevel d2 <? currentLevel d2 then setHighestLevel (currentLevel d2) d2 else d2)
  = advanced level firstTry d.
Proof.
  cbv zeta. unfold advanced.
  destruct (firstTry && _);
    cbn [highestLevel currentLevel setCurrentLevel setLevelsCompletedFirstTry];
    destruct (Z.ltb_spec (highestLevel d) (level + 1));
    unfold setHighestLevel, setCurrentLevel, setLevelsCompletedFirstTry;
    cbn [version currentLevel highestLevel totalRetries retriesPerLevel
         levelsCompletedFirstTry achievements];
    f_equal; lia.
Qed.

(** [onLevelCompleted] on save data that is there. *)
Lemma onLevelCompleted_spec level firstTry w d :
  saveData w = Some d →
  ∃ added,
    let d' := setRetriesPerLevel (objSet level 0 (retriesPerLevel d))
                (setAchievements (achievements d ++ added) (advanced level firstTry d)) in
    let w' := onLevelCompleted level firstTry w in
    saveData w' = Some d'
    ∧ storage w' = persisted (storage w) d'
    ∧ enqueued w' = enqueued w ++ (if achievementNotification w then added else [])
    ∧ NoDup added
    ∧ ∀ id, id ∈ added
            ↔ (id ∉ achievements d) ∧ (true, id) ∈ badgeConditions (advanced level firstTry d).
Proof.
  intros Hd. unfold onLevelCompleted. rewrite Hd.
  pose proof (advanced_spec level firstTry d) as Hadv. cbv zeta in Hadv. cbv zeta.
  rewrite Hadv.
  destruct (checkAchievements_spec (setSaveData (Some (advanced level firstTry d)) w)
              (advanced level firstTry d) eq_refl)
    as (added & Hsd & Hst & Hen & Hnd & Hadded).
  exists added. cbv zeta. rewrite Hsd.
  rewrite saveToStorage_saveData, saveToStorage_enqueued.
  erewrite saveToStorage_storage by reflexivity.
  cbn [storage setSaveData]. rewrite Hst. cbn [storage setSaveData].
  split_and!; try done.
Qed.

Lemma objGet_failedRetries level o l :
  default 0 (objGet (failedRetries level o) l)
  = default 0 (objGet o l) + (if decide (l = level) then 1 else 0).
Proof.
  unfold failedRetries. cbv zeta. rewrite objGet_set.
  destruct (decide (l = level)) as [->|Hne].
  - destruct (objGet o level) as [v|] eqn:Hget.
    + destruct (Z.eqb_spec v 0) as [->|Hv].
      * rewrite objGet_set, decide_True by done. done.
      * by rewrite Hget.
    + rewrite objGet_set, decide_True by done. done.
  - destruct (objGet o level) as [v|] eqn:Hget.
    + destruct (v =? 0); [rewrite objGet_set, decide_False by done|]; simpl; lia.
    + rewrite objGet_set, decide_False by done. simpl. lia.
Qed.

Lemma onLevelFailed_spec level w d :
  saveData w = Some d →
  let d' := setRetriesPerLevel (failedRetries level (retriesPerLevel d))
              (setTotalRetries (totalRetries d + 1) d) in
  let w' := onLevelFailed level w in
  saveData w' = Some d'
  ∧ storage w' = persisted (storage w) d'
  ∧ emitted w' = emitted w.
Proof.
  intros Hd. cbv zeta. unfold onLevelFailed. rewrite Hd. cbv zeta.
  rewrite saveToStorage_saveData, saveToStorage_emitted.
  erewrite saveToStorage_storage by reflexivity. done.
Qed.


Lemma onLevelCompleted_unlocks level firstTry w d id :
  saveData w = Some d →
  (true, id) ∈ badgeConditions (advanced level firstTry d) →
  hasAchievement id (onLevelCompleted level firstTry w) = true.
Proof.
  intros Hd Hcond.
  destruct (onLevelCompleted_spec level firstTry w d Hd)
    as (added & Hsd & _ & _ & _ & Hadded). cbv zeta in *.
  unfold hasAchievement. rewrite Hsd.
  cbn [achievements setRetriesPerLevel setAchievements].
  apply bool_decide_eq_true, elem_of_app.
  destruct (decide (id ∈ achievements d)); [by left|]. right. by apply Hadded.
Qed.

(** What one call does to save data that is there. *)
Lemma perform_spec w op d :
  saveData w = Some d →
  ∃ d',
    saveData (perform w op) = Some d'
    ∧ storage (perform w op) = persisted (storage w) d'
    ∧ (SaveInv d → SaveInv d')
    ∧ (keepsAchievements op →
       ∃ added,
         achievements d' = achievements d ++ added
         ∧ enqueued (perform w op)
           = enqueued w ++ (if achievementNotification w then added else [])
         ∧ NoDup added
         ∧ ∀ id, id ∈ added → id ∉ achievements d).
Proof.
  intros Hd. destruct op as [level firstTry|level| | |]; cbn [perform].
  - destruct (onLevelCompleted_spec level firstTry w d Hd)
      as (added & Hsd & Hst & Hen & Hnd & Hadded). cbv zeta in *.
    eexists. split; [exact Hsd|]. split; [exact Hst|]. split.
    + intros [Ha Hf Hl Hh Hr]. split;
        cbn [setRetriesPerLevel setAchievements advanced version currentLevel
             highestLevel totalRetries retriesPerLevel levelsCompletedFirstTry
             achievements]; [| |lia..].
      * apply NoDup_app. split; [done|]. split; [|done].
        intros id Hid Hin. by apply Hadded in Hin as [? _].
      * unfold levelCompletedFirstTry. destruct firstTry; [|done]. cbn [andb].
        case_bool_decide as Hin; [done|]. cbn [negb].
        apply NoDup_app. split; [done|]. split; [|apply NoDup_singleton].
        intros l Hl' ->%list_elem_of_singleton. done.
    + intros _. exists added. split; [done|]. split; [done|]. split; [done|].
      intros id Hin. by apply Hadded in Hin as [? _].
  - destruct (onLevelFailed_spec level w d Hd) as (Hsd & Hst & Hem). cbv zeta in *.
    eexists. split; [exact Hsd|]. split; [exact Hst|]. split.
    + intros [Ha Hf Hl Hh Hr]. split; cbn; [done..|lia].
    + intros _. exists []. unfold enqueued. rewrite Hem, !app_nil_r.
      split; [done|]. split; [by destruct (achievementNotification w); rewrite app_nil_r|].
      split; [constructor|]. by intros id ?%elem_of_nil.
  - unfold resetProgress. rewrite Hd.
    rewrite saveToStorage_saveData, saveToStorage_enqueued.
    erewrite saveToStorage_storage by reflexivity.
    eexists. split; [reflexivity|]. split; [done|]. split.
    + intros [Ha Hf Hl Hh Hr]. split; cbn; [done|constructor|lia..].
    + intros _. exists []. rewrite !app_nil_r.
      split; [done|]. split; [by destruct (achievementNotification w); rewrite app_nil_r|].
      split; [constructor|]. by intros id ?%elem_of_nil.
  - unfold resetLevelProgress. rewrite Hd.
    rewrite saveToStorage_saveData, saveToStorage_enqueued.
    erewrite saveToStorage_storage by reflexivity.
    eexists. split; [reflexivity|]. split; [done|]. split.
    + intros [Ha Hf Hl Hh Hr]. split; cbn; [done|constructor|lia..].
    + intros _. exists []. rewrite !app_nil_r.
      split; [done|]. split; [by destruct (achievementNotification w); rewrite app_nil_r|].
      split; [constructor|]. by intros id ?%elem_of_nil.
  - unfold resetAllProgress.
    rewrite saveToStorage_saveData.
    erewrite saveToStorage_storage by reflexivity.
    eexists. split; [reflexivity|]. split; [done|]. split; [|done].
    intros _. split; cbn; [constructor|constructor|lia..].
Qed.




Lemma firstTry_forallb d a k :
  (∀ l, a ≤ l < a + k → l ∈ levelsCompletedFirstTry d) →
  forallb (levelCompletedFirstTry d) (seqZ a k) = true.
Proof.
  intros Hall. apply forallb_forall. intros l Hl%list_elem_of_In%elem_of_seqZ.
  unfold levelCompletedFirstTry. apply bool_decide_eq_true. by apply Hall.
Qed.

Lemma firstTry_existsb d a k l :
  a ≤ l < a + k → l ∈ levelsCompletedFirstTry d →
  existsb (levelCompletedFirstTry d) (seqZ a k) = true.
Proof.
  intros Hl Hin. apply existsb_exists. exists l. split.
  - by apply list_elem_of_In, elem_of_seqZ.
  - unfold levelCompletedFirstTry. by apply bool_decide_eq_true.
Qed.

Lemma without_saveData op w :
  saveData w = None → needsSaveData op → perform w op = w.
Proof.
  intros Hd Hop. destruct op; try done; simpl.
  - unfold onLevelCompleted. by rewrite Hd.
  - unfold onLevelFailed. by rewrite Hd.
  - unfold resetLevelProgress. by rewrite Hd.
Qed.

Lemma run_snoc ops op w : run (ops ++ [op]) w = perform (run ops w) op.
Proof. unfold run. by rewrite foldl_app. Qed.

Lemma advanced_first_tries (m : nat) d :
  (∀ l, 1 ≤ l ≤ Z.of_nat m → l ∈ levelsCompletedFirstTry d) →
  ∀ l, 1 ≤ l ≤ Z.of_nat (S m) →
       l ∈ levelsCompletedFirstTry (advanced (1 + Z.of_nat m) true d).
Proof.
  intros Hall l Hl. cbn [levelsCompletedFirstTry advanced andb].
  unfold levelCompletedFirstTry.
  destruct (decide (l = 1 + Z.of_nat m)) as [->|Hne].
  - case_bool_decide as Hin; cbn [negb]; [done|].
    apply elem_of_app. right. by left.
  - assert (l ∈ levelsCompletedFirstTry d) by (apply Hall; lia).
    destruct (negb _); [|done]. apply elem_of_app. by left.
Qed.

Lemma first_tries (n : nat) w d :
  saveData w = Some d →
  ∃ d', saveData (run ((λ l, Completed l true) <$> seqZ 1 (Z.of_nat n)) w) = Some d'
        ∧ ∀ l, 1 ≤ l ≤ Z.of_nat n → l ∈ levelsCompletedFirstTry d'.
Proof.
  intros Hd. induction n as [|n IH].
  - exists d. split; [done|]. intros l Hl. lia.
  - destruct IH as (d1 & Hd1 & Hl1).
    rewrite seqZ_S, fmap_app.
    change ((λ l, Completed l true) <$> [1 + Z.of_nat n])
      with [Completed (1 + Z.of_nat n) true].
    rewrite run_snoc. cbn [perform].
    destruct (onLevelCompleted_spec (1 + Z.of_nat n) true _ d1 Hd1) as (added & Hsd & _).
    cbv zeta in Hsd. eexists. split; [exact Hsd|].
    by apply advanced_first_tries.
Qed.

End SaveFacts.

(* ===================================================================== *)
(** * Part IV: the properties of the specification                        *)
(* ===================================================================== *)

(** ** The step validator *)

Module ValidatorProperties.
Import MathHelpers PlayerTracker.
Import ArraySpec GridSpec TrackerSpec ArrayFacts PathFacts GridFacts TrackerFacts.

(** C1 (as the code has it).  In normal mode, on an initialized grid whose
    active path [P] is non-empty and without repetition, starting a tracking
    session and entering the tiles of [P] in order raises no exception, ends
    with [pathProgress = |P|] and [stepsOnPath = P], and makes the validator
    call its listeners with one correct-step per entry, numbered [1/|P|] to
    [|P|/|P|], followed by one path-completed: the last entry calls
    [onCorrectStep] and then [onPathCompleted].  No wrong-step is called. *)
Theorem validator_accepts_path w g P :
  gridManager w = Some g → wf g → GridManager.getPath g = P →
  NoDup P → P ≠ [] →
  Constants.SKIP_PATH_CHECK (debugConfig w) = false →
  onCorrectStep (callbacks w) = true → onPathCompleted (callbacks w) = true →
  ∃ w',
    enterTiles P (startTracking w) = Some w'
    ∧ pathProgress (trackingState w') = length P
    ∧ stepsOnPath (trackingState w') = P
    ∧ stepEvents (emitted w') =
      stepEvents (emitted w) ++ correctSteps 0 (length P) P ++ [PathCompleted P].
Proof.
  intros Hg Hwf Hpath Hnd Hne Hskip Hcs Hpc.
  assert (gridManager (startTracking w) = Some (GridManager.resetTriggers g)
          ∧ callbacks (startTracking w) = callbacks w
          ∧ debugConfig (startTracking w) = debugConfig w
          ∧ emitted (startTracking w) = emitted w
          ∧ trackingState (startTracking w)
            = {| isTracking := true; pathProgress := 0; stepsOnPath := [];
                 currentTile := None |}) as (Hg0 & Hcb0 & Hdbg0 & Hlog0 & Htr0).
  { unfold startTracking; simpl. by rewrite Hg. }
  destruct (enterTiles_path P [] (startTracking w) (GridManager.resetTriggers g))
    as (w' & Hrun & _ & Hpp & Hsteps & Hev);
    rewrite ?Htr0, ?Hcb0, ?Hdbg0; try done.
  exists w'. split_and!; [done..|]. simpl in Hev. rewrite Hev, Hlog0.
  by destruct P.
Qed.

Lemma validator_accepts_path_witness :
  ∃ w',
    enterTiles Demo.thePath (startTracking Demo.world) = Some w'
    ∧ pathProgress (trackingState w') = length Demo.thePath
    ∧ stepsOnPath (trackingState w') = Demo.thePath
    ∧ stepEvents (emitted w') =
      stepEvents (emitted Demo.world)
      ++ correctSteps 0 (length Demo.thePath) Demo.thePath
      ++ [PathCompleted Demo.thePath].
Proof.
  apply (validator_accepts_path Demo.world Demo.grid Demo.thePath).
  - reflexivity.
  - repeat split; vm_compute; repeat constructor.
  - vm_compute. reflexivity.
  - apply (bool_decide_unpack _). vm_compute. exact I.
  - discriminate.
  - reflexivity.
  - reflexivity.
  - reflexivity.
Defined.

(** C1 as stated fails: walking the five tiles of the demo path makes the
    validator call [onCorrectStep] five times, the fifth time for the last
    tile and before [onPathCompleted]; not four times. *)
Lemma validator_last_tile_is_a_correct_step :
  ∃ w',
    enterTiles Demo.thePath (startTracking Demo.world) = Some w'
    ∧ emitted w' =
      [CorrectStep (mkPos 2 4) 1 5; CorrectStep (mkPos 3 4) 2 5;
       CorrectStep (mkPos 4 4) 3 5; CorrectStep (mkPos 4 3) 4 5;
       CorrectStep (mkPos 4 2) 5 5; PathCompleted Demo.thePath]
    ∧ length (filter (λ e, isCorrectStep e = true) (emitted w'))
      ≠ (length Demo.thePath - 1)%nat.
Proof.
  eexists. split; [vm_compute; reflexivity|]. split; [reflexivity|].
  vm_compute. discriminate.
Qed.

(** C4.  In normal mode, with tracking armed and [pathProgress = 0] on an
    initialized grid whose path starts with [p0, p1] ([p0 ≠ p1]), an entry on
    [p1] that is not a re-entry of the current tile calls [onWrongStep] once,
    with actual tile [p1] and expected tile [p0], calls neither of the other
    step listeners, leaves [pathProgress] at 0 and [stepsOnPath] as it was,
    and leaves tracking armed. *)
Theorem validator_rejects_skipped_start w g p0 p1 rest :
  gridManager w = Some g → wf g → GridManager.getPath g = p0 :: p1 :: rest →
  p0 ≠ p1 →
  Constants.SKIP_PATH_CHECK (debugConfig w) = false →
  isTracking (trackingState w) = true →
  pathProgress (trackingState w) = 0%nat →
  currentTile (trackingState w) ≠ Some p1 →
  onWrongStep (callbacks w) = true →
  ∃ w',
    handleTriggerEntered (pos_x p1) (pos_z p1) w = Some w'
    ∧ stepEvents (emitted w') = stepEvents (emitted w) ++ [WrongStep p1 p0]
    ∧ pathProgress (trackingState w') = 0%nat
    ∧ stepsOnPath (trackingState w') = stepsOnPath (trackingState w)
    ∧ isTracking (trackingState w') = true.
Proof.
  intros Hg Hwf Hpath Hne Hskip Htr Hpp Hcur Hws.
  destruct (markTile_total GridManager.st_wrong GridManager.TILE_WRONG g
              (pos_x p1) (pos_z p1) Hwf) as [g' Hg'].
  destruct w as [[tr pp steps cur] cbs gm dbg log]; simpl in *. subst.
  unfold handleTriggerEntered; simpl. rewrite mkPos_eta.
  destruct (isSameGridPosition (Some p1) cur) eqn:Hsame.
  { apply isSameGridPosition_Some in Hsame. by subst. }
  assert (isSameGridPosition (Some p1) (Some p0) = false) as Hmis.
  { apply not_true_is_false. intros ?%isSameGridPosition_true. by subst. }
  simpl in Hsame, Hmis. unfold GridManager.markTileWrong in Hg'.
  assert (∀ w0, gridManager w0 = Some g → debugConfig w0 = dbg → callbacks w0 = cbs →
                pathProgress (trackingState w0) = 0%nat →
                validateStep p1 w0
                = Some {| trackingState := trackingState w0; callbacks := cbs;
                          gridManager := Some g'; debugConfig := dbg;
                          emitted := emitted w0 ++ [WrongStep p1 p0] |}) as Hval.
  { intros [[tr0 pp0 steps0 cur0] cbs0 gm0 dbg0 log0]; simpl. intros -> -> -> ->.
    unfold validateStep, GridManager.markTileWrong; simpl.
    rewrite Hpath, Hskip; simpl. rewrite Hmis, Hg'; simpl. by rewrite Hws. }
  rewrite Hsame.
  destruct cur as [q|], (onTileExited cbs), (onTileEntered cbs); simpl;
    rewrite Hval by done; eexists; (split; [reflexivity|]); simpl;
    rewrite !stepEvents_app; simpl; rewrite ?app_nil_r; done.
Qed.

Lemma validator_rejects_skipped_start_witness :
  ∃ w',
    handleTriggerEntered 3 4 (startTracking Demo.world) = Some w'
    ∧ stepEvents (emitted w')
      = stepEvents (emitted (startTracking Demo.world))
        ++ [WrongStep (mkPos 3 4) (mkPos 2 4)]
    ∧ pathProgress (trackingState w') = 0%nat
    ∧ stepsOnPath (trackingState w')
      = stepsOnPath (trackingState (startTracking Demo.world))
    ∧ isTracking (trackingState w') = true.
Proof.
  apply (validator_rejects_skipped_start (startTracking Demo.world)
           (GridManager.resetTriggers Demo.grid) (mkPos 2 4) (mkPos 3 4)
           [mkPos 4 4; mkPos 4 3; mkPos 4 2]).
  - reflexivity.
  - repeat split; vm_compute; repeat constructor.
  - vm_compute. reflexivity.
  - discriminate.
  - reflexivity.
  - reflexivity.
  - reflexivity.
  - discriminate.
  - reflexivity.
Defined.

(** C7.  A tile entry leaves the whole world of the validator as it was
    (tracking state, grid and the calls made so far) exactly when tracking is
    not armed or the entered tile is the current tile; so only an armed entry
    into another tile is processed. *)
Theorem handleTriggerEntered_ignored w gridX gridZ :
  handleTriggerEntered gridX gridZ w = Some w
  ↔ isTracking (trackingState w) = false
    ∨ currentTile (trackingState w) = Some (mkPos gridX gridZ).
Proof.
  unfold handleTriggerEntered.
  destruct (isTracking (trackingState w)) eqn:Htr; cbn [negb];
    [|split; [by left|done]].
  destruct (isSameGridPosition (Some (mkPos gridX gridZ)) (currentTile (trackingState w)))
    eqn:Hsame.
  { apply isSameGridPosition_Some in Hsame. split; [by right|done]. }
  split; [|intros [?|Hcur]; [done|]].
  2: { apply isSameGridPosition_Some in Hcur. congruence. }
  intros Hrun. exfalso.
  assert (∀ p w0 w1, validateStep p w0 = Some w1 →
            currentTile (trackingState w1) = currentTile (trackingState w0)) as Hval.
  { intros p w0 w1. unfold validateStep.
    repeat case_match; intros; simplify_option_eq;
      rewrite ?(proj1 (emit_fields _ _ _)); simpl;
      rewrite ?(proj1 (emit_fields _ _ _)); done. }
  apply Hval in Hrun. rewrite (proj1 (emit_fields _ _ _)) in Hrun.
  destruct (currentTile (trackingState w)) as [q|] eqn:Hc;
    rewrite ?(proj1 (emit_fields _ _ _)) in Hrun; simpl in Hrun; [|done].
  injection Hrun as ->. by rewrite (proj2 (isSameGridPosition_true _ _)) in Hsame.
Qed.

End ValidatorProperties.

(** ** The path generator *)

Module GeneratorProperties.
Import MathHelpers PathGenerator.
Import PathSpec PathFacts.

(** C2 (as the code has it).  For [rows ≥ 1] and [columns ≥ 1], any requested
    length, any oracle and any sort engine, with or without a start position,
    [generatePath] returns a path in which every consecutive pair is
    orthogonally adjacent, no coordinate is repeated, and whose length is at
    most [rows × columns].  Every coordinate is within the grid when no start
    position is given, or when the given one is itself within the grid. *)
Theorem generatePath_well_formed `{ArraySort} rows columns pathLength startPos r :
  1 ≤ rows → 1 ≤ columns →
  ∃ path r',
    generatePath rows columns pathLength startPos r = Some (path, r')
    ∧ connected path
    ∧ NoDup path
    ∧ Z.of_nat (length path) ≤ rows * columns
    ∧ ((∀ s, startPos = Some s → inBounds rows columns s) →
       Forall (inBounds rows columns) path).
Proof. apply generatePath_props. Qed.

Lemma generatePath_well_formed_witness :
  ∃ path r',
    generatePath (H := Demo.insertionSortEngine) 5 5 25 None Demo.oracle
      = Some (path, r')
    ∧ connected path ∧ NoDup path ∧ Z.of_nat (length path) ≤ 5 * 5
    ∧ ((∀ s, None = Some s → inBounds 5 5 s) → Forall (inBounds 5 5) path).
Proof.
  apply (generatePath_well_formed (H := Demo.insertionSortEngine) 5 5 25 None); lia.
Defined.

(** C2 as stated fails for a start position outside the grid: the generator
    copies the start into the path without checking it.  On the 5 × 5 grid the
    start [(5,2)] gives a path whose first coordinate is [(5,2)]. *)
Lemma generatePath_keeps_outside_start :
  ∃ path r',
    generatePath (H := Demo.insertionSortEngine) 5 5 3 (Some (mkPos 5 2)) Demo.oracle
      = Some (path, r')
    ∧ path = [mkPos 5 2; mkPos 4 2; mkPos 3 2]
    ∧ ¬ Forall (inBounds 5 5) path.
Proof.
  eexists _, _. split; [vm_compute; reflexivity|]. split; [reflexivity|].
  intros Hall. apply Forall_cons in Hall as [Hin _].
  unfold inBounds in Hin; simpl in Hin. lia.
Qed.

(** C5.  For [rows ≥ 1] and [columns ≥ 1], any requested length, any oracle
    and any sort engine, [generatePathFromBottom] returns a connected path
    whose first element is [(floor(columns/2), rows-1)]; on the 5 × 5 grid
    with requested length 5 the path has exactly 5 elements (and so begins at
    [(2,4)]).  The restart branch of an attempt is never taken from this
    start, and every retry starts from it again. *)
Theorem generatePathFromBottom_start `{ArraySort} rows columns pathLength r :
  1 ≤ rows → 1 ≤ columns →
  ∃ path r',
    generatePathFromBottom rows columns pathLength r = Some (path, r')
    ∧ head path = Some (mkPos (columns `div` 2) (rows - 1))
    ∧ connected path
    ∧ (rows = 5 → columns = 5 → pathLength = 5 → length path = 5%nat).
Proof.
  intros Hrows Hcols. unfold generatePathFromBottom, generatePath.
  set (start := mkPos (columns `div` 2) (rows - 1)).
  set (L := Z.min pathLength (rows * columns)).
  assert (inBounds rows columns start) as Hstart by by apply bottom_start_inBounds.
  destruct (retryLoop_result rows columns L Hrows Hcols
              (λ path, head path = Some start ∧ connected path)
              (Some start) MAX_RETRIES None r)
    as (path & r' & Hloop & Hhd & Hc).
  - intros r0 res r1 Hatt. split.
    + apply (attempt_head rows columns L Hrows Hcols start r0 res r1); [done|lia|done].
    + destruct (attempt_base rows columns L Hrows Hcols (Some start) r0)
        as (res0 & r0' & Hatt0 & _ & _ & Hc & _).
      rewrite Hatt in Hatt0. by simplify_eq.
  - done.
  - left. unfold MAX_RETRIES. lia.
  - exists path, r'. split_and!; [done..|].
    intros -> -> ->. subst start L. revert Hloop.
    change (Z.min 5 (5 * 5)) with 5. change (5 `div` 2) with 2. change (5 - 1) with 4.
    unfold MAX_RETRIES; simpl retryLoop.
    destruct (first_attempt_5x5 r) as (res & r1 & -> & Hlen); simpl.
    rewrite Hlen; simpl. by intros [= <- <-].
Qed.

Lemma generatePathFromBottom_start_witness :
  ∃ path r',
    generatePathFromBottom (H := Demo.insertionSortEngine) 5 5 5 Demo.oracle
      = Some (path, r')
    ∧ head path = Some (mkPos (5 `div` 2) (5 - 1))
    ∧ connected path
    ∧ (5 = 5 → 5 = 5 → 5 = 5 → length path = 5%nat).
Proof.
  apply (generatePathFromBottom_start (H := Demo.insertionSortEngine) 5 5 5); lia.
Defined.

(** C6.  For [rows ≥ 1] and [columns ≥ 1], [generatePath] works with the
    length [L = min(pathLength, rows × columns)], raises no exception and
    returns a non-empty path, which is either the path of the first of at
    most [MAX_RETRIES = 10] attempts that reaches [L] (no later attempt is
    made: the oracle is the one that attempt left), or, when all ten attempts
    stay below [L], the path of one of the ten attempts, at least as long as
    every one of them and itself shorter than [L]. *)
Theorem generatePath_best_effort `{ArraySort} rows columns pathLength startPos r :
  1 ≤ rows → 1 ≤ columns →
  let L := Z.min pathLength (rows * columns) in
  ∃ path r',
    generatePath rows columns pathLength startPos r = Some (path, r')
    ∧ path ≠ []
    ∧ (reachedAt rows columns L startPos MAX_RETRIES r path r'
       ∨ (Z.of_nat (length path) < L
          ∧ allShort rows columns L startPos MAX_RETRIES r path
          ∧ (∃ k rk, (k < MAX_RETRIES)%nat
                     ∧ attemptAt k rows columns L startPos r = Some (path, rk))
          ∧ ∃ p, attemptAt (MAX_RETRIES - 1) rows columns L startPos r = Some (p, r'))).
Proof.
  intros Hrows Hcols L. unfold generatePath. fold L.
  assert (∀ k r0 path rk, attemptAt k rows columns L startPos r0 = Some (path, rk) → path ≠ [])
    as Hne.
  { intros k. induction k as [|k IH]; intros r0 path rk; simpl.
    - destruct (attempt_base rows columns L Hrows Hcols startPos r0)
        as (res & r1 & Hatt & Hres & _).
      rewrite Hatt. by intros [= <- <-].
    - destruct (generatePathAttempt rows columns L startPos r0) as [[? r1]|]; simpl; [|done].
      apply IH. }
  destruct (retryLoop_spec rows columns L startPos Hrows Hcols MAX_RETRIES None r)
    as (path & r' & Hloop & Hcases); [done|left; unfold MAX_RETRIES; lia|].
  exists path, r'. split; [done|].
  destruct Hcases as [Hreach|(Hshort & Hall & [?|Hfrom] & _ & Hr')]; [|done|].
  - split; [|by left]. destruct Hreach as (k & _ & Hk & _). eauto.
  - split; [destruct Hfrom as (k & rk & _ & Hk); eauto|]. right. done.
Qed.

Lemma generatePath_best_effort_witness :
  ∃ path r',
    generatePath (H := Demo.insertionSortEngine) 5 5 40 None Demo.oracle
      = Some (path, r')
    ∧ path ≠ []
    ∧ (reachedAt (H := Demo.insertionSortEngine) 5 5 (Z.min 40 (5 * 5)) None
         MAX_RETRIES Demo.oracle path r'
       ∨ (Z.of_nat (length path) < Z.min 40 (5 * 5)
          ∧ allShort (H := Demo.insertionSortEngine) 5 5 (Z.min 40 (5 * 5)) None
              MAX_RETRIES Demo.oracle path
          ∧ (∃ k rk, (k < MAX_RETRIES)%nat
                     ∧ attemptAt (H := Demo.insertionSortEngine) k 5 5 (Z.min 40 (5 * 5))
                         None Demo.oracle = Some (path, rk))
          ∧ ∃ p, attemptAt (H := Demo.insertionSortEngine) (MAX_RETRIES - 1) 5 5
                   (Z.min 40 (5 * 5)) None Demo.oracle = Some (p, r'))).
Proof.
  apply (generatePath_best_effort (H := Demo.insertionSortEngine) 5 5 40 None); lia.
Defined.

End GeneratorProperties.

(** ** The detection volumes *)

Module TriggerProperties.
Import GridManager TriggerSpec.


End TriggerProperties.

(** ** The game flow *)

Module GameFlowProperties.
Import GameStateManager.
Import GridSpec.

(** C8.  With a progress store present and, if a grid manager is present, its
    grid initialized with at least one row and one column, [setupLevel]
    raises no exception; afterwards the local level counter is the level of
    the store, whatever it was before, and the path of the round was
    generated with the path length of that level's configuration. *)
Theorem setupLevel_takes_store_level `{ArraySort} w r store :
  save w = Some store →
  (∀ g, gridManager w = Some g →
        wf g ∧ 1 ≤ GridManager.rows (GridManager.gridConfig g)
        ∧ 1 ≤ GridManager.columns (GridManager.gridConfig g)) →
  let level := SaveManager.getCurrentLevel store in
  ∃ w' r',
    setupLevel w r = Some (w', r')
    ∧ currentLevel (gameState w') = level
    ∧ match gridManager w with
      | Some g =>
          ∃ thePath g',
            GridManager.generateNewPath (pathLength (getLevelConfig level)) g r
              = Some (thePath, g', r')
            ∧ gridManager w' = Some g'
      | None => gridManager w' = None ∧ r' = r
      end.
Proof.
  intros Hsave Hgrid level. unfold setupLevel.
  assert (currentLevel (syncLevel w) = level) as Hlevel.
  { unfold syncLevel. rewrite Hsave. fold level.
    destruct (level =? currentLevel (gameState w)) eqn:Heq; simpl; [|done].
    apply Z.eqb_eq in Heq. done. }
  rewrite Hlevel.
  destruct (gridManager w) as [g|] eqn:Hg.
  - destruct (Hgrid g eq_refl) as (Hwf & Hrows & Hcols).
    destruct (GridFacts.generateNewPath_total (pathLength (getLevelConfig level)) g r
                Hwf Hrows Hcols) as (thePath & g' & r' & Hgen & _).
    rewrite Hgen. simpl. eexists _, r'. split; [done|]. simpl. split; [done|]. eauto.
  - simpl. eexists _, r. split; [done|]. simpl. done.
Qed.

Lemma setupLevel_takes_store_level_witness :
  ∃ w' r',
    setupLevel (H := Demo.insertionSortEngine) Demo.game Demo.oracle = Some (w', r')
    ∧ currentLevel (gameState w') = 3
    ∧ ∃ thePath g',
        GridManager.generateNewPath (H := Demo.insertionSortEngine)
          (pathLength (getLevelConfig 3)) Demo.placedGrid Demo.oracle
          = Some (thePath, g', r')
        ∧ gridManager w' = Some g'.
Proof.
  apply (setupLevel_takes_store_level (H := Demo.insertionSortEngine)
           Demo.game Demo.oracle
           {| SaveManager.saveData :=
                Some {| SaveManager.currentLevel := 3;
                        SaveManager.highestLevel := 3;
                        SaveManager.totalRetries := 1 |} |}).
  - reflexivity.
  - intros g [= <-]. split; [|split; vm_compute; discriminate].
    split; split; vm_compute; repeat constructor.
Defined.

End GameFlowProperties.

(** ** The grid *)

Module GridProperties.
Import GridManager.
Import ArraySpec GridSpec ArrayFacts GridFacts.





End GridProperties.

(* ===================================================================== *)
(** * Part V: further properties of the program                          *)
(* ===================================================================== *)

(** ** The helpers *)

Module MathHelpersProperties.
Import MathHelpers PathSpec PathFacts HelperFacts.

(** X1.  [getNeighbors(x, z, rows, columns)] lists exactly the cells of the
    grid at Manhattan distance 1 from [(x, z)], each of them once: at most
    four cells, whether or not [(x, z)] is itself in the grid. *)
Theorem getNeighbors_exact x z rows columns :
  (∀ p, p ∈ getNeighbors x z rows columns
        ↔ isValidGridPosition (pos_x p) (pos_z p) rows columns = true
          ∧ manhattan (mkPos x z) p = 1)
  ∧ NoDup (getNeighbors x z rows columns)
  ∧ (length (getNeighbors x z rows columns) ≤ 4)%nat.
Proof.
  split_and!.
  - intros [px pz]. rewrite elem_of_getNeighbors, isValidGridPosition_spec.
    unfold manhattan; simpl. split.
    + intros [Hb [?|[?|[?|?]]]]; simplify_eq; split; auto; lia.
    + intros [Hb Hadj]. split; [done|].
      assert ((px = x ∧ pz = z + 1) ∨ (px = x ∧ pz = z - 1)
              ∨ (px = x - 1 ∧ pz = z) ∨ (px = x + 1 ∧ pz = z)) as Hcases by lia.
      destruct Hcases as [[-> ->]|[[-> ->]|[[-> ->]|[-> ->]]]]; auto.
  - rewrite getNeighbors_filter. apply NoDup_filter.
    repeat (apply NoDup_cons; split;
            [rewrite ?elem_of_cons, elem_of_nil; intros ?; destruct_or?; simplify_eq; lia|]).
    apply NoDup_nil_2.
  - rewrite getNeighbors_filter.
    etrans; [apply length_filter|]. done.
Qed.

(** X2.  [shuffleArray] only rearranges: whatever [Math.random] draws, the
    result holds the same elements as the array it was given, with the same
    multiplicities. *)
Theorem shuffleArray_rearranges {A : Type} (array : list A) (r : Rand) :
  (shuffleArray array r).1 ≡ₚ array.
Proof. apply shuffleFrom_Permutation. Qed.

Lemma clamp_cases value min max :
  ((max < min)%Q ∧ clamp value min max == max)
  ∨ ((min <= max)%Q
     ∧ (((value <= min)%Q ∧ clamp value min max == min)
        ∨ ((min <= value <= max)%Q ∧ clamp value min max == value)
        ∨ ((max <= value)%Q ∧ clamp value min max == max))).
Proof.
  unfold clamp.
  destruct (Q.max_spec value min) as [[H1 E1]|[H1 E1]],
           (Q.min_spec (Qmax value min) max) as [[H2 E2]|[H2 E2]];
    rewrite E1 in H2; rewrite E2, ?E1;
    destruct (Qlt_le_dec max min); intuition (try lra; auto with qarith).
Qed.

(** X3.  For bounds [min ≤ max], [clamp(value, min, max)] lies in
    [min .. max], is [value] itself when [value] already does, and clamping
    twice is clamping once. *)
Theorem clamp_in_range (value min max : Q) :
  (min <= max)%Q →
  (min <= clamp value min max <= max)%Q
  ∧ ((min <= value <= max)%Q → clamp value min max == value)
  ∧ clamp (clamp value min max) min max == clamp value min max.
Proof.
  intros Hle.
  destruct (clamp_cases value min max) as [[? _]|[_ Hc]]; [lra|].
  destruct (clamp_cases (clamp value min max) min max) as [[? _]|[_ Hcc]]; [lra|].
  set (c := clamp value min max) in *.
  set (cc := clamp c min max) in *.
  split; [|split].
  - destruct Hc as [[? E]|[[? E]|[? E]]]; lra.
  - intros Hin. destruct Hc as [[? E]|[[? E]|[? E]]]; lra.
  - destruct Hc as [[? E]|[[? E]|[? E]]], Hcc as [[? E']|[[? E']|[? E']]]; lra.
Qed.

Lemma clamp_in_range_witness :
  (0 <= clamp (7 # 2) 0 1 <= 1)%Q
  ∧ ((0 <= 7 # 2 <= 1)%Q → clamp (7 # 2) 0 1 == 7 # 2)
  ∧ clamp (clamp (7 # 2) 0 1) 0 1 == clamp (7 # 2) 0 1.
Proof. apply (clamp_in_range (7 # 2) 0 1). discriminate. Defined.


End MathHelpersProperties.

(** ** Paths and directions *)

Module PathGeneratorProperties.
Import MathHelpers PathGenerator PathSpec PathFacts DirectionSpec HelperFacts.

(** X5.  [isValidPath] accepts a path exactly when every consecutive pair of
    its coordinates is orthogonally adjacent; the empty path and the paths of
    one tile are accepted. *)
Theorem isValidPath_iff_connected (path : list GridPos) :
  isValidPath path = true ↔ connected path.
Proof.
  destruct path as [|prev rest]; simpl.
  - split; [|done]. intros _ i a b Ha. by destruct i.
  - apply stepsValid_spec.
Qed.

(** X6.  [pathToDirections] gives one direction per step; for a path whose
    consecutive coordinates are adjacent, walking from its first tile along
    these directions (by the vectors of [Constants.Directions]) visits the
    path again, tile by tile: no step is lost and none reads "none". *)
Theorem pathToDirections_round_trip (start : GridPos) (rest : list GridPos) :
  connected (start :: rest) →
  length (pathToDirections (start :: rest)) = length rest
  ∧ follow start (pathToDirections (start :: rest)) = Some (start :: rest)
  ∧ "none" ∉ pathToDirections (start :: rest).
Proof.
  intros Hc. simpl. split_and!.
  - apply directionsFrom_length.
  - by apply follow_directionsFrom.
  - revert start Hc. induction rest as [|curr rest IH]; intros start Hc; simpl.
    + apply not_elem_of_nil.
    + apply not_elem_of_cons. split.
      * pose proof (move_getDirection start curr (Hc 0%nat start curr eq_refl eq_refl)) as Hm.
        intros Heq. rewrite <-Heq in Hm. done.
      * apply IH. intros i a b Ha Hb. by apply (Hc (S i)).
Qed.

Lemma pathToDirections_round_trip_witness :
  length (pathToDirections (mkPos 2 4 :: [mkPos 3 4; mkPos 3 3; mkPos 2 3])) = 3%nat
  ∧ follow (mkPos 2 4) (pathToDirections (mkPos 2 4 :: [mkPos 3 4; mkPos 3 3; mkPos 2 3]))
    = Some (mkPos 2 4 :: [mkPos 3 4; mkPos 3 3; mkPos 2 3])
  ∧ "none" ∉ pathToDirections (mkPos 2 4 :: [mkPos 3 4; mkPos 3 3; mkPos 2 3]).
Proof.
  apply (pathToDirections_round_trip (mkPos 2 4) [mkPos 3 4; mkPos 3 3; mkPos 2 3]).
  apply stepsValid_spec. reflexivity.
Defined.

End PathGeneratorProperties.

(** ** The generator at its edges *)

Module GeneratorEdgeProperties.
Import MathHelpers PathGenerator PathSpec PathFacts PerimeterSpec GeneratorEdgeFacts.

(** X7.  Without a start position, on a grid with [rows ≥ 1] and
    [columns ≥ 1], the path returned by [generatePath] begins on the border of
    the grid, whatever the requested length, the oracle and the sort engine. *)
Theorem generatePath_starts_on_perimeter `{ArraySort} rows columns pathLength r :
  1 ≤ rows → 1 ≤ columns →
  ∃ path r' s,
    generatePath rows columns pathLength None r = Some (path, r')
    ∧ head path = Some s
    ∧ onPerimeter rows columns s.
Proof.
  intros Hrows Hcols. unfold generatePath.
  set (L := Z.min pathLength (rows * columns)).
  destruct (retryLoop_result rows columns L Hrows Hcols
              (λ path, ∃ s, head path = Some s ∧ onPerimeter rows columns s)
              None MAX_RETRIES None r) as (path & r' & Hloop & s & Hhd & Hs).
  - intros r0 res r1 Hatt.
    apply (attempt_head_perimeter rows columns L r0 res r1); [done|done|lia|done].
  - done.
  - left. unfold MAX_RETRIES. lia.
  - eauto 10.
Qed.

Lemma generatePath_starts_on_perimeter_witness :
  ∃ path r' s,
    generatePath (H := Demo.insertionSortEngine) 5 5 7 None Demo.oracle = Some (path, r')
    ∧ head path = Some s
    ∧ onPerimeter 5 5 s.
Proof.
  apply (generatePath_starts_on_perimeter (H := Demo.insertionSortEngine) 5 5 7); lia.
Defined.

(** X8.  Asked for at most one tile (after clamping to [rows × columns]) from
    a given start, [generatePath] returns the start alone and draws nothing
    from [Math.random]; the start is not checked against the grid, which may
    even have no cell. *)
Theorem generatePath_single_tile `{ArraySort} rows columns pathLength s r :
  Z.min pathLength (rows * columns) ≤ 1 →
  generatePath rows columns pathLength (Some s) r = Some ([s], r).
Proof.
  intros HL. unfold generatePath, MAX_RETRIES.
  apply retryLoop_first; [by apply attempt_single|simpl; lia].
Qed.

Lemma generatePath_single_tile_witness :
  generatePath (H := Demo.insertionSortEngine) 0 5 9 (Some (mkPos 7 7)) Demo.oracle
  = Some ([mkPos 7 7], Demo.oracle).
Proof.
  apply (generatePath_single_tile (H := Demo.insertionSortEngine) 0 5 9). lia.
Defined.



End GeneratorEdgeProperties.

(** ** The grid manager *)

Module GridManagerProperties.
Import MathHelpers PathGenerator GridManager.
Import ArraySpec PathSpec GridSpec ArrayFacts PathFacts GridFacts GridCellFacts.

(** X10.  [initialize(origin, rows, columns)] raises no exception and leaves
    an initialized grid of [rows × columns] tiles, the default 5 for a missing
    or zero dimension, with an empty path: [getTileAt(x, z)] is [null] outside
    the grid and inside it a tile that carries its own coordinates, its world
    position by [gridToWorld], state default, [isPathTile = false] and
    [pathIndex = -1], whatever the grid held before. *)
Theorem initialize_creates_grid originPosition rows' columns' g :
  let R := orDefault rows' Constants.GridConfig.DEFAULT_ROWS in
  let C := orDefault columns' Constants.GridConfig.DEFAULT_COLUMNS in
  ∃ g', initialize originPosition rows' columns' g = Some g'
    ∧ isInitialized g' = true
    ∧ rows (gridConfig g') = R ∧ columns (gridConfig g') = C
    ∧ wf g'
    ∧ getPath g' = []
    ∧ ∀ x z,
        getTileAt g' x z =
        if isValidGridPosition x z R C
        then Some {| gridX := x; gridZ := z;
                     worldPosition :=
                       gridToWorld x z originPosition
                         (tileSize (gridConfig g)) (tileGap (gridConfig g));
                     state := st_default; isPathTile := false; pathIndex := -1 |}
        else None.
Proof.
  intros R C. unfold initialize, createGrid. cbn [gridConfig clearGrid setPathData
    setArrays hideAllArrows setTileObjects origin rows columns tileSize tileGap script
    onTriggerEnteredCallback pathData isInitialized].
  fold R C.
  assert ((if (0 <? R) && (0 <? C) then Some originPosition else Some (mkVec3 0 0 0))
          = Some (if (0 <? R) && (0 <? C) then originPosition else mkVec3 0 0 0)) as ->
    by (by destruct ((0 <? R) && (0 <? C))).
  cbn [mbind option_bind]. eexists. split; [reflexivity|].
  split_and!; try reflexivity.
  - split; apply cells_shape.
  - intros x z. destruct (isValidGridPosition x z R C) eqn:Hv.
    + rewrite getTileAt_lookup by done.
      apply isValidGridPosition_spec in Hv as [Hx Hz]; simpl in Hx, Hz.
      cbn [gridConfig setArrays tiles].
      destruct (cells_lookup R C
                  (λ x z, {| gridX := x; gridZ := z;
                             worldPosition :=
                               gridToWorld x z
                                 (if (0 <? R) && (0 <? C) then originPosition
                                  else mkVec3 0 0 0)
                                 (tileSize (gridConfig g)) (tileGap (gridConfig g));
                             state := st_default; isPathTile := false;
                             pathIndex := -1 |}) x z Hx Hz) as (row & -> & Hrow).
      simpl. rewrite Hrow.
      destruct (Z.ltb_spec 0 R), (Z.ltb_spec 0 C); simpl; (done || lia).
    + by apply getTileAt_invalid.
Qed.


(** X11.  On a grid whose arrays have one entry per cell, [markTileCorrect]
    and [markTileWrong] raise no exception; for coordinates outside the grid
    they change nothing; inside, [getTileAt] then shows the tile with state
    correct (wrong) and its other fields as they were, every other tile is as
    before, and the path is untouched. *)
Theorem markTile_changes_one_tile g x z :
  wf g →
  ∃ g1 g2,
    markTileCorrect g x z = Some g1 ∧ markTileWrong g x z = Some g2
    ∧ (isValidTilePosition g x z = false → g1 = g ∧ g2 = g)
    ∧ (isValidTilePosition g x z = true →
       ∃ t, getTileAt g x z = Some t
            ∧ getTileAt g1 x z = Some (setState st_correct t)
            ∧ getTileAt g2 x z = Some (setState st_wrong t))
    ∧ (∀ x' z', ¬ (x' = x ∧ z' = z) →
         getTileAt g1 x' z' = getTileAt g x' z'
         ∧ getTileAt g2 x' z' = getTileAt g x' z')
    ∧ getPath g1 = getPath g ∧ getPath g2 = getPath g.
Proof.
  intros Hwf.
  destruct (markTile_total st_correct TILE_CORRECT g x z Hwf) as [g1 Hg1].
  destruct (markTile_total st_wrong TILE_WRONG g x z Hwf) as [g2 Hg2].
  exists g1, g2. split; [done|]. split; [done|].
  destruct (markTile_wf _ _ _ _ _ _ Hwf Hg1) as (_ & Hp1 & _).
  destruct (markTile_wf _ _ _ _ _ _ Hwf Hg2) as (_ & Hp2 & _).
  destruct (isValidTilePosition g x z) eqn:Hv.
  - split; [done|]. split.
    + intros _.
      destruct (markTile_valid st_correct TILE_CORRECT g x z Hwf Hv)
        as (trow & a & _ & _ & Htr & Ha & _).
      exists a.
      assert (getTileAt g x z = Some a) as Hget.
      { rewrite getTileAt_lookup by done. by rewrite Htr; simpl. }
      rewrite (markTile_getTileAt _ _ _ _ _ _ x z Hwf Hv Hg1),
              (markTile_getTileAt _ _ _ _ _ _ x z Hwf Hv Hg2).
      rewrite !decide_True by done. by rewrite Hget.
    + split; [|by unfold getPath; rewrite Hp1, Hp2].
      intros x' z' Hne.
      rewrite (markTile_getTileAt _ _ _ _ _ _ x' z' Hwf Hv Hg1),
              (markTile_getTileAt _ _ _ _ _ _ x' z' Hwf Hv Hg2).
      by rewrite !decide_False by done.
  - unfold markTileCorrect, markTileWrong, markTile in *. rewrite Hv in *.
    simpl in *. simplify_eq. done.
Qed.

Lemma markTile_changes_one_tile_witness :
  ∃ g1 g2,
    markTileCorrect Demo.grid 1 3 = Some g1 ∧ markTileWrong Demo.grid 1 3 = Some g2
    ∧ (isValidTilePosition Demo.grid 1 3 = false → g1 = Demo.grid ∧ g2 = Demo.grid)
    ∧ (isValidTilePosition Demo.grid 1 3 = true →
       ∃ t, getTileAt Demo.grid 1 3 = Some t
            ∧ getTileAt g1 1 3 = Some (setState st_correct t)
            ∧ getTileAt g2 1 3 = Some (setState st_wrong t))
    ∧ (∀ x' z', ¬ (x' = 1 ∧ z' = 3) →
         getTileAt g1 x' z' = getTileAt Demo.grid x' z'
         ∧ getTileAt g2 x' z' = getTileAt Demo.grid x' z')
    ∧ getPath g1 = getPath Demo.grid ∧ getPath g2 = getPath Demo.grid.
Proof.
  apply (markTile_changes_one_tile Demo.grid 1 3).
  split; split; vm_compute; repeat constructor.
Defined.

(** X12.  Between [clearGrid] and the next [createGrid], and before the first
    [initialize], the grid still says [rows × columns] while its arrays are
    empty: [resetTileStates] then raises a TypeError (it reads
    [tiles[0][0]]), and so do [markTileCorrect] and [markTileWrong] on
    coordinates of the grid. *)
Theorem cleared_grid_raises g x z :
  1 ≤ rows (gridConfig g) → 1 ≤ columns (gridConfig g) →
  isValidTilePosition g x z = true →
  resetTileStates (clearGrid g) = None
  ∧ markTileCorrect (clearGrid g) x z = None
  ∧ markTileWrong (clearGrid g) x z = None
  ∧ resetTileStates (initial (script g)) = None.
Proof.
  intros Hr Hc Hv.
  assert (∀ s, tiles (gridConfig s) = [] → 1 ≤ rows (gridConfig s) →
               1 ≤ columns (gridConfig s) → resetTileStates s = None) as Hreset.
  { intros s Ht Hrs Hcs. unfold resetTileStates.
    cbn [hideAllArrows setTileObjects setArrays gridConfig rows columns].
    rewrite (seqZ_cons 0 (rows (gridConfig s))) by lia.
    rewrite (seqZ_cons 0 (columns (gridConfig s))) by lia.
    cbn [forLoop].
    assert (resetCell 0 0 (hideAllArrows s) = None) as ->; [|done].
    unfold resetCell, update2. cbn [hideAllArrows setTileObjects gridConfig tiles setArrays].
    by rewrite Ht. }
  split_and!.
  - by apply Hreset.
  - unfold markTileCorrect, markTile.
    change (isValidTilePosition (clearGrid g) x z) with (isValidTilePosition g x z).
    rewrite Hv. cbn [negb].
    assert (at_index (tileObjects (gridConfig (clearGrid g))) z = None) as ->; [|done].
    unfold at_index. simpl. case_match; [done|apply lookup_nil].
  - unfold markTileWrong, markTile.
    change (isValidTilePosition (clearGrid g) x z) with (isValidTilePosition g x z).
    rewrite Hv. cbn [negb].
    assert (at_index (tileObjects (gridConfig (clearGrid g))) z = None) as ->; [|done].
    unfold at_index. simpl. case_match; [done|apply lookup_nil].
  - by apply Hreset.
Qed.

Lemma cleared_grid_raises_witness :
  resetTileStates (clearGrid Demo.grid) = None
  ∧ markTileCorrect (clearGrid Demo.grid) 2 4 = None
  ∧ markTileWrong (clearGrid Demo.grid) 2 4 = None
  ∧ resetTileStates (initial (script Demo.grid)) = None.
Proof. apply (cleared_grid_raises Demo.grid 2 4); [by vm_compute..|reflexivity]. Defined.



End GridManagerProperties.

(** ** The path on the grid *)

Module GridPathProperties.
Import MathHelpers PathGenerator GridManager.
Import ArraySpec PathSpec GridSpec MarkSpec ArrayFacts PathFacts GridFacts GridCellFacts MarkFacts.

(** X14.  On a grid whose arrays have one entry per cell, with at least one
    row and one column, [generateNewPath] raises no exception, stores the path
    it returns, and marks exactly the tiles of that path: the tile at
    [path[i]] gets [isPathTile = true], [pathIndex = i] and the state start
    for [i = 0], end for the last index, path in between; every other tile
    keeps the data it had, marks of an earlier path included. *)
Theorem generateNewPath_marks_path `{ArraySort} pathLength g r :
  wf g → 1 ≤ rows (gridConfig g) → 1 ≤ columns (gridConfig g) →
  ∃ thePath g' r',
    generateNewPath pathLength g r = Some (thePath, g', r')
    ∧ getPath g' = thePath
    ∧ (∀ i pos, thePath !! i = Some pos →
         ∃ t, getTileAt g (pos_x pos) (pos_z pos) = Some t
              ∧ getTileAt g' (pos_x pos) (pos_z pos)
                = Some (markPathTile (Z.of_nat i) (stateAt (length thePath) i) t))
    ∧ (∀ x z, mkPos x z ∉ thePath → getTileAt g' x z = getTileAt g x z).
Proof.
  intros Hwf Hrows Hcols. unfold generateNewPath, generatePathFromBottom.
  destruct (generatePath_props (rows (gridConfig g)) (columns (gridConfig g)) pathLength
              (Some (mkPos (columns (gridConfig g) `div` 2) (rows (gridConfig g) - 1))) r
              Hrows Hcols) as (thePath & r' & -> & _ & Hnd & _ & Hb).
  assert (Forall (inBounds (rows (gridConfig g)) (columns (gridConfig g))) thePath) as Hin.
  { apply Hb. intros s [= <-]. by apply bottom_start_inBounds. }
  simpl.
  set (g1 := setPathData {| path := thePath; isRevealed := isRevealed (pathData g) |} g).
  destruct (markPathCell_prefix thePath g1 (length thePath))
    as (g' & -> & Hwf' & Hpd & Hr & Hc & Hon & Hoff); [done..|].
  simpl. exists thePath, g', r'. split; [done|].
  assert (∀ x z, isValidTilePosition g' x z = isValidTilePosition g x z) as Hvalid.
  { intros. unfold isValidTilePosition. by rewrite Hr, Hc. }
  split_and!.
  - unfold getPath. by rewrite Hpd.
  - intros i pos Hpos.
    pose proof (Forall_lookup_1 _ _ _ _ Hin Hpos) as Hbounds.
    assert (isValidTilePosition g (pos_x pos) (pos_z pos) = true) as Hv.
    { apply isValidTilePosition_spec. destruct Hbounds. lia. }
    destruct Hwf as [HT HO].
    destruct (update2_Some id _ _ _ (pos_z pos) (pos_x pos) HT)
      as (row & a & Hrow & Ha & _); [destruct Hbounds; lia..|].
    exists a. rewrite !getTileAt_lookup by (by rewrite ?Hvalid).
    rewrite (Hon i pos) by (by eapply lookup_lt_Some || done).
    cbn [g1 gridConfig setPathData tiles]. rewrite Hrow; simpl. by rewrite Ha.
  - intros x z Hnot. destruct (isValidTilePosition g x z) eqn:Hv.
    + rewrite !getTileAt_lookup by (by rewrite ?Hvalid).
      rewrite Hoff; [done|].
      intros i pos _ Hpos [Hz Hx]. apply Hnot.
      pose proof (Forall_lookup_1 _ _ _ _ Hin Hpos) as [Hbx Hbz].
      apply isValidTilePosition_spec in Hv as [Hvx Hvz].
      assert (mkPos x z = pos) as -> by (destruct pos; simpl in *; f_equal; lia).
      by eapply list_elem_of_lookup_2.
    + by rewrite !getTileAt_invalid by (by rewrite ?Hvalid).
Qed.

Lemma generateNewPath_marks_path_witness :
  ∃ thePath g' r',
    generateNewPath (H := Demo.insertionSortEngine) 5 Demo.placedGrid Demo.oracle
      = Some (thePath, g', r')
    ∧ getPath g' = thePath
    ∧ (∀ i pos, thePath !! i = Some pos →
         ∃ t, getTileAt Demo.placedGrid (pos_x pos) (pos_z pos) = Some t
              ∧ getTileAt g' (pos_x pos) (pos_z pos)
                = Some (markPathTile (Z.of_nat i) (stateAt (length thePath) i) t))
    ∧ (∀ x z, mkPos x z ∉ thePath → getTileAt g' x z = getTileAt Demo.placedGrid x z).
Proof.
  apply (generateNewPath_marks_path (H := Demo.insertionSortEngine) 5 Demo.placedGrid
           Demo.oracle).
  - split; split; vm_compute; repeat constructor.
  - vm_compute. discriminate.
  - vm_compute. discriminate.
Defined.

End GridPathProperties.

(** ** The validator over a session *)

Module TrackerProperties.
Import MathHelpers PlayerTracker.
Import ArraySpec GridSpec TrackerSpec TraceSpec ArrayFacts PathFacts GridFacts TrackerFacts
  GridCellFacts TraceFacts.

(** X15.  In normal mode, whatever tiles are entered after [startTracking]
    and in whatever order, as long as no entry raises: the grid manager keeps
    its path [P], [stepsOnPath] is the list of the first [pathProgress] tiles
    of [P] with [pathProgress ≤ |P|] (a wrong step never advances, a step is
    never skipped), tracking is still armed (the tracker never disarms
    itself), and the current tile is the last tile entered. *)
Theorem tracker_steps_are_a_prefix w g entries w' :
  gridManager w = Some g →
  Constants.SKIP_PATH_CHECK (debugConfig w) = false →
  enterTiles entries (startTracking w) = Some w' →
  (∃ g', gridManager w' = Some g'
         ∧ GridManager.getPath g' = GridManager.getPath g)
  ∧ (pathProgress (trackingState w') ≤ length (GridManager.getPath g))%nat
  ∧ stepsOnPath (trackingState w')
    = take (pathProgress (trackingState w')) (GridManager.getPath g)
  ∧ isTracking (trackingState w') = true
  ∧ currentTile (trackingState w') = last entries.
Proof.
  intros Hg Hmode Hrun.
  pose proof (startTracking_SessionInv w g Hg Hmode) as Hinv.
  destruct (enterTiles_SessionInv _ _ _ _ _ Hinv Hrun) as [[?????] Hcur].
  split_and!; try done. rewrite Hcur. destruct (last entries); [done|].
  unfold startTracking; simpl. by rewrite Hg.
Qed.

Lemma tracker_steps_are_a_prefix_witness :
  ∃ w',
    enterTiles [mkPos 2 4; mkPos 3 4; mkPos 0 0] (startTracking Demo.world) = Some w'
    ∧ (∃ g', gridManager w' = Some g'
             ∧ GridManager.getPath g' = GridManager.getPath Demo.grid)
    ∧ (pathProgress (trackingState w') ≤ length (GridManager.getPath Demo.grid))%nat
    ∧ stepsOnPath (trackingState w')
      = take (pathProgress (trackingState w')) (GridManager.getPath Demo.grid)
    ∧ isTracking (trackingState w') = true
    ∧ currentTile (trackingState w') = last [mkPos 2 4; mkPos 3 4; mkPos 0 0].
Proof.
  eexists. split; [vm_compute; reflexivity|].
  apply (tracker_steps_are_a_prefix Demo.world Demo.grid
           [mkPos 2 4; mkPos 3 4; mkPos 0 0]); [reflexivity|reflexivity|].
  vm_compute. reflexivity.
Defined.


(** X16.  The validator does not disarm itself when the path is completed: in
    normal mode, after the tiles of the path [P] have been entered in order,
    tracking is still armed with [pathProgress = |P|], and the next entry of
    any tile other than the last of [P] raises a TypeError (there is no
    expected tile left to read).  Stopping the tracker on completion is left
    to the listener of [onPathCompleted]. *)
Theorem entry_after_completion_raises w g P q :
  gridManager w = Some g → wf g → GridManager.getPath g = P →
  NoDup P → P ≠ [] →
  Constants.SKIP_PATH_CHECK (debugConfig w) = false →
  onCorrectStep (callbacks w) = true → onPathCompleted (callbacks w) = true →
  last P ≠ Some q →
  ∃ w',
    enterTiles P (startTracking w) = Some w'
    ∧ isTracking (trackingState w') = true
    ∧ pathProgress (trackingState w') = length P
    ∧ handleTriggerEntered (pos_x q) (pos_z q) w' = None.
Proof.
  intros Hg Hwf Hpath Hnd Hne Hmode Hcs Hpc Hq.
  assert (gridManager (startTracking w) = Some (GridManager.resetTriggers g)
          ∧ callbacks (startTracking w) = callbacks w
          ∧ debugConfig (startTracking w) = debugConfig w
          ∧ trackingState (startTracking w)
            = {| isTracking := true; pathProgress := 0; stepsOnPath := [];
                 currentTile := None |}) as (Hg0 & Hcb0 & Hdbg0 & Htr0).
  { unfold startTracking; simpl. by rewrite Hg. }
  destruct (enterTiles_path P [] (startTracking w) (GridManager.resetTriggers g))
    as (w' & Hrun & Harmed & Hpp & _);
    rewrite ?Htr0, ?Hcb0, ?Hdbg0; try done.
  pose proof (startTracking_SessionInv w g Hg Hmode) as Hinv.
  destruct (enterTiles_SessionInv _ _ _ _ _ Hinv Hrun)
    as [[(g' & Hg' & Hpath') Hmode' _ _ _ _] Hcur].
  exists w'. split_and!; [done..|].
  apply (handleTriggerEntered_past_the_end q w' g');
    [done|by rewrite Hpath', Hpath|done|done| |].
  - rewrite Hpath', Hpath, Hpp. simpl. lia.
  - rewrite Hcur. destruct (last P) eqn:Hl; [done|]. by apply last_None in Hl.
Qed.

Lemma entry_after_completion_raises_witness :
  ∃ w',
    enterTiles Demo.thePath (startTracking Demo.world) = Some w'
    ∧ isTracking (trackingState w') = true
    ∧ pathProgress (trackingState w') = length Demo.thePath
    ∧ handleTriggerEntered (pos_x (mkPos 4 1)) (pos_z (mkPos 4 1)) w' = None.
Proof.
  apply (entry_after_completion_raises Demo.world Demo.grid Demo.thePath (mkPos 4 1)).
  - reflexivity.
  - repeat split; vm_compute; repeat constructor.
  - vm_compute. reflexivity.
  - apply (bool_decide_unpack _). vm_compute. exact I.
  - discriminate.
  - reflexivity.
  - reflexivity.
  - reflexivity.
  - vm_compute. discriminate.
Defined.

(** X17.  With [SKIP_PATH_CHECK] set, an armed entry of a new tile is never a
    wrong step, whatever the tile: the tile is appended to [stepsOnPath] and
    one correct-step is called; if the tile is the last tile of the path,
    [pathProgress] jumps to [|P|] and path-completed is called as well, even
    on the very first entry; otherwise [pathProgress] grows by one. *)
Theorem debug_mode_accepts_any_tile w g p :
  gridManager w = Some g → wf g → GridManager.getPath g ≠ [] →
  Constants.SKIP_PATH_CHECK (debugConfig w) = true →
  isTracking (trackingState w) = true →
  currentTile (trackingState w) ≠ Some p →
  onCorrectStep (callbacks w) = true → onPathCompleted (callbacks w) = true →
  let P := GridManager.getPath g in
  ∃ w',
    handleTriggerEntered (pos_x p) (pos_z p) w = Some w'
    ∧ stepsOnPath (trackingState w') = stepsOnPath (trackingState w) ++ [p]
    ∧ if decide (last P = Some p)
      then pathProgress (trackingState w') = length P
           ∧ stepEvents (emitted w')
             = stepEvents (emitted w)
               ++ [CorrectStep p (length P) (length P);
                   PathCompleted (stepsOnPath (trackingState w) ++ [p])]
      else pathProgress (trackingState w') = S (pathProgress (trackingState w))
           ∧ stepEvents (emitted w')
             = stepEvents (emitted w)
               ++ [CorrectStep p (S (pathProgress (trackingState w))) (length P)].
Proof.
  intros Hg Hwf Hne Hmode Harmed Hcur Hcs Hpc P.
  destruct (markTile_total GridManager.st_correct GridManager.TILE_CORRECT g
              (pos_x p) (pos_z p) Hwf) as [g' Hg'].
  destruct w as [[tr pp steps cur] cbs gm dbg log].
  cbn [gridManager debugConfig trackingState callbacks stepsOnPath pathProgress
       isTracking currentTile emitted] in *. subst.
  unfold handleTriggerEntered.
  cbn [gridManager debugConfig trackingState callbacks stepsOnPath pathProgress
       isTracking currentTile emitted negb]. rewrite mkPos_eta.
  destruct (isSameGridPosition (Some p) cur) eqn:Hsame.
  { apply isSameGridPosition_Some in Hsame. by subst. }
  assert (∀ w0, gridManager w0 = Some g → debugConfig w0 = dbg → callbacks w0 = cbs →
                stepsOnPath (trackingState w0) = steps →
                pathProgress (trackingState w0) = pp →
                ∃ w', validateStep p w0 = Some w'
                  ∧ stepsOnPath (trackingState w') = steps ++ [p]
                  ∧ if decide (last P = Some p)
                    then pathProgress (trackingState w') = length P
                         ∧ emitted w' = emitted w0
                             ++ [CorrectStep p (length P) (length P);
                                 PathCompleted (steps ++ [p])]
                    else pathProgress (trackingState w') = S pp
                         ∧ emitted w' = emitted w0 ++ [CorrectStep p (S pp) (length P)])
    as Hval.
  { intros [[tr0 pp0 steps0 cur0] cbs0 gm0 dbg0 log0].
    cbn [gridManager debugConfig trackingState callbacks stepsOnPath pathProgress
         isTracking currentTile emitted]. intros -> -> -> -> ->.
    unfold validateStep.
    cbn [gridManager debugConfig trackingState callbacks stepsOnPath pathProgress
         isTracking currentTile emitted]. fold P.
    destruct (length P =? 0)%nat eqn:Hlen.
    { apply Nat.eqb_eq, nil_length_inv in Hlen. done. }
    rewrite Hmode. unfold GridManager.markTileCorrect in *. rewrite Hg'.
    cbn [mbind option_bind].
    destruct (decide (last P = Some p)) as [Hlast|Hlast].
    - rewrite (proj2 (isSameGridPosition_Some p (last P)) Hlast).
      eexists. split; [done|]. rewrite Hcs, Hpc; simpl.
      split; [done|]. split; [done|]. by rewrite <-app_assoc.
    - destruct (isSameGridPosition (Some p) (last P)) eqn:Hs.
      { apply isSameGridPosition_Some in Hs. done. }
      eexists. split; [done|]. rewrite Hcs; simpl. done. }
  destruct cur as [c|], (onTileExited cbs), (onTileEntered cbs);
    cbn [emit setTracking gridManager debugConfig trackingState callbacks stepsOnPath
         pathProgress isTracking currentTile emitted];
    match goal with |- context [validateStep p ?w0] =>
      destruct (Hval w0) as (w' & -> & Hsteps & Hrest); try done
    end; exists w'; (split; [done|]); (split; [done|]);
    destruct (decide (last P = Some p)); destruct Hrest as [Hpp ->]; (split; [done|]);
    cbn [emitted]; rewrite !stepEvents_app; simpl; rewrite ?app_nil_r; done.
Qed.


Lemma debug_mode_accepts_any_tile_witness :
  let w := startTracking
             {| trackingState := trackingState Demo.world;
                callbacks := callbacks Demo.world;
                gridManager := Some Demo.grid;
                debugConfig := {| Constants.ENABLED := false;
                                  Constants.SKIP_PATH_CHECK := true |};
                emitted := [] |} in
  let P := GridManager.getPath (GridManager.resetTriggers Demo.grid) in
  ∃ w',
    handleTriggerEntered (pos_x (mkPos 4 2)) (pos_z (mkPos 4 2)) w = Some w'
    ∧ stepsOnPath (trackingState w') = stepsOnPath (trackingState w) ++ [mkPos 4 2]
    ∧ if decide (last P = Some (mkPos 4 2))
      then pathProgress (trackingState w') = length P
           ∧ stepEvents (emitted w')
             = stepEvents (emitted w)
               ++ [CorrectStep (mkPos 4 2) (length P) (length P);
                   PathCompleted (stepsOnPath (trackingState w) ++ [mkPos 4 2])]
      else pathProgress (trackingState w') = S (pathProgress (trackingState w))
           ∧ stepEvents (emitted w')
             = stepEvents (emitted w)
               ++ [CorrectStep (mkPos 4 2) (S (pathProgress (trackingState w))) (length P)].
Proof.
  apply (debug_mode_accepts_any_tile _ (GridManager.resetTriggers Demo.grid) (mkPos 4 2)).
  - reflexivity.
  - repeat split; vm_compute; repeat constructor.
  - vm_compute. discriminate.
  - reflexivity.
  - reflexivity.
  - discriminate.
  - reflexivity.
  - reflexivity.
Defined.

(** X18.  The grid shows what the validator decided: in normal mode, after an
    armed entry of a new tile while a tile of the path is still expected, the
    entered tile has state correct if it is the expected tile and wrong
    otherwise, its other fields and every other tile being as before; an
    entry outside the grid changes no tile. *)
Theorem step_marks_the_entered_tile w g p :
  gridManager w = Some g → wf g →
  Constants.SKIP_PATH_CHECK (debugConfig w) = false →
  isTracking (trackingState w) = true →
  currentTile (trackingState w) ≠ Some p →
  (pathProgress (trackingState w) < length (GridManager.getPath g))%nat →
  ∃ w' g',
    handleTriggerEntered (pos_x p) (pos_z p) w = Some w'
    ∧ gridManager w' = Some g'
    ∧ ∀ x z,
        GridManager.getTileAt g' x z
        = if decide (x = pos_x p ∧ z = pos_z p)
          then GridManager.setState
                 (if decide (GridManager.getPath g !! pathProgress (trackingState w) = Some p)
                  then GridManager.st_correct else GridManager.st_wrong)
               <$> GridManager.getTileAt g x z
          else GridManager.getTileAt g x z.
Proof.
  intros Hg Hwf Hmode Harmed Hcur Hlt.
  destruct (handleTriggerEntered_validates p w Harmed Hcur)
    as (w0 & -> & Hg0 & Hdbg0 & _ & Hpp0 & _).
  destruct (lookup_lt_is_Some_2 _ _ Hlt) as [expected Hexp].
  unfold validateStep. rewrite Hg0, Hg, Hdbg0, Hmode.
  destruct (length (GridManager.getPath g) =? 0)%nat eqn:Hlen.
  { apply Nat.eqb_eq in Hlen. lia. }
  rewrite Hpp0, Hexp.
  destruct (decide (Some expected = Some p)) as [Heq|Hne].
  - rewrite (proj2 (isSameGridPosition_Some p (Some expected))) by done.
    destruct (markTile_total GridManager.st_correct GridManager.TILE_CORRECT g
                (pos_x p) (pos_z p) Hwf) as [g' Hg'].
    unfold GridManager.markTileCorrect. rewrite Hg'. cbn [mbind option_bind].
    assert (∀ x z,
              GridManager.getTileAt g' x z
              = if decide (x = pos_x p ∧ z = pos_z p)
                then GridManager.setState GridManager.st_correct
                     <$> GridManager.getTileAt g x z
                else GridManager.getTileAt g x z) as Htiles.
    { intros x z.
      rewrite (markTile_getTileAt_any _ _ g (pos_x p) (pos_z p) g' x z Hwf Hg').
      case_decide as Hd; [destruct Hd as [-> ->]|]; done. }
    destruct (_ <=? _)%nat; eexists _, g'; (split; [done|]); split;
      rewrite ?(proj1 (proj2 (proj2 (emit_fields _ _ _)))); done.
  - destruct (isSameGridPosition (Some p) (Some expected)) eqn:Hs.
    { apply isSameGridPosition_Some in Hs. done. }
    destruct (markTile_total GridManager.st_wrong GridManager.TILE_WRONG g
                (pos_x p) (pos_z p) Hwf) as [g' Hg'].
    unfold GridManager.markTileWrong. rewrite Hg'. cbn [mbind option_bind].
    eexists _, g'. split; [done|]. split.
    + by rewrite (proj1 (proj2 (proj2 (emit_fields _ _ _)))).
    + intros x z.
      rewrite (markTile_getTileAt_any _ _ g (pos_x p) (pos_z p) g' x z Hwf Hg').
      case_decide as Hd; [destruct Hd as [-> ->]|]; done.
Qed.

Lemma step_marks_the_entered_tile_witness :
  ∃ w' g',
    handleTriggerEntered (pos_x (mkPos 1 1)) (pos_z (mkPos 1 1))
      (startTracking Demo.world) = Some w'
    ∧ gridManager w' = Some g'
    ∧ ∀ x z,
        GridManager.getTileAt g' x z
        = if decide (x = pos_x (mkPos 1 1) ∧ z = pos_z (mkPos 1 1))
          then GridManager.setState
                 (if decide (GridManager.getPath (GridManager.resetTriggers Demo.grid)
                               !! pathProgress (trackingState (startTracking Demo.world))
                             = Some (mkPos 1 1))
                  then GridManager.st_correct else GridManager.st_wrong)
               <$> GridManager.getTileAt (GridManager.resetTriggers Demo.grid) x z
          else GridManager.getTileAt (GridManager.resetTriggers Demo.grid) x z.
Proof.
  apply (step_marks_the_entered_tile (startTracking Demo.world)
           (GridManager.resetTriggers Demo.grid) (mkPos 1 1)).
  - reflexivity.
  - repeat split; vm_compute; repeat constructor.
  - reflexivity.
  - reflexivity.
  - discriminate.
  - vm_compute. lia.
Defined.

End TrackerProperties.

(** ** Levels *)

Module LevelProperties.
Import GameStateManager.

(** X19.  For every level [≥ 1], [getLevelConfig] asks for a path of
    [5 + 2 (level - 1)] tiles up to level 11 and of 25 tiles from level 11 on:
    between 5 and 25 tiles, never more than the [5 × 5] grid of the level
    holds, and never fewer than for a lower level. *)
Theorem getLevelConfig_path_length (level level' : Z) :
  1 ≤ level → level ≤ level' →
  let c := getLevelConfig level in
  5 ≤ pathLength c ≤ 25
  ∧ pathLength c ≤ gridRows c * gridColumns c
  ∧ (level ≤ 11 → pathLength c = 5 + 2 * (level - 1))
  ∧ (11 ≤ level → pathLength c = 25)
  ∧ pathLength c ≤ pathLength (getLevelConfig level').
Proof.
  intros H1 Hle. unfold getLevelConfig. simpl.
  unfold Constants.LevelConfig.BASE_PATH_LENGTH, Constants.LevelConfig.PATH_INCREMENT,
    Constants.LevelConfig.MAX_PATH_LENGTH, Constants.LevelConfig.GRID_ROWS,
    Constants.LevelConfig.GRID_COLUMNS.
  lia.
Qed.

Lemma getLevelConfig_path_length_witness :
  5 ≤ pathLength (getLevelConfig 4) ≤ 25
  ∧ pathLength (getLevelConfig 4) ≤ gridRows (getLevelConfig 4) * gridColumns (getLevelConfig 4)
  ∧ (4 ≤ 11 → pathLength (getLevelConfig 4) = 5 + 2 * (4 - 1))
  ∧ (11 ≤ 4 → pathLength (getLevelConfig 4) = 25)
  ∧ pathLength (getLevelConfig 4) ≤ pathLength (getLevelConfig 12).
Proof. apply (getLevelConfig_path_length 4 12); lia. Defined.

(** X20.  [setLevel] stores the level clamped to [1 .. 11] and touches nothing
    else; 11 is the first level whose path fills all 25 tiles, so for the
    stored level the path length of [getLevelConfig] is [5 + 2 (level - 1)]
    without the cap cutting it. *)
Theorem setLevel_clamps (level : Z) (s : GameState) :
  let s' := setLevel level s in
  1 ≤ currentLevel s' ≤ 11
  ∧ (1 ≤ level ≤ 11 → currentLevel s' = level)
  ∧ (level < 1 → currentLevel s' = 1)
  ∧ (11 < level → currentLevel s' = 11)
  ∧ pathLength (getLevelConfig (currentLevel s')) = 5 + 2 * (currentLevel s' - 1)
  ∧ setCurrentLevel (currentLevel s) s' = s.
Proof.
  unfold setLevel, getLevelConfig. simpl.
  unfold Constants.LevelConfig.BASE_PATH_LENGTH, Constants.LevelConfig.PATH_INCREMENT,
    Constants.LevelConfig.MAX_PATH_LENGTH.
  change ((25 - 5) `div` 2 + 1) with 11.
  split_and!; try lia. by destruct s.
Qed.

End LevelProperties.

(** ** The progress store *)

Module SaveManagerProperties.
Import SaveSystem SaveSpec SaveFacts.



(** X22. Failing a level adds one to the total retry count and to the retry
    count of that level (a level without a count starts from 0); the counts
    of the other levels, the current and the highest level and the unlocked
    achievements stay, and no achievement is announced. *)
Theorem onLevelFailed_counts (level : Z) (w : World) (d : SaveData) :
  saveData w = Some d →
  let w' := onLevelFailed level w in
  getTotalRetries w' = totalRetries d + 1
  ∧ getRetriesForLevel level w' = getRetriesForLevel level w + 1
  ∧ (∀ l, l ≠ level → getRetriesForLevel l w' = getRetriesForLevel l w)
  ∧ getCurrentLevel w' = currentLevel d
  ∧ getHighestLevel w' = highestLevel d
  ∧ getUnlockedAchievements w' = achievements d
  ∧ emitted w' = emitted w.
Proof.
  intros Hd w'. subst w'.
  destruct (onLevelFailed_spec level w d Hd) as (Hsd & _ & Hem). cbv zeta in *.
  unfold getCurrentLevel, getHighestLevel, getRetriesForLevel, getTotalRetries,
    getUnlockedAchievements.
  rewrite Hsd, Hd.
  cbn [setRetriesPerLevel setTotalRetries version currentLevel highestLevel
       totalRetries retriesPerLevel levelsCompletedFirstTry achievements].
  split_and!; try done.
  - rewrite objGet_failedRetries. by rewrite decide_True.
  - intros l Hl. rewrite objGet_failedRetries. rewrite decide_False by done. lia.
Qed.

Lemma onLevelFailed_counts_witness :
  let w := init (Some {| stored := NoEntry; writeRaises := false |})
             {| storage := None; saveData := None; achievementUnlockedListeners := [];
                achievementNotification := true; emitted := [] |} in
  let w' := onLevelFailed 2 w in
  getTotalRetries w' = totalRetries defaultSaveData + 1
  ∧ getRetriesForLevel 2 w' = getRetriesForLevel 2 w + 1
  ∧ (∀ l, l ≠ 2 → getRetriesForLevel l w' = getRetriesForLevel l w)
  ∧ getCurrentLevel w' = currentLevel defaultSaveData
  ∧ getHighestLevel w' = highestLevel defaultSaveData
  ∧ getUnlockedAchievements w' = achievements defaultSaveData
  ∧ emitted w' = emitted w.
Proof.
  apply (onLevelFailed_counts 2 _ defaultSaveData). reflexivity.
Defined.

(** X23. From save data with duplicate-free lists of achievements and of
    first-try levels, a current level not above the highest level, a highest
    level of at least 1 and a non-negative retry total, every sequence of
    level completions, failures and resets leaves save data of that kind;
    unless [resetAll] is among the calls, the achievements unlocked before
    are still unlocked, in the same places of the list. *)
Theorem progress_invariants (ops : list Op) (w : World) (d : SaveData) :
  saveData w = Some d → SaveInv d →
  ∃ d', saveData (run ops w) = Some d'
        ∧ SaveInv d'
        ∧ (Forall keepsAchievements ops → achievements d `prefix_of` achievements d').
Proof.
  intros Hd Hinv. induction ops as [|op ops IH] using rev_ind.
  { exists d. split; [done|]. split; [done|]. by intros _. }
  destruct IH as (d1 & Hd1 & Hinv1 & Hpre1). rewrite run_snoc.
  destruct (perform_spec (run ops w) op d1 Hd1) as (d2 & Hd2 & _ & Hinv2 & Hkeep).
  exists d2. split; [done|]. split; [by apply Hinv2|].
  intros [Hops Hop%Forall_inv]%Forall_app.
  destruct (Hkeep Hop) as (added & -> & _).
  by apply prefix_app_r, Hpre1.
Qed.

Lemma progress_invariants_witness :
  let w := init (Some {| stored := NoEntry; writeRaises := false |})
             {| storage := None; saveData := None; achievementUnlockedListeners := [];
                achievementNotification := true; emitted := [] |} in
  ∃ d', saveData (run [Failed 1; Completed 1 false; ResetLevelProgress] w) = Some d'
        ∧ SaveInv d'
        ∧ (Forall keepsAchievements [Failed 1; Completed 1 false; ResetLevelProgress] →
           achievements defaultSaveData `prefix_of` achievements d').
Proof.
  apply (progress_invariants [Failed 1; Completed 1 false; ResetLevelProgress]
           _ defaultSaveData).
  - reflexivity.
  - split; simpl; [constructor|constructor|lia..].
Defined.

(** X24. Starting with duplicate-free achievements and nothing announced yet,
    through every sequence of level completions, failures and resets other
    than [resetAll] the script passes no achievement to the notification
    queue twice, and only achievements that are unlocked and were not
    unlocked at the start. *)
Theorem achievements_enqueued_once (ops : list Op) (w : World) (d : SaveData) :
  saveData w = Some d → NoDup (achievements d) → emitted w = [] →
  Forall keepsAchievements ops →
  NoDup (enqueued (run ops w))
  ∧ ∀ id, id ∈ enqueued (run ops w) →
          hasAchievement id (run ops w) = true ∧ id ∉ achievements d.
Proof.
  intros Hd Hnd Hem Hops.
  assert (∃ d' new, saveData (run ops w) = Some d'
                    ∧ achievements d' = achievements d ++ new
                    ∧ NoDup (achievements d')
                    ∧ NoDup (enqueued (run ops w))
                    ∧ enqueued (run ops w) ⊆ new) as (d' & new & Hd' & Hach & Hnd' & Hen & Hsub).
  { induction ops as [|op ops IH] using rev_ind.
    - exists d, []. unfold run, enqueued. simpl. rewrite Hem, app_nil_r.
      split_and!; try done. constructor.
    - apply Forall_app in Hops as [Hops Hop%Forall_inv].
      destruct (IH Hops) as (d1 & new1 & Hd1 & Hach1 & Hnd1 & Hen1 & Hsub1).
      rewrite run_snoc.
      destruct (perform_spec (run ops w) op d1 Hd1) as (d2 & Hd2 & _ & _ & Hkeep).
      destruct (Hkeep Hop) as (added & Hach2 & Hen2 & Hndadd & Hfresh).
      exists d2, (new1 ++ added). rewrite Hd2, Hach2, Hach1, Hen2, <- app_assoc.
      assert (NoDup (achievements d ++ new1 ++ added)) as Hnd2.
      { rewrite app_assoc, <- Hach1. apply NoDup_app. split; [done|]. split; [|done].
        intros id Hid Hin. by apply Hfresh in Hin. }
      split_and!; try done.
      + destruct (achievementNotification _); [|by rewrite app_nil_r].
        apply NoDup_app. split; [done|]. split; [|done].
        intros id Hid Hin. apply Hfresh in Hin. apply Hin. rewrite Hach1.
        apply elem_of_app. right. by apply Hsub1.
      + intros id [Hid|Hid]%elem_of_app.
        * apply elem_of_app. left. by apply Hsub1.
        * apply elem_of_app. right. by destruct (achievementNotification _);
            [|apply elem_of_nil in Hid]. }
  split; [done|]. intros id Hid. apply Hsub in Hid. split.
  - unfold hasAchievement. rewrite Hd', Hach. apply bool_decide_eq_true.
    apply elem_of_app. by right.
  - rewrite Hach in Hnd'. apply NoDup_app in Hnd' as (_ & Hdisj & _).
    intros Hin. by apply (Hdisj id).
Qed.

Lemma achievements_enqueued_once_witness :
  let w := init (Some {| stored := NoEntry; writeRaises := false |})
             {| storage := None; saveData := None; achievementUnlockedListeners := [];
                achievementNotification := true; emitted := [] |} in
  let ops := [Completed 1 true; ResetProgress; Completed 1 true] in
  NoDup (enqueued (run ops w))
  ∧ ∀ id, id ∈ enqueued (run ops w) →
          hasAchievement id (run ops w) = true ∧ id ∉ achievements defaultSaveData.
Proof.
  apply (achievements_enqueued_once [Completed 1 true; ResetProgress; Completed 1 true]
           _ defaultSaveData).
  - reflexivity.
  - constructor.
  - reflexivity.
  - repeat constructor.
Defined.



(** X26. After a level is completed, a progression badge that was not unlocked
    before is unlocked exactly if the highest level, now the larger of its
    old value and [level + 1], exceeds the level of the badge: 1 for
    [first_steps], 3 for [getting_warmer], 5 for [memory_walker], 8 for
    [grid_expert], 11 for [grid_master]. *)
Theorem progression_badges (level : Z) (firstTry : bool) (w : World) (d : SaveData)
    (threshold : Z) (id : string) :
  saveData w = Some d → hasAchievement id w = false →
  (threshold, id) ∈ progressionBadges →
  hasAchievement id (onLevelCompleted level firstTry w)
  = bool_decide (threshold < Z.max (highestLevel d) (level + 1)).
Proof.
  intros Hd Hnot Hbadge.
  unfold hasAchievement in Hnot. rewrite Hd in Hnot. apply bool_decide_eq_false in Hnot.
  destruct (onLevelCompleted_spec level firstTry w d Hd)
    as (added & Hsd & _ & _ & _ & Hadded). cbv zeta in Hsd.
  unfold hasAchievement. rewrite Hsd. cbn [achievements setRetriesPerLevel setAchievements].
  apply bool_decide_ext. rewrite elem_of_app, Hadded.
  assert ((true, id) ∈ badgeConditions (advanced level firstTry d)
          ↔ threshold < Z.max (highestLevel d) (level + 1)) as ->; [|tauto].
  unfold badgeConditions. cbn [highestLevel advanced].
  set (h := Z.max (highestLevel d) (level + 1)).
  rewrite !elem_of_app, list_elem_of_bind, !elem_of_cons, !elem_of_nil.
  unfold progressionBadges in Hbadge.
  rewrite !elem_of_cons, elem_of_nil in Hbadge.
  destruct Hbadge as [[= -> ->]|[[= -> ->]|[[= -> ->]|[[= -> ->]|[[= -> ->]|[]]]]]];
    (split;
     [ intros [H|[H|H]];
       [ repeat (destruct H as [H|H]; [injection H as H; try discriminate;
                                      by apply Z.ltb_lt|]); try done;
         injection H as H; discriminate
       | destruct H as ([l r] & H & _); rewrite !elem_of_cons, elem_of_nil in H;
         destruct H as [H|[H|[]]]; injection H as H; discriminate
       | destruct H as [H|[]]; injection H as H; discriminate ]
     | intros H%Z.ltb_lt; left; rewrite H; tauto ]).
Qed.

Lemma progression_badges_witness :
  let w := init (Some {| stored := NoEntry; writeRaises := false |})
             {| storage := None; saveData := None; achievementUnlockedListeners := [];
                achievementNotification := true; emitted := [] |} in
  hasAchievement "getting_warmer" (onLevelCompleted 3 true w)
  = bool_decide (3 < Z.max (highestLevel defaultSaveData) (3 + 1)).
Proof.
  apply (progression_badges 3 true _ defaultSaveData 3 "getting_warmer").
  - reflexivity.
  - reflexivity.
  - unfold progressionBadges. right. left.
Defined.

(** X27. Completing the levels 1 to [n] in this order, each on the first try,
    unlocks [clean_start] if [n ≥ 1], [flawless_five] if [n ≥ 5],
    [deep_focus] if [n ≥ 6] and [no_mistakes] if [n ≥ 11], from any save
    data. *)
Theorem flawless_run (n : nat) (w : World) (d : SaveData) :
  saveData w = Some d →
  let w' := run ((λ l, Completed l true) <$> seqZ 1 (Z.of_nat n)) w in
  ((1 ≤ n)%nat → hasAchievement "clean_start" w' = true)
  ∧ ((5 ≤ n)%nat → hasAchievement "flawless_five" w' = true)
  ∧ ((6 ≤ n)%nat → hasAchievement "deep_focus" w' = true)
  ∧ ((11 ≤ n)%nat → hasAchievement "no_mistakes" w' = true).
Proof.
  intros Hd w'. subst w'.
  destruct n as [|m]; [split_and!; lia|].
  rewrite seqZ_S, fmap_app.
  change ((λ l, Completed l true) <$> [1 + Z.of_nat m])
    with [Completed (1 + Z.of_nat m) true].
  rewrite run_snoc. cbn [perform].
  destruct (first_tries m w d Hd) as (d1 & Hd1 & Hl1).
  pose proof (advanced_first_tries m d1 Hl1) as Hl2.
  set (a := advanced (1 + Z.of_nat m) true d1) in *.
  assert (Z.of_nat m + 2 ≤ highestLevel a) as Hhigh.
  { subst a. cbn [highestLevel advanced]. lia. }
  assert (∀ id, (true, id) ∈ badgeConditions a →
                hasAchievement id (onLevelCompleted (1 + Z.of_nat m) true
                  (run ((λ l, Completed l true) <$> seqZ 1 (Z.of_nat m)) w)) = true)
    as Hunlock.
  { intros id Hid. by apply (onLevelCompleted_unlocks _ true _ d1). }
  split_and!; intros Hn; apply Hunlock; unfold badgeConditions;
    apply elem_of_app; left.
  - replace (levelCompletedFirstTry a 1) with true; [repeat (first [by left|right])|].
    symmetry. apply bool_decide_eq_true. apply Hl2. lia.
  - rewrite firstTry_forallb by (intros l Hl; apply Hl2; lia).
    replace (5 <? highestLevel a) with true by (symmetry; apply Z.ltb_lt; lia).
    repeat (first [by left|right]).
  - rewrite (firstTry_existsb a 6 6 6) by (try apply Hl2; lia).
    repeat (first [by left|right]).
  - rewrite (firstTry_forallb a 1 11) by (intros l Hl; apply Hl2; lia).
    replace (11 <? highestLevel a) with true by (symmetry; apply Z.ltb_lt; lia).
    repeat (first [by left|right]).
Qed.

Lemma flawless_run_witness :
  let w := init (Some {| stored := NoEntry; writeRaises := false |})
             {| storage := None; saveData := None; achievementUnlockedListeners := [];
                achievementNotification := true; emitted := [] |} in
  let w' := run ((λ l, Completed l true) <$> seqZ 1 (Z.of_nat 5)) w in
  ((1 ≤ 5)%nat → hasAchievement "clean_start" w' = true)
  ∧ ((5 ≤ 5)%nat → hasAchievement "flawless_five" w' = true)
  ∧ ((6 ≤ 5)%nat → hasAchievement "deep_focus" w' = true)
  ∧ ((11 ≤ 5)%nat → hasAchievement "no_mistakes" w' = true).
Proof.
  apply (flawless_run 5 _ defaultSaveData). reflexivity.
Defined.

(** X28. Where the lens has no persistent storage system, [init] leaves the
    save data unset, and level completions, failures and
    [resetLevelProgress] then record nothing: the script stays as [init]
    left it, the current level stays 1 and no achievement is unlocked. *)
Theorem without_storage_nothing_is_recorded (ops : list Op) (w : World) :
  saveData w = None → Forall needsSaveData ops →
  let w' := run ops (init None w) in
  w' = init None w
  ∧ getCurrentLevel w' = 1
  ∧ hasSavedGame w' = false
  ∧ getUnlockedAchievements w' = [].
Proof.
  intros Hd Hops w'. subst w'.
  assert (saveData (init None w) = None) as Hinit by done.
  assert (run ops (init None w) = init None w) as ->.
  { induction Hops as [|op ops Hop Hops IH]; [done|].
    unfold run in *. cbn [foldl]. by rewrite without_saveData. }
  unfold getCurrentLevel, hasSavedGame, getUnlockedAchievements. by rewrite Hinit.
Qed.

Lemma without_storage_nothing_is_recorded_witness :
  let w := {| storage := None; saveData := None; achievementUnlockedListeners := [];
              achievementNotification := true; emitted := [] |} in
  let w' := run [Completed 1 true; Failed 2] (init None w) in
  w' = init None w
  ∧ getCurrentLevel w' = 1
  ∧ hasSavedGame w' = false
  ∧ getUnlockedAchievements w' = [].
Proof.
  apply (without_storage_nothing_is_recorded [Completed 1 true; Failed 2]).
  - reflexivity.
  - repeat constructor.
Defined.

(** X29. After a call that changes the progress, a restart ([init] with the
    persistent storage as the call left it) finds exactly the save data the
    script has in memory, provided writing to the store does not raise; if
    it raises, the restart finds what it would have found before the
    call. *)
Theorem progress_survives_restart (op : Op) (w w0 : World) (st : Storage) (d : SaveData) :
  storage w = Some st → saveData w = Some d →
  let w' := perform w op in
  saveData (init (storage w') w0)
  = if writeRaises st then saveData (init (Some st) w0) else saveData w'.
Proof.
  intros Hst Hd w'. subst w'.
  destruct (perform_spec w op d Hd) as (d' & Hd' & Hst' & _).
  rewrite Hst', Hd', Hst. unfold persisted.
  destruct (writeRaises st); [done|]. done.
Qed.

Lemma progress_survives_restart_witness :
  let blank := {| storage := None; saveData := None; achievementUnlockedListeners := [];
                  achievementNotification := true; emitted := [] |} in
  let st := {| stored := NoEntry; writeRaises := false |} in
  let w' := perform (init (Some st) blank) (Completed 1 true) in
  saveData (init (storage w') blank)
  = if writeRaises st then saveData (init (Some st) blank) else saveData w'.
Proof.
  apply (progress_survives_restart (Completed 1 true) _ _
           {| stored := NoEntry; writeRaises := false |} defaultSaveData); reflexivity.
Defined.

(** X30. [emitAchievementsUnlocked] with a non-empty list of ids calls every
    subscriber that does not raise once with these ids, the latest
    subscriber first, removes the subscribers that raise and keeps the others
    in their order, and then, if the notification script is loaded, passes
    the ids to its queue once; the save data stay as they are. *)
Theorem emitAchievementsUnlocked_delivers (ids : list string) (w : World) :
  ids ≠ [] →
  let w' := emitAchievementsUnlocked ids w in
  achievementUnlockedListeners w' = working (achievementUnlockedListeners w)
  ∧ emitted w'
    = emitted w
      ++ ((λ l, Delivered (listenerId l) ids)
            <$> reverse (working (achievementUnlockedListeners w)))
      ++ (if achievementNotification w then [Enqueued ids] else [])
  ∧ saveData w' = saveData w
  ∧ storage w' = storage w.
Proof.
  intros Hids w'. subst w'.
  destruct (emitAchievementsUnlocked_spec ids w) as (Hsd & Hst & _ & Hem).
  destruct (Hem Hids) as [Hls Hev]. done.
Qed.

Lemma emitAchievementsUnlocked_delivers_witness :
  let w := {| storage := None; saveData := Some defaultSaveData;
              achievementUnlockedListeners :=
                [ {| listenerId := 1; listenerRaises := false |};
                  {| listenerId := 2; listenerRaises := true |};
                  {| listenerId := 3; listenerRaises := false |} ];
              achievementNotification := true; emitted := [] |} in
  let ids := ["first_steps"] in
  let w' := emitAchievementsUnlocked ids w in
  achievementUnlockedListeners w' = working (achievementUnlockedListeners w)
  ∧ emitted w'
    = emitted w
      ++ ((λ l, Delivered (listenerId l) ids)
            <$> reverse (working (achievementUnlockedListeners w)))
      ++ (if achievementNotification w then [Enqueued ids] else [])
  ∧ saveData w' = saveData w
  ∧ storage w' = storage w.
Proof.
  apply (emitAchievementsUnlocked_delivers ["first_steps"]). discriminate.
Defined.

End SaveManagerProperties.
